(** * Hybrid retrieval and rank fusion of the RAG knowledge base

    A shallow embedding of [src/hybridSearchEngine.js] (both revisions of
    the engine that the file holds), of [QueryEngine.extractSources] in
    [src/queryEngine.js] and of the question classifier, followed by the
    properties of the retrieval core stated and proved over it.

    Conventions of the embedding.
    - A JavaScript string is the list of its UTF-16 code units.
    - A JavaScript number that carries a score or a weight is a
      rational: the sums and quotients of the fusion are exact, the
      rounding of doubles is not modelled.  Counts, ranks and array
      indexes are [nat].
    - An [async] function is a function into [Result]: [Ok] for a
      promise that resolves, [Throw] for one that rejects.
    - [Array.prototype.sort] is stable (ECMAScript 2019); it is modelled
      by a stable insertion sort driven by the comparator.
    - What the runtime and the [natural] package provide and the
      repository does not define (Unicode case mapping, the TF-IDF
      measure) is a class whose instance the theorems quantify over. *)

From Stdlib Require Import List Bool Arith NArith ZArith QArith Lia.
From Stdlib Require Import Sorted Permutation Ascii.
From Stdlib Require String DecimalString DecimalN.
Import ListNotations.
Import String.StringSyntax.
Delimit Scope string_scope with string.

Set Implicit Arguments.
Open Scope Q_scope.

(** * Part I: the program *)

(** ** Strings as UTF-16 code units *)

Definition jsstring : Type := list N.

Definition str (s : String.string) : jsstring :=
  map N_of_ascii (String.list_ascii_of_string s).

Arguments str s%_string.

Definition jsstring_eqb (a b : jsstring) : bool :=
  if list_eq_dec N.eq_dec a b then true else false.

(** Character classes of the regular expressions of the source. *)

Definition in_range (lo hi c : N) : bool := ((lo <=? c) && (c <=? hi))%N.

(** [\s], which is also what [trim] removes. *)
Definition isWhiteSpace (c : N) : bool :=
  in_range 9 13 c || (c =? 32)%N || (c =? 160)%N || (c =? 5760)%N
  || in_range 8192 8202 c || (c =? 8232)%N || (c =? 8233)%N
  || (c =? 8239)%N || (c =? 8287)%N || (c =? 12288)%N || (c =? 65279)%N.

(** [\w] *)
Definition isWordChar (c : N) : bool :=
  in_range 65 90 c || in_range 97 122 c || in_range 48 57 c || (c =? 95)%N.

(** [\u4e00-\u9fff] *)
Definition isCJK (c : N) : bool := in_range 19968 40959 c.

(** What [.] does not match. *)
Definition isLineTerminator (c : N) : bool :=
  (c =? 10)%N || (c =? 13)%N || (c =? 8232)%N || (c =? 8233)%N.

Definition space : N := 32%N.

Fixpoint trimStart (s : jsstring) : jsstring :=
  match s with
  | [] => []
  | c :: rest => if isWhiteSpace c then trimStart rest else s
  end.

Definition String_trim (s : jsstring) : jsstring :=
  rev (trimStart (rev (trimStart s))).

(** [s.split(' ')]: the empty string splits into one empty piece. *)
Fixpoint String_split (separator : N) (s : jsstring) : list jsstring :=
  match s with
  | [] => [[]]
  | c :: rest =>
      if (c =? separator)%N then [] :: String_split separator rest
      else match String_split separator rest with
           | [] => [[c]]
           | piece :: pieces => (c :: piece) :: pieces
           end
  end.

(** Case mapping is the runtime's (full Unicode): a parameter. *)
Class CaseMapping : Type := {
  toLowerCase : jsstring -> jsstring;
  toUpperCase : jsstring -> jsstring
}.

Definition asciiLower (c : N) : N := if in_range 65 90 c then (c + 32)%N else c.
Definition asciiUpper (c : N) : N := if in_range 97 122 c then (c - 32)%N else c.

(** The mapping restricted to ASCII letters, for running examples. *)
Definition AsciiCase : CaseMapping :=
  {| toLowerCase := map asciiLower; toUpperCase := map asciiUpper |}.

(** *** A backtracking matcher for the patterns of the classifier

    A pattern is a function from the rest of the input to the answer,
    built from the continuation of what follows it. *)

Definition Matcher : Type := jsstring -> bool.

(** Flag [i]: an ASCII letter of the pattern matches both of its cases;
    every other code unit of these patterns matches itself only. *)
Definition unit_matches_i (p c : N) : bool := (asciiUpper p =? asciiUpper c)%N.

Fixpoint re_literal_i (w : jsstring) (continue : Matcher) (s : jsstring) : bool :=
  match w with
  | [] => continue s
  | p :: w' =>
      match s with
      | [] => false
      | c :: s' => unit_matches_i p c && re_literal_i w' continue s'
      end
  end.

(** [.*] *)
Fixpoint re_dotstar (continue : Matcher) (s : jsstring) : bool :=
  continue s
  || match s with
     | [] => false
     | c :: s' => negb (isLineTerminator c) && re_dotstar continue s'
     end.

(** [$] without flag [m] *)
Definition re_end (s : jsstring) : bool :=
  match s with [] => true | _ :: _ => false end.

Definition re_accept (s : jsstring) : bool := true.

(** [pattern.test(s)] for a pattern that is not anchored: a match may
    start at any position. *)
Fixpoint re_test (pattern : Matcher) (s : jsstring) : bool :=
  pattern s
  || match s with
     | [] => false
     | _ :: s' => re_test pattern s'
     end.

Fixpoint starts_with (w s : jsstring) : bool :=
  match w with
  | [] => true
  | p :: w' =>
      match s with
      | [] => false
      | c :: s' => (p =? c)%N && starts_with w' s'
      end
  end.

(** [s.includes(w)] *)
Definition String_includes (s w : jsstring) : bool := re_test (starts_with w) s.

(** ** Promises and exceptions *)

Inductive JsError : Type :=
| TypeError
| Error (message : jsstring).

Inductive Result (A : Type) : Type :=
| Ok (value : A)
| Throw (error : JsError).

Arguments Ok {A} value.
Arguments Throw {A} error.

Definition bind {A B : Type} (r : Result A) (f : A -> Result B) : Result B :=
  match r with
  | Ok a => f a
  | Throw e => Throw e
  end.

Notation "x <- r ;; k" := (bind r (fun x => k))
  (at level 61, r at next level, right associativity).

(** [try { body } catch (error) { handler }] *)
Definition try_catch {A : Type} (body : Result A) (handler : JsError -> Result A)
  : Result A :=
  match body with
  | Ok a => Ok a
  | Throw e => handler e
  end.

(** [array.forEach((item, index) => ...)], the state that the callback
    updates threaded through. *)
Fixpoint forEach {A St : Type} (callback : St -> A -> nat -> St)
  (array : list A) (index : nat) (state : St) : St :=
  match array with
  | [] => state
  | item :: rest => forEach callback rest (S index) (callback state item index)
  end.

(** [forEach] with a callback that may throw: the first exception ends
    the loop. *)
Fixpoint forEachM {A St : Type} (callback : St -> A -> Result St)
  (array : list A) (state : St) : Result St :=
  match array with
  | [] => Ok state
  | item :: rest => state' <- callback state item ;; forEachM callback rest state'
  end.

(** [Promise.all(array.map(f))]: rejects with the first rejection. *)
Fixpoint Promise_all {A B : Type} (f : A -> Result B) (array : list A)
  : Result (list B) :=
  match array with
  | [] => Ok []
  | item :: rest =>
      value <- f item ;; values <- Promise_all f rest ;; Ok (value :: values)
  end.

(** [array.slice(0, n)] for a count [n]. *)
Definition slice0 {A : Type} (n : nat) (array : list A) : list A := firstn n array.

(** ** Numbers *)

Definition Qnat (n : nat) : Q := inject_Z (Z.of_nat n).

Definition Qlt_bool (x y : Q) : bool := negb (Qle_bool y x).

(** ** [Array.prototype.sort(comparefn)] *)

Section ArraySort.
Variable A : Type.
Variable comparefn : A -> A -> Q.

(** [x] goes behind every element that the comparator puts strictly
    before it and in front of the first one that it does not: elements
    that compare equal keep their order. *)
Fixpoint sort_insert (x : A) (sorted : list A) : list A :=
  match sorted with
  | [] => [x]
  | y :: rest =>
      if Qlt_bool (comparefn y x) 0 then y :: sort_insert x rest
      else x :: sorted
  end.

Definition Array_sort (l : list A) : list A := fold_right sort_insert [] l.

(** The order that the sort establishes when the comparator is the
    difference of a numeric [key]: by key, and among equal keys by
    [pos], the position an element had before the sort. *)
Variable key : A -> Q.
Variable pos : A -> nat.

Definition key_le (a b : A) : Prop := key a <= key b.

Definition ranked_before (a b : A) : Prop :=
  key a < key b \/ (key a == key b /\ (pos a < pos b)%nat).

End ArraySort.

Arguments key_le {A} key a b.
Arguments ranked_before {A} key pos a b.

(** ** [Map]: keys in insertion order *)

Section JsMap.
Variable V : Type.

Definition JsMap : Type := list (jsstring * V).

Fixpoint Map_get (m : JsMap) (key : jsstring) : option V :=
  match m with
  | [] => None
  | (k, v) :: rest => if jsstring_eqb k key then Some v else Map_get rest key
  end.

Definition Map_has (m : JsMap) (key : jsstring) : bool :=
  match Map_get m key with Some _ => true | None => false end.

(** [set] on a key that is present replaces the value where it is; a
    new key goes to the end.  An update of the object that [get]
    returned is a [set] of the updated object on the same key. *)
Fixpoint Map_set (m : JsMap) (key : jsstring) (v : V) : JsMap :=
  match m with
  | [] => [(key, v)]
  | (k, x) :: rest =>
      if jsstring_eqb k key then (k, v) :: rest
      else (k, x) :: Map_set rest key v
  end.

Definition Map_values (m : JsMap) : list V := map snd m.
Definition Map_keys (m : JsMap) : list jsstring := map fst m.

End JsMap.

(** ** Values and records of the retrieval core *)

(** The JavaScript values a chunk's [content] or [pageContent] can hold. *)
Inductive JsValue : Type :=
| JsUndefined
| JsNull
| JsBoolean (b : bool)
| JsNumber (q : Q)
| JsString (s : jsstring)
| JsObject.

Definition truthy (v : JsValue) : bool :=
  match v with
  | JsUndefined | JsNull => false
  | JsBoolean b => b
  | JsNumber q => negb (Qeq_bool q 0)
  | JsString s => match s with [] => false | _ :: _ => true end
  | JsObject => true
  end.

(** [a || b] *)
Definition js_or (a b : JsValue) : JsValue := if truthy a then a else b.

(** [typeof v === 'string'] *)
Definition is_string (v : JsValue) : bool :=
  match v with JsString _ => true | _ => false end.

(** The receiver of a call of a string method: a value that is not a
    string has no such method, and the call throws. *)
Definition as_string (v : JsValue) : Result jsstring :=
  match v with
  | JsString s => Ok s
  | _ => Throw TypeError
  end.

(** What the runtime supplies: the string that a template literal or
    [toString()] makes of a value, and the message of a [TypeError]. *)
Class Runtime : Type := {
  String_of : JsValue -> jsstring;
  TypeError_message : jsstring
}.

(** [error.message] *)
Definition message_of `{Host : Runtime} (error : JsError) : jsstring :=
  match error with
  | Error message => message
  | TypeError => TypeError_message
  end.

(** [value.toString()]: a string is itself. *)
Definition Value_toString `{Host : Runtime} (value : JsValue) : jsstring :=
  match value with
  | JsString s => s
  | _ => String_of value
  end.

(** [metadata] of a chunk.  A field that the object does not have is
    [None] ([undefined] in the source). *)
Record Metadata : Type := {
  source : option jsstring;
  chunkIndex : option N;
  fileType : option jsstring;
  processedAt : option jsstring
}.

(** [{}] *)
Definition empty_metadata : Metadata :=
  {| source := None; chunkIndex := None; fileType := None; processedAt := None |}.

Inductive SearchType : Type := keyword | semantic | hybrid.

(** A corpus document or a search result.  The objects of the source
    are untyped; the fields below are the ones the retrieval core reads
    or writes.  [None] and [JsUndefined] stand for an absent field
    ([null] for the provenance of a fused result). *)
Record SearchResult : Type := {
  content : JsValue;
  pageContent : JsValue;
  metadata : option Metadata;
  score : Q;
  searchType : option SearchType;
  keywordRank : option nat;
  keywordScore : option Q;
  semanticRank : option nat;
  semanticScore : option Q
}.

(** [String(n)] for a non-negative integer. *)
Definition Number_toString (n : N) : jsstring :=
  str (DecimalString.NilEmpty.string_of_uint (N.to_uint n)).

(** [field || default] on a string field: the empty string is falsy. *)
Definition string_or (field : option jsstring) (default : jsstring) : jsstring :=
  match field with
  | Some (c :: s) => c :: s
  | Some [] | None => default
  end.

(** [metadata.chunkIndex || 0] *)
Definition number_or_zero (field : option N) : N :=
  match field with
  | Some n => n
  | None => 0%N
  end.

(** [result.metadata || {}] *)
Definition metadata_or_empty (field : option Metadata) : Metadata :=
  match field with
  | Some m => m
  | None => empty_metadata
  end.

(** [getDocumentId]: one body in both revisions of the engine and in
    [EnsembleRetriever._getDocumentId]. *)
Definition getDocumentId (result : SearchResult) : jsstring :=
  let metadata := metadata_or_empty (metadata result) in
  string_or (source metadata) (str "unknown")
    ++ str "_" ++ Number_toString (number_or_zero (chunkIndex metadata)).

(** ** Text preprocessing: [preprocessText] and [_preprocessText] *)

(** [.replace(/[^\w\s\u4e00-\u9fff]/g, ' ')] *)
Definition replacePunctuation (s : jsstring) : jsstring :=
  map (fun c => if isWordChar c || isWhiteSpace c || isCJK c then c else space) s.

(** [.replace(/\s+/g, ' ')]; [inRun] tells that the code unit before was
    white space, whose run has been replaced already. *)
Fixpoint replaceWhitespaceRuns (inRun : bool) (s : jsstring) : jsstring :=
  match s with
  | [] => []
  | c :: rest =>
      if isWhiteSpace c then
        if inRun then replaceWhitespaceRuns true rest
        else space :: replaceWhitespaceRuns true rest
      else c :: replaceWhitespaceRuns false rest
  end.

Definition preprocessText `{Case : CaseMapping} (text : JsValue) : Result jsstring :=
  if negb (truthy text) || negb (is_string text) then Ok []
  else
    s <- as_string text ;;
    Ok (String_trim (replaceWhitespaceRuns false (replacePunctuation (toLowerCase s)))).

(** [processedQuery.split(' ').filter(term => term.length > 0)] *)
Definition splitTerms (processedQuery : jsstring) : list jsstring :=
  filter (fun term => (0 <? length term)%nat) (String_split space processedQuery).

(** ** The [natural] package: [TfIdf]

    The object keeps the texts that were added; the measure itself is
    the package's. *)
Class NaturalTfIdf : Type := {
  tfidf_measure : list jsstring -> jsstring -> nat -> Q
}.

Record TfIdf : Type := { tfidf_documents : list jsstring }.

(** [new TfIdf()] *)
Definition new_TfIdf : TfIdf := {| tfidf_documents := [] |}.

Definition addDocument (t : TfIdf) (text : jsstring) : TfIdf :=
  {| tfidf_documents := tfidf_documents t ++ [text] |}.

(** [t.tfidf(term, i)] *)
Definition tfidf_of `{Measure : NaturalTfIdf} (t : TfIdf) (term : jsstring) (i : nat) : Q :=
  tfidf_measure (tfidf_documents t) term i.

(** [queryTerms.forEach(term => { score += tfidf(term, i) })] from
    [let score = 0] *)
Definition sumTfidf `{Measure : NaturalTfIdf} (t : TfIdf) (queryTerms : list jsstring)
  (i : nat) : Q :=
  fold_left (fun score term => score + tfidf_of t term i) queryTerms 0.

(** ** The vector store, an external collaborator *)

Record VectorStore : Type := {
  (** [similaritySearch(query, k)] *)
  similaritySearch : jsstring -> nat -> Result (list SearchResult);
  (** [asRetriever().getRelevantDocuments(query)] *)
  retrieve : jsstring -> Result (list SearchResult)
}.

(** ** Reciprocal rank fusion: [fuseResults]

    The method has the same body in both revisions of
    [class HybridSearchEngine] that the file holds. *)

Module Fusion.

(** [const k = 60] *)
Definition k : nat := 60.

(** A value of [resultMap]: [{...result, fusedScore, keywordRank, ...}]. *)
Record FusedEntry : Type := {
  spread : SearchResult;
  fusedScore : Q;
  entryKeywordRank : option nat;
  entryKeywordScore : option Q;
  entrySemanticRank : option nat;
  entrySemanticScore : option Q
}.

Definition keywordCallback (keywordWeight : Q)
  (resultMap : JsMap FusedEntry) (result : SearchResult) (index : nat)
  : JsMap FusedEntry :=
  let docId := getDocumentId result in
  let rrfScore := keywordWeight / Qnat (k + index + 1) in
  match Map_get resultMap docId with
  | Some existing =>
      Map_set resultMap docId
        {| spread := spread existing;
           fusedScore := fusedScore existing + rrfScore;
           entryKeywordRank := Some (index + 1)%nat;
           entryKeywordScore := Some (score result);
           entrySemanticRank := entrySemanticRank existing;
           entrySemanticScore := entrySemanticScore existing |}
  | None =>
      Map_set resultMap docId
        {| spread := result;
           fusedScore := rrfScore;
           entryKeywordRank := Some (index + 1)%nat;
           entryKeywordScore := Some (score result);
           entrySemanticRank := None;
           entrySemanticScore := None |}
  end.

Definition semanticCallback (semanticWeight : Q)
  (resultMap : JsMap FusedEntry) (result : SearchResult) (index : nat)
  : JsMap FusedEntry :=
  let docId := getDocumentId result in
  let rrfScore := semanticWeight / Qnat (k + index + 1) in
  match Map_get resultMap docId with
  | Some existing =>
      Map_set resultMap docId
        {| spread := spread existing;
           fusedScore := fusedScore existing + rrfScore;
           entryKeywordRank := entryKeywordRank existing;
           entryKeywordScore := entryKeywordScore existing;
           entrySemanticRank := Some (index + 1)%nat;
           entrySemanticScore := Some (score result) |}
  | None =>
      Map_set resultMap docId
        {| spread := result;
           fusedScore := rrfScore;
           entryKeywordRank := None;
           entryKeywordScore := None;
           entrySemanticRank := Some (index + 1)%nat;
           entrySemanticScore := Some (score result) |}
  end.

(** [(a, b) => b.fusedScore - a.fusedScore] *)
Definition byFusedScore (a b : FusedEntry) : Q := fusedScore b - fusedScore a.

Definition toHybridResult (result : FusedEntry) : SearchResult :=
  {| content := content (spread result);
     pageContent := JsUndefined;
     metadata := metadata (spread result);
     score := fusedScore result;
     keywordRank := entryKeywordRank result;
     keywordScore := entryKeywordScore result;
     semanticRank := entrySemanticRank result;
     semanticScore := entrySemanticScore result;
     searchType := Some hybrid |}.

(** [resultMap] when both loops are done. *)
Definition fuseMap (keywordResults semanticResults : list SearchResult)
  (keywordWeight semanticWeight : Q) : JsMap FusedEntry :=
  let resultMap := forEach (keywordCallback keywordWeight) keywordResults 0%nat [] in
  forEach (semanticCallback semanticWeight) semanticResults 0%nat resultMap.

Definition fuseResults (keywordResults semanticResults : list SearchResult)
  (keywordWeight semanticWeight : Q) : list SearchResult :=
  let resultMap := fuseMap keywordResults semanticResults keywordWeight semanticWeight in
  map toHybridResult (Array_sort byFusedScore (Map_values resultMap)).

End Fusion.

(** ** The revision with the TF-IDF index
       (the second [class HybridSearchEngine] of the file) *)

Module TfIdfEngine.

Record HybridSearchEngine : Type := {
  vectorStore : VectorStore;
  tfidf : TfIdf;
  documents : list SearchResult;
  documentMetadata : list (option Metadata);
  isIndexed : bool
}.

(** [constructor(vectorStore)] *)
Definition new_HybridSearchEngine (vectorStore : VectorStore) : HybridSearchEngine :=
  {| vectorStore := vectorStore;
     tfidf := new_TfIdf;
     documents := [];
     documentMetadata := [];
     isIndexed := false |}.

(** [doc.pageContent || doc.content || ''] *)
Definition documentContent (doc : SearchResult) : JsValue :=
  js_or (js_or (pageContent doc) (content doc)) (JsString []).

Definition indexDocument `{Case : CaseMapping} (index : TfIdf) (doc : SearchResult)
  : Result TfIdf :=
  processedText <- preprocessText (documentContent doc) ;;
  Ok (addDocument index processedText).

Definition buildIndex `{Case : CaseMapping} (this : HybridSearchEngine)
  (documents : list SearchResult) : Result HybridSearchEngine :=
  index <- forEachM indexDocument documents new_TfIdf ;;
  Ok {| vectorStore := vectorStore this;
        tfidf := index;
        documents := documents;
        documentMetadata := map metadata documents;
        isIndexed := true |}.

(** The object pushed to [scores] for document [i]. *)
Definition keywordResult (doc : SearchResult) (score : Q) : SearchResult :=
  {| content := documentContent doc;
     pageContent := JsUndefined;
     metadata := metadata doc;
     score := score;
     searchType := Some keyword;
     keywordRank := None; keywordScore := None;
     semanticRank := None; semanticScore := None |}.

(** [for (let i = 0; i < this.documents.length; i++)], at document [i]
    with the documents from [i] on still to visit. *)
Fixpoint scoreDocuments `{Measure : NaturalTfIdf} (index : TfIdf) (queryTerms : list jsstring)
  (remaining : list SearchResult) (i : nat) : list SearchResult :=
  match remaining with
  | [] => []
  | doc :: rest =>
      let score := sumTfidf index queryTerms i in
      (if Qlt_bool 0 score then [keywordResult doc score] else [])
        ++ scoreDocuments index queryTerms rest (S i)
  end.

(** [(a, b) => b.score - a.score] *)
Definition byScore (a b : SearchResult) : Q := score b - score a.

Definition keywordSearch `{Case : CaseMapping} `{Measure : NaturalTfIdf} (this : HybridSearchEngine)
  (query : jsstring) (k : nat) : Result (list SearchResult) :=
  if negb (isIndexed this) then Ok []
  else
    processedQuery <- preprocessText (JsString query) ;;
    let queryTerms := splitTerms processedQuery in
    if (length queryTerms =? 0)%nat then Ok []
    else
      let scores := scoreDocuments (tfidf this) queryTerms (documents this) 0 in
      Ok (slice0 k (Array_sort byScore scores)).

(** [{...result, searchType: 'semantic'}] *)
Definition tagSemantic (result : SearchResult) : SearchResult :=
  {| content := content result;
     pageContent := pageContent result;
     metadata := metadata result;
     score := score result;
     searchType := Some semantic;
     keywordRank := keywordRank result; keywordScore := keywordScore result;
     semanticRank := semanticRank result; semanticScore := semanticScore result |}.

Definition semanticSearch (this : HybridSearchEngine) (query : jsstring) (k : nat)
  : Result (list SearchResult) :=
  try_catch
    (results <- similaritySearch (vectorStore this) query k ;;
     Ok (map tagSemantic results))
    (fun error => Ok []).

Record HybridOptions : Type := {
  maxResults : nat;
  keywordWeight : Q;
  semanticWeight : Q;
  keywordResults : nat;
  semanticResults : nat
}.

(** [options = {}] *)
Definition defaultOptions : HybridOptions :=
  {| maxResults := 4; keywordWeight := 3 # 10; semanticWeight := 7 # 10;
     keywordResults := 10; semanticResults := 10 |}.

Definition hybridSearch `{Case : CaseMapping} `{Measure : NaturalTfIdf} (this : HybridSearchEngine)
  (query : jsstring) (options : HybridOptions) : Result (list SearchResult) :=
  keywordSearchResults <- keywordSearch this query (keywordResults options) ;;
  semanticSearchResults <- semanticSearch this query (semanticResults options) ;;
  let fusedResults :=
    Fusion.fuseResults keywordSearchResults semanticSearchResults
      (keywordWeight options) (semanticWeight options) in
  Ok (slice0 (maxResults options) fusedResults).

End TfIdfEngine.

(** ** The revision with the LangChain retrievers
       (the first [class HybridSearchEngine] of the file) *)

Module EnsembleEngine.

(** [array.map((item, index) => ...)] *)
Fixpoint mapi {A B : Type} (f : A -> nat -> B) (array : list A) (index : nat)
  : list B :=
  match array with
  | [] => []
  | item :: rest => f item index :: mapi f rest (S index)
  end.

Record BM25Retriever : Type := {
  bm25_documents : list SearchResult;
  bm25_k : nat;
  bm25_tfidf : TfIdf
}.

Definition documentContent (doc : SearchResult) : JsValue :=
  js_or (js_or (pageContent doc) (content doc)) (JsString []).

Definition indexDocument `{Case : CaseMapping} (index : TfIdf) (doc : SearchResult)
  : Result TfIdf :=
  processedText <- preprocessText (documentContent doc) ;;
  Ok (addDocument index processedText).

(** [constructor(documents, k = 4)], which runs [_buildIndex] *)
Definition new_BM25Retriever `{Case : CaseMapping} (documents : list SearchResult) (k : nat)
  : Result BM25Retriever :=
  index <- forEachM indexDocument documents new_TfIdf ;;
  Ok {| bm25_documents := documents; bm25_k := k; bm25_tfidf := index |}.

(** An element of [scores]: [{ index: i, score }] *)
Record Scored : Type := { scored_index : nat; scored_score : Q }.

Fixpoint scoreDocuments `{Measure : NaturalTfIdf} (index : TfIdf) (queryTerms : list jsstring)
  (remaining : list SearchResult) (i : nat) : list Scored :=
  match remaining with
  | [] => []
  | doc :: rest =>
      let score := sumTfidf index queryTerms i in
      (if Qlt_bool 0 score then [{| scored_index := i; scored_score := score |}] else [])
        ++ scoreDocuments index queryTerms rest (S i)
  end.

Definition byScore (a b : Scored) : Q := scored_score b - scored_score a.

(** [this.documents[item.index]]; every index in [scores] is one of the
    loop over [this.documents], so the lookup finds a document. *)
Definition documentAt (documents : list SearchResult) (item : Scored)
  : list SearchResult :=
  match nth_error documents (scored_index item) with
  | Some doc => [doc]
  | None => []
  end.

Definition BM25_getRelevantDocuments `{Case : CaseMapping} `{Measure : NaturalTfIdf}
  (this : BM25Retriever) (query : jsstring) : Result (list SearchResult) :=
  processedQuery <- preprocessText (JsString query) ;;
  let queryTerms := splitTerms processedQuery in
  if (length queryTerms =? 0)%nat then Ok []
  else
    let scores := scoreDocuments (bm25_tfidf this) queryTerms (bm25_documents this) 0 in
    Ok (flat_map (documentAt (bm25_documents this))
          (slice0 (bm25_k this) (Array_sort byScore scores))).

(** The ensemble holds references to the retriever objects: the BM25
    retriever it queries is the one of the engine, with the [k] that
    the engine has set on it last. *)
Inductive RetrieverRef : Type := TheBM25Retriever | TheVectorRetriever.

Record EnsembleRetriever : Type := {
  retrievers : list RetrieverRef;
  weights : list Q
}.

(** A value of [resultMap]: [{ doc, score }] *)
Record Ranked : Type := { ranked_doc : SearchResult; ranked_score : Q }.

(** [const k = 60] *)
Definition k : nat := 60.

Definition rankCallback (weight : Q) (resultMap : JsMap Ranked)
  (doc : SearchResult) (rank : nat) : JsMap Ranked :=
  let docId := getDocumentId doc in
  let rrfScore := weight / Qnat (k + rank + 1) in
  match Map_get resultMap docId with
  | Some existing =>
      Map_set resultMap docId
        {| ranked_doc := ranked_doc existing;
           ranked_score := ranked_score existing + rrfScore |}
  | None =>
      Map_set resultMap docId {| ranked_doc := doc; ranked_score := rrfScore |}
  end.

(** [this.weights[retrieverIndex]]; the engine builds its ensembles with
    as many weights as retrievers, so the index is in range (out of
    range the source divides [undefined]). *)
Definition retrieverCallback (weights : list Q) (resultMap : JsMap Ranked)
  (results : list SearchResult) (retrieverIndex : nat) : JsMap Ranked :=
  let weight := nth retrieverIndex weights 0 in
  forEach (rankCallback weight) results 0%nat resultMap.

Definition byRankedScore (a b : Ranked) : Q := ranked_score b - ranked_score a.

(** Reciprocal rank fusion of [_getRelevantDocuments], from the results
    of the retrievers on. *)
Definition rankMap (weights : list Q) (allResults : list (list SearchResult))
  : JsMap Ranked :=
  forEach (retrieverCallback weights) allResults 0%nat [].

Definition rankFusion (weights : list Q) (allResults : list (list SearchResult))
  : list SearchResult :=
  map ranked_doc (Array_sort byRankedScore (Map_values (rankMap weights allResults))).

Record HybridSearchEngine : Type := {
  vectorStore : VectorStore;
  bm25Retriever : option BM25Retriever;
  ensembleRetriever : option EnsembleRetriever;
  documents : list SearchResult;
  isIndexed : bool
}.

(** [constructor(vectorStore)] *)
Definition new_HybridSearchEngine (vectorStore : VectorStore) : HybridSearchEngine :=
  {| vectorStore := vectorStore;
     bm25Retriever := None;
     ensembleRetriever := None;
     documents := [];
     isIndexed := false |}.

(** [retriever.getRelevantDocuments(query)] *)
Definition getRelevantDocuments `{Case : CaseMapping} `{Measure : NaturalTfIdf}
  (this : HybridSearchEngine) (query : jsstring) (retriever : RetrieverRef)
  : Result (list SearchResult) :=
  match retriever with
  | TheBM25Retriever =>
      match bm25Retriever this with
      | Some bm25 => BM25_getRelevantDocuments bm25 query
      | None => Throw TypeError
      end
  | TheVectorRetriever => retrieve (vectorStore this) query
  end.

Definition Ensemble_getRelevantDocuments `{Case : CaseMapping} `{Measure : NaturalTfIdf}
  (this : HybridSearchEngine) (ensemble : EnsembleRetriever) (query : jsstring)
  : Result (list SearchResult) :=
  allResults <- Promise_all (getRelevantDocuments this query) (retrievers ensemble) ;;
  Ok (rankFusion (weights ensemble) allResults).

(** [new Document({ pageContent: doc.pageContent || doc.content || '',
    metadata: doc.metadata || {} })]; the constructor of [Document]
    stores [pageContent.toString()].  A document that is a [Document]
    already has these two fields. *)
Definition toDocument `{Host : Runtime} (doc : SearchResult) : SearchResult :=
  {| content := JsUndefined;
     pageContent := JsString (Value_toString (documentContent doc));
     metadata := Some (metadata_or_empty (metadata doc));
     score := 0;
     searchType := None;
     keywordRank := None; keywordScore := None;
     semanticRank := None; semanticScore := None |}.

(** The second argument of [buildIndex]: an object with the method
    [asRetriever], or one without it, as the [VectorStore] of
    [vectorStore.js] is. *)
Inductive StoreArgument : Type :=
| HasRetriever (store : VectorStore)
| NoRetriever.

(** [vectorStore.asRetriever()] throws when the object has no such
    method; [isIndexed] is set after this call only. *)
Definition buildIndex `{Case : CaseMapping} `{Host : Runtime} (this : HybridSearchEngine)
  (documents : list SearchResult) (vectorStore : StoreArgument)
  : Result HybridSearchEngine :=
  let langchainDocs := map toDocument documents in
  bm25 <- new_BM25Retriever langchainDocs 10 ;;
  match vectorStore with
  | NoRetriever => Throw TypeError
  | HasRetriever vectorStore =>
      Ok {| vectorStore := vectorStore;
            bm25Retriever := Some bm25;
            ensembleRetriever :=
              Some {| retrievers := [TheBM25Retriever; TheVectorRetriever];
                      weights := [3 # 10; 7 # 10] |};
            documents := documents;
            isIndexed := true |}
  end.

(** [this.bm25Retriever.k = k] *)
Definition set_k (this : HybridSearchEngine) (k : nat) : HybridSearchEngine :=
  {| vectorStore := vectorStore this;
     bm25Retriever :=
       match bm25Retriever this with
       | Some bm25 =>
           Some {| bm25_documents := bm25_documents bm25; bm25_k := k;
                   bm25_tfidf := bm25_tfidf bm25 |}
       | None => None
       end;
     ensembleRetriever := ensembleRetriever this;
     documents := documents this;
     isIndexed := isIndexed this |}.

Definition set_ensembleRetriever (this : HybridSearchEngine)
  (ensemble : EnsembleRetriever) : HybridSearchEngine :=
  {| vectorStore := vectorStore this;
     bm25Retriever := bm25Retriever this;
     ensembleRetriever := Some ensemble;
     documents := documents this;
     isIndexed := isIndexed this |}.

(** The result objects that [keywordSearch] and [hybridSearch] build
    from a document and its position. *)
Definition rankedResult (tag : SearchType) (doc : SearchResult) (index : nat)
  : SearchResult :=
  {| content := pageContent doc;
     pageContent := JsUndefined;
     metadata := metadata doc;
     score := 1 / Qnat (index + 1);
     searchType := Some tag;
     keywordRank := None; keywordScore := None;
     semanticRank := None; semanticScore := None |}.

(** The search methods assign to fields of [this]; they return the
    engine after the call next to the value of the promise. *)
Definition keywordSearch `{Case : CaseMapping} `{Measure : NaturalTfIdf} (this : HybridSearchEngine)
  (query : jsstring) (k : nat) : HybridSearchEngine * Result (list SearchResult) :=
  match isIndexed this, bm25Retriever this with
  | true, Some _ =>
      let this := set_k this k in
      (this,
       try_catch
         (results <- getRelevantDocuments this query TheBM25Retriever ;;
          Ok (mapi (rankedResult keyword) results 0))
         (fun error => Ok []))
  | _, _ => (this, Ok [])
  end.

(** [{ content: result.pageContent || result.content, metadata:
    result.metadata, score: result.score || 0, searchType: 'semantic' }] *)
Definition semanticResult (result : SearchResult) : SearchResult :=
  {| content := js_or (pageContent result) (content result);
     pageContent := JsUndefined;
     metadata := metadata result;
     score := score result;
     searchType := Some semantic;
     keywordRank := None; keywordScore := None;
     semanticRank := None; semanticScore := None |}.

Definition semanticSearch (this : HybridSearchEngine) (query : jsstring) (k : nat)
  : Result (list SearchResult) :=
  try_catch
    (results <- similaritySearch (vectorStore this) query k ;;
     Ok (map semanticResult results))
    (fun error => Ok []).

(** [{ ...r, searchType: 'hybrid' }] *)
Definition tagHybrid (r : SearchResult) : SearchResult :=
  {| content := content r;
     pageContent := pageContent r;
     metadata := metadata r;
     score := score r;
     searchType := Some hybrid;
     keywordRank := keywordRank r; keywordScore := keywordScore r;
     semanticRank := semanticRank r; semanticScore := semanticScore r |}.

Record HybridOptions : Type := {
  maxResults : nat;
  keywordWeight : Q;
  semanticWeight : Q
}.

Definition defaultOptions : HybridOptions :=
  {| maxResults := 4; keywordWeight := 3 # 10; semanticWeight := 7 # 10 |}.

(** [const results = await this.semanticSearch(query, maxResults);
    return results.map(r => ({ ...r, searchType: 'hybrid' }))] *)
Definition semanticFallback (this : HybridSearchEngine) (query : jsstring)
  (maxResults : nat) : Result (list SearchResult) :=
  results <- semanticSearch this query maxResults ;;
  Ok (map tagHybrid results).

Definition hybridSearch `{Case : CaseMapping} `{Measure : NaturalTfIdf} (this : HybridSearchEngine)
  (query : jsstring) (options : HybridOptions)
  : HybridSearchEngine * Result (list SearchResult) :=
  match isIndexed this, ensembleRetriever this with
  | true, Some current =>
      let ensemble :=
        if negb (Qeq_bool (keywordWeight options) (3 # 10))
           || negb (Qeq_bool (semanticWeight options) (7 # 10))
        then {| retrievers := [TheBM25Retriever; TheVectorRetriever];
                weights := [keywordWeight options; semanticWeight options] |}
        else current in
      let this := set_k (set_ensembleRetriever this ensemble) (maxResults options * 2) in
      (this,
       try_catch
         (results <- Ensemble_getRelevantDocuments this ensemble query ;;
          Ok (mapi (rankedResult hybrid) (slice0 (maxResults options) results) 0))
         (fun error => semanticFallback this query (maxResults options)))
  | _, _ => (this, semanticFallback this query (maxResults options))
  end.

End EnsembleEngine.

(** ** [QueryEngine.extractSources] *)

Module QueryEngine.

(** An element of [chunks]: [{ chunkIndex: chunkIndex + 1, score, content }] *)
Record SourceChunk : Type := {
  sourceChunkIndex : N;
  sourceChunkScore : Q;
  sourceChunkContent : JsValue
}.

Record SourceGroup : Type := {
  filename : jsstring;
  chunks : list SourceChunk;
  groupFileType : jsstring;
  groupProcessedAt : option jsstring
}.

(** [array.push(item)] on the [chunks] of a group *)
Definition pushChunk (group : SourceGroup) (item : SourceChunk) : SourceGroup :=
  {| filename := filename group;
     chunks := chunks group ++ [item];
     groupFileType := groupFileType group;
     groupProcessedAt := groupProcessedAt group |}.

(** [result.content || result.pageContent || ''] *)
Definition resultContent (result : SearchResult) : JsValue :=
  js_or (js_or (content result) (pageContent result)) (JsString []).

(** The callback of [searchResults.forEach]: reading a field of
    [result.metadata] throws when there is no metadata, and the debug
    line calls [content.substring], which only a string has. *)
Definition collectSource (sourceMap : JsMap SourceGroup) (result : SearchResult)
  : Result (JsMap SourceGroup) :=
  match metadata result with
  | None => Throw TypeError
  | Some metadata =>
      let source := string_or (source metadata) (str "Unknown") in
      let chunkIndex := number_or_zero (chunkIndex metadata) in
      let score := score result in
      let content := resultContent result in
      _ <- as_string content ;;
      let sourceMap :=
        if negb (Map_has sourceMap source) then
          Map_set sourceMap source
            {| filename := source;
               chunks := [];
               groupFileType := string_or (fileType metadata) (str "unknown");
               groupProcessedAt := processedAt metadata |}
        else sourceMap in
      match Map_get sourceMap source with
      | Some group =>
          Ok (Map_set sourceMap source
                (pushChunk group
                   {| sourceChunkIndex := (chunkIndex + 1)%N;
                      sourceChunkScore := score;
                      sourceChunkContent := content |}))
      | None => Throw TypeError
      end
  end.

(** [(a, b) => a.chunkIndex - b.chunkIndex] *)
Definition byChunkIndex (a b : SourceChunk) : Q :=
  inject_Z (Z.of_N (sourceChunkIndex a)) - inject_Z (Z.of_N (sourceChunkIndex b)).

(** [{ ...source, chunks: source.chunks.sort(...) }] *)
Definition sortChunks (source : SourceGroup) : SourceGroup :=
  {| filename := filename source;
     chunks := Array_sort byChunkIndex (chunks source);
     groupFileType := groupFileType source;
     groupProcessedAt := groupProcessedAt source |}.

Definition extractSources (searchResults : list SearchResult)
  : Result (list SourceGroup) :=
  sourceMap <- forEachM collectSource searchResults [] ;;
  Ok (map sortChunks (Map_values sourceMap)).

End QueryEngine.

(** ** [QuestionClassifier] *)

Module QuestionClassifier.

Inductive Classification : Type := DIRECT | SEARCH.

(** [patterns.some(pattern => pattern.test(s))] *)
Definition some_test (patterns : list Matcher) (s : jsstring) : bool :=
  existsb (fun pattern => pattern s) patterns.

(** [/^(w1|w2|...)$/i] *)
Definition whole_i (alternatives : list jsstring) : Matcher :=
  fun s => existsb (fun w => re_literal_i w re_end s) alternatives.

(** [/w1.*w2.*w3/i] and its like *)
Fixpoint words_i (words : list jsstring) : Matcher :=
  match words with
  | [] => re_accept
  | [w] => re_literal_i w re_accept
  | w :: rest => re_literal_i w (re_dotstar (words_i rest))
  end.

Definition greetingPatterns : list Matcher :=
  [ whole_i [str "hi"; str "hello"; str "hey";
             [20320; 22909]%N; [20877; 35265]%N];
    whole_i [str "good morning"; str "good afternoon"; str "good evening"];
    whole_i [str "how are you"; str "how do you do"];
    whole_i [str "thanks"; str "thank you"; [35874; 35874]%N] ].

Definition isLikelyGreeting (question : jsstring) : bool :=
  some_test greetingPatterns (String_trim question).

Definition personalPatterns : list Matcher :=
  [ re_test (words_i [str "what"; str "your"; str "name"]);
    re_test (words_i [str "who"; str "are"; str "you"]);
    re_test (words_i [[20320; 21483; 20160; 20040; 21517; 23383]%N]);
    re_test (words_i [[20320; 26159; 35841]%N]);
    re_test (words_i [str "what"; str "can"; str "you"; str "do"]);
    re_test (words_i [str "tell"; str "about"; str "yourself"]) ].

Definition isPersonalQuestion (question : jsstring) : bool :=
  some_test personalPatterns question.

(** [classificationChain] is the call of the language model: the
    classification oracle, which answers or throws. *)
Definition classifyQuestion `{Case : CaseMapping}
  (classificationChain : jsstring -> Result jsstring) (question : jsstring)
  : Result Classification :=
  try_catch
    (if isLikelyGreeting question || isPersonalQuestion question then Ok DIRECT
     else
       classification <- classificationChain (String_trim question) ;;
       let cleanedClassification := toUpperCase (String_trim classification) in
       if String_includes cleanedClassification (str "DIRECT") then Ok DIRECT
       else if String_includes cleanedClassification (str "SEARCH") then Ok SEARCH
       else Ok SEARCH)
    (fun error =>
       if isLikelyGreeting question || isPersonalQuestion question then Ok DIRECT
       else Ok SEARCH).

End QuestionClassifier.

(** ** Vocabulary of the statements *)

(** What one ranked list adds to the score of [docId] under reciprocal
    rank fusion with damping [K]: one term [weight / (K + r)] for every
    1-based rank [r] at which the list holds [docId]; [index] is the
    0-based index of the head of [results]. *)
Fixpoint contribution (K : nat) (weight : Q) (docId : jsstring)
  (results : list SearchResult) (index : nat) : Q :=
  match results with
  | [] => 0
  | result :: rest =>
      (if jsstring_eqb (getDocumentId result) docId
       then weight / Qnat (K + index + 1) else 0)
      + contribution K weight docId rest (S index)
  end.

(** The 1-based rank of the first result with identity [docId]. *)
Fixpoint rankFrom (docId : jsstring) (results : list SearchResult) (index : nat)
  : option nat :=
  match results with
  | [] => None
  | result :: rest =>
      if jsstring_eqb (getDocumentId result) docId then Some (index + 1)%nat
      else rankFrom docId rest (S index)
  end.

Definition rankOf (docId : jsstring) (results : list SearchResult) : option nat :=
  rankFrom docId results 0.

(** [weight / (K + r)] for a list that holds the chunk at rank [r], zero
    for a list that does not hold it. *)
Definition rankTerm (K : nat) (weight : Q) (rank : option nat) : Q :=
  match rank with
  | Some r => weight / Qnat (K + r)
  | None => 0
  end.

(** The score that a result map holds for [docId], zero without entry. *)
Definition scoreIn {V : Type} (entryScore : V -> Q) (m : JsMap V) (docId : jsstring) : Q :=
  match Map_get m docId with
  | Some e => entryScore e
  | None => 0
  end.

(** Every key of a result map is the identity of the result its entry
    was made from, and no key is there twice. *)
Definition wellKeyed {V : Type} (entryDoc : V -> SearchResult) (m : JsMap V) : Prop :=
  NoDup (Map_keys m)
  /\ forall docId e, In (docId, e) m -> docId = getDocumentId (entryDoc e).

(** The entries that a list makes when each of its results is new to
    the map: one for each result, with the score of its rank. *)
Fixpoint freshEntries {V : Type} (entryDoc : V -> SearchResult) (entryScore : V -> Q)
  (K : nat) (weight : Q) (results : list SearchResult) (index : nat)
  (entries : JsMap V) : Prop :=
  match results, entries with
  | [], [] => True
  | result :: results', (docId, e) :: entries' =>
      docId = getDocumentId result
      /\ entryDoc e = result
      /\ entryScore e = weight / Qnat (K + index + 1)
      /\ freshEntries entryDoc entryScore K weight results' (S index) entries'
  | _, _ => False
  end.

(** The elements of [l] at their first occurrence, in order, without
    those that are in [seen]. *)
Fixpoint firstSeen (seen l : list jsstring) : list jsstring :=
  match l with
  | [] => []
  | x :: rest =>
      if existsb (jsstring_eqb x) seen then firstSeen seen rest
      else x :: firstSeen (x :: seen) rest
  end.

(** The elements of an array with their indexes, from index [i] on. *)
Fixpoint indexed {A : Type} (l : list A) (i : nat) : list (nat * A) :=
  match l with
  | [] => []
  | x :: rest => (i, x) :: indexed rest (S i)
  end.


(** A result without the fields of its identity: no metadata, or
    metadata with neither [source] nor [chunkIndex]. *)
Definition lacksIdentity (result : SearchResult) : Prop :=
  match metadata result with
  | None => True
  | Some m => source m = None /\ chunkIndex m = None
  end.

(** The key of the group of a result in [extractSources]. *)
Definition sourceKey (result : SearchResult) : jsstring :=
  string_or (source (metadata_or_empty (metadata result))) (str "Unknown").

(** *** Data for running the program *)

(** A result that carries its identity and its text. *)
Definition chunk (sourceId : String.string) (index : N) (text : String.string)
  : SearchResult :=
  {| content := JsString (str text);
     pageContent := JsUndefined;
     metadata := Some {| source := Some (str sourceId); chunkIndex := Some index;
                         fileType := None; processedAt := None |};
     score := 0;
     searchType := None;
     keywordRank := None; keywordScore := None;
     semanticRank := None; semanticScore := None |}.

Arguments chunk sourceId%_string index%_N text%_string.

(** A result with a content and nothing else. *)
Definition bare (content : JsValue) : SearchResult :=
  {| content := content;
     pageContent := JsUndefined;
     metadata := None;
     score := 0;
     searchType := None;
     keywordRank := None; keywordScore := None;
     semanticRank := None; semanticScore := None |}.

(** A measure for running the index: the number of times the term
    occurs among the words of the text, in place of the TF-IDF of the
    package. *)
Definition TermCount : NaturalTfIdf :=
  {| tfidf_measure := fun texts term i =>
       match nth_error texts i with
       | Some text =>
           Qnat (length (filter (jsstring_eqb term) (splitTerms text)))
       | None => 0
       end |}.

(** A runtime for running examples, right on strings, natural
    numbers, booleans, [undefined] and [null]; other numbers do not
    occur in the examples. *)
Definition PlainRuntime : Runtime :=
  {| String_of := fun value =>
                    match value with
                    | JsString s => s
                    | JsUndefined => str "undefined"
                    | JsNull => str "null"
                    | JsBoolean true => str "true"
                    | JsBoolean false => str "false"
                    | JsNumber q =>
                        if Qeq_bool q (inject_Z (Z.abs (Qnum q)))
                        then Number_toString (Z.to_N (Qnum q))
                        else []
                    | JsObject => str "[object Object]"
                    end;
     TypeError_message := str "Cannot read properties of undefined" |}.

(** A vector store that answers every query with [results]. *)
Definition constantStore (results : list SearchResult) : VectorStore :=
  {| similaritySearch := fun _ _ => Ok results;
     retrieve := fun _ => Ok results |}.

(** A vector store whose every call throws. *)
Definition failingStore : VectorStore :=
  {| similaritySearch := fun _ _ => Throw (Error (str "Search failed"));
     retrieve := fun _ => Throw (Error (str "Search failed")) |}.

(** The lists of the fusion scenario: keyword ranks docA, docB; semantic
    ranks docB, docA. *)
Definition docA : SearchResult := chunk "docA" 0 "apples are red".
Definition docB : SearchResult := chunk "docB" 0 "bananas are yellow".
Definition exampleKeyword : list SearchResult := [docA; docB].
Definition exampleSemantic : list SearchResult := [docB; docA].

(** What the vector store finds, nothing when its call throws. *)
Definition semanticHits (store : VectorStore) (query : jsstring) (k : nat)
  : list SearchResult :=
  match similaritySearch store query k with
  | Ok results => results
  | Throw _ => []
  end.

(** The engine of the TF-IDF revision after [buildIndex] on the two
    chunks of the scenarios, over a given vector store. *)
Definition exampleEngine (store : VectorStore) : TfIdfEngine.HybridSearchEngine :=
  match TfIdfEngine.buildIndex (Case := AsciiCase)
          (TfIdfEngine.new_HybridSearchEngine store) [docA; docB] with
  | Ok engine => engine
  | Throw _ => TfIdfEngine.new_HybridSearchEngine store
  end.

(** The object that [keywordSearch] makes for a hit: a position of the
    corpus with its document. *)
Definition hitResult `{Measure : NaturalTfIdf} (index : TfIdf) (queryTerms : list jsstring)
  (hit : nat * SearchResult) : SearchResult :=
  TfIdfEngine.keywordResult (snd hit) (sumTfidf index queryTerms (fst hit)).

(** The comparator of [keywordSearch] on hits. *)
Definition byHitScore `{Measure : NaturalTfIdf} (index : TfIdf) (queryTerms : list jsstring)
  (a b : nat * SearchResult) : Q :=
  sumTfidf index queryTerms (fst b) - sumTfidf index queryTerms (fst a).

(** The positions of the corpus that the query scores above zero. *)
Definition positiveHits `{Measure : NaturalTfIdf} (index : TfIdf) (queryTerms : list jsstring)
  (documents : list SearchResult) (i : nat) : list (nat * SearchResult) :=
  filter (fun hit => Qlt_bool 0 (sumTfidf index queryTerms (fst hit)))
         (indexed documents i).

(** The text that [buildIndex] adds to the index for a document. *)
Definition processedOf `{Case : CaseMapping} (doc : SearchResult) : jsstring :=
  match preprocessText (TfIdfEngine.documentContent doc) with
  | Ok text => text
  | Throw _ => []
  end.


(** *** Vocabulary of [extractSources] *)

(** A result that [extractSources] can read: it has metadata, and its
    content is a string (the empty one when it has none). *)
Definition wellFormedResult (result : SearchResult) : Prop :=
  metadata result <> None
  /\ is_string (QueryEngine.resultContent result) = true.

(** The group that the first result of a source opens. *)
Definition newGroup (result : SearchResult) : QueryEngine.SourceGroup :=
  let metadata := metadata_or_empty (metadata result) in
  {| QueryEngine.filename := sourceKey result;
     QueryEngine.chunks := [];
     QueryEngine.groupFileType := string_or (fileType metadata) (str "unknown");
     QueryEngine.groupProcessedAt := processedAt metadata |}.

(** The chunk that a result adds to its group. *)
Definition toSourceChunk (result : SearchResult) : QueryEngine.SourceChunk :=
  let metadata := metadata_or_empty (metadata result) in
  {| QueryEngine.sourceChunkIndex := (number_or_zero (chunkIndex metadata) + 1)%N;
     QueryEngine.sourceChunkScore := score result;
     QueryEngine.sourceChunkContent := QueryEngine.resultContent result |}.

Definition pushAll (group : QueryEngine.SourceGroup)
  (items : list QueryEngine.SourceChunk) : QueryEngine.SourceGroup :=
  {| QueryEngine.filename := QueryEngine.filename group;
     QueryEngine.chunks := QueryEngine.chunks group ++ items;
     QueryEngine.groupFileType := QueryEngine.groupFileType group;
     QueryEngine.groupProcessedAt := QueryEngine.groupProcessedAt group |}.

(** [sourceMap] after the callback has run on a well-formed result. *)
Definition collected (sourceMap : JsMap QueryEngine.SourceGroup)
  (result : SearchResult) : JsMap QueryEngine.SourceGroup :=
  let group :=
    match Map_get sourceMap (sourceKey result) with
    | Some group => group
    | None => newGroup result
    end in
  Map_set sourceMap (sourceKey result)
    (QueryEngine.pushChunk group (toSourceChunk result)).

(** The results of one source. *)
Definition ofSource (key : jsstring) (results : list SearchResult)
  : list SearchResult :=
  filter (fun r => jsstring_eqb (sourceKey r) key) results.

(** Results as the vector store returns them, for [extractSources]. *)
Definition scored (sourceId : String.string) (index : N) (kind : String.string)
  (value : Q) : SearchResult :=
  {| content := JsString (str sourceId);
     pageContent := JsUndefined;
     metadata := Some {| source := Some (str sourceId); chunkIndex := Some index;
                         fileType := Some (str kind); processedAt := None |};
     score := value;
     searchType := Some semantic;
     keywordRank := None; keywordScore := None;
     semanticRank := None; semanticScore := None |}.

Arguments scored sourceId%_string index%_N kind%_string value%_Q.

Definition scatteredResults : list SearchResult :=
  [scored "b.pdf" 4 "pdf" (9 # 10); scored "a.txt" 2 "txt" (8 # 10);
   scored "b.pdf" 0 "docx" (7 # 10); scored "a.txt" 0 "txt" (6 # 10);
   scored "b.pdf" 2 "pdf" (5 # 10)].

(** The engine of the LangChain revision after [buildIndex] on the two
    chunks of the scenarios, over a given vector store. *)
Definition exampleEnsembleEngine (store : VectorStore)
  : EnsembleEngine.HybridSearchEngine :=
  match EnsembleEngine.buildIndex (Case := AsciiCase) (Host := PlainRuntime)
          (EnsembleEngine.new_HybridSearchEngine store) [docA; docB]
          (EnsembleEngine.HasRetriever store) with
  | Ok engine => engine
  | Throw _ => EnsembleEngine.new_HybridSearchEngine store
  end.

(** ** Further vocabulary: the order and the provenance of fused results *)

(** The last result of a list with identity [docId], with its 1-based
    rank; [index] is the 0-based index of the head of [results]. *)
Fixpoint lastOccurrence (docId : jsstring) (results : list SearchResult) (index : nat)
  : option (nat * SearchResult) :=
  match results with
  | [] => None
  | result :: rest =>
      match lastOccurrence docId rest (S index) with
      | Some found => Some found
      | None =>
          if jsstring_eqb (getDocumentId result) docId
          then Some ((index + 1)%nat, result) else None
      end
  end.

(** The first result of a list with identity [docId]. *)
Definition firstOccurrence (docId : jsstring) (results : list SearchResult)
  : option SearchResult :=
  find (fun r => jsstring_eqb (getDocumentId r) docId) results.

(** The index of the first occurrence of [x] in [l], the length of [l]
    when there is none. *)
Fixpoint positionIn (x : jsstring) (l : list jsstring) : nat :=
  match l with
  | [] => 0
  | y :: rest => if jsstring_eqb y x then 0 else S (positionIn x rest)
  end.

(** The identities of two lists in the order in which the fusion meets
    them. *)
Definition encounterOrder (keywordResults semanticResults : list SearchResult)
  : list jsstring :=
  firstSeen [] (map getDocumentId (keywordResults ++ semanticResults)).

(** An entry of the result map of [EnsembleRetriever] and an entry of
    the result map of [fuseResults] that stand for the same chunk with
    the same score. *)
Definition sameEntry (a : EnsembleEngine.Ranked) (b : Fusion.FusedEntry) : Prop :=
  EnsembleEngine.ranked_doc a = Fusion.spread b
  /\ EnsembleEngine.ranked_score a = Fusion.fusedScore b.

Definition sameBinding (p : jsstring * EnsembleEngine.Ranked)
  (q : jsstring * Fusion.FusedEntry) : Prop :=
  fst p = fst q /\ sameEntry (snd p) (snd q).

(** Options of the LangChain revision that weigh the keyword list only. *)
Definition keywordOnly : EnsembleEngine.HybridOptions :=
  {| EnsembleEngine.maxResults := 2;
     EnsembleEngine.keywordWeight := 1;
     EnsembleEngine.semanticWeight := 0 |}.

Definition defaultsOf (n : nat) : EnsembleEngine.HybridOptions :=
  {| EnsembleEngine.maxResults := n;
     EnsembleEngine.keywordWeight := 3 # 10;
     EnsembleEngine.semanticWeight := 7 # 10 |}.

(** ** More of the TF-IDF revision: [rebuildIndex] *)

Module TfIdfLifecycle.

(** [if (this.documents.length > 0) { await this.buildIndex(this.documents) }];
    the value is the engine after the call. *)
Definition rebuildIndex `{Case : CaseMapping} (this : TfIdfEngine.HybridSearchEngine)
  : Result TfIdfEngine.HybridSearchEngine :=
  if (0 <? length (TfIdfEngine.documents this))%nat
  then TfIdfEngine.buildIndex this (TfIdfEngine.documents this)
  else Ok this.

End TfIdfLifecycle.

(** ** Vocabulary of the text preprocessing *)

(** [array.join(separator)] *)
Fixpoint Array_join (separator : jsstring) (array : list jsstring) : jsstring :=
  match array with
  | [] => []
  | [x] => x
  | x :: rest => x ++ separator ++ Array_join separator rest
  end.

(** A code unit of a term: a word character or a CJK ideograph. *)
Definition termUnit (c : N) : bool := isWordChar c || isCJK c.

(** Terms separated by single spaces, with no space at either end. *)
Inductive SpacedTerms : jsstring -> Prop :=
| spaced_last (c : N) : termUnit c = true -> SpacedTerms [c]
| spaced_unit (c : N) (s : jsstring) :
    termUnit c = true -> SpacedTerms s -> SpacedTerms (c :: s)
| spaced_space (c : N) (s : jsstring) :
    termUnit c = true -> SpacedTerms s -> SpacedTerms (c :: space :: s).

(** The same with a space allowed at the end, and the empty string. *)
Inductive SpacedRun : jsstring -> Prop :=
| run_end : SpacedRun []
| run_unit (c : N) (s : jsstring) :
    termUnit c = true -> SpacedRun s -> SpacedRun (c :: s)
| run_space (c : N) (s : jsstring) :
    termUnit c = true -> SpacedRun s -> SpacedRun (c :: space :: s).

(** ** [QuestionClassifier.classifyQuestions] *)

Module QuestionBatch.
Import QuestionClassifier.

(** [classifyQuestion] on an element of the array, which can be any
    value.  [isLikelyGreeting] calls [question.trim()], which only a
    string has: for another value the call throws in the [try] block
    and again in the [catch] block, whose exception nothing catches. *)
Definition classifyValue `{Case : CaseMapping}
  (classificationChain : jsstring -> Result jsstring) (question : JsValue)
  : Result Classification :=
  text <- as_string question ;;
  classifyQuestion classificationChain text.

(** [Promise.all(questions.map(question => this.classifyQuestion(question)))]
    in a [try] whose [catch] answers SEARCH for every question. *)
Definition classifyQuestions `{Case : CaseMapping}
  (classificationChain : jsstring -> Result jsstring) (questions : list JsValue)
  : Result (list Classification) :=
  try_catch
    (Promise_all (classifyValue classificationChain) questions)
    (fun error => Ok (map (fun _ => SEARCH) questions)).

End QuestionBatch.

(** ** Vocabulary of the classifier's patterns *)

(** A text made of the word [first] and then, for each pair of [rest],
    a gap and a word. *)
Definition wordsApart (first : jsstring) (rest : list (jsstring * jsstring)) : jsstring :=
  first ++ flat_map (fun gapWord => fst gapWord ++ snd gapWord) rest.

(** No line terminator in [s]: what [.*] can run over. *)
Definition sameLine (s : jsstring) : bool :=
  forallb (fun c => negb (isLineTerminator c)) s.

(** A matcher that cannot tell [s] from [map f s]. *)
Definition blindTo (f : N -> N) (pattern : Matcher) : Prop :=
  forall s, pattern (map f s) = pattern s.

(** ** [QueryEngine]: the formatting helpers and [hybridQuery] *)

(** The line feed of the templates. *)
Definition newline : N := 10%N.

(** [array.slice(-n)] for a count [n] *)
Definition sliceLast {A : Type} (n : nat) (array : list A) : list A :=
  skipn (length array - n) array.

(** [array.map((item, index) => ...)] with a callback that may throw. *)
Fixpoint mapiM {A B : Type} (callback : A -> nat -> Result B) (array : list A)
  (index : nat) : Result (list B) :=
  match array with
  | [] => Ok []
  | item :: rest =>
      value <- callback item index ;;
      values <- mapiM callback rest (S index) ;;
      Ok (value :: values)
  end.

Module QueryPipeline.

(** A message of the conversation; [content] is taken to be a string. *)
Record Message : Type := { role : jsstring; messageContent : jsstring }.

Definition formatMessage (msg : Message) : jsstring :=
  let role := if jsstring_eqb (role msg) (str "user") then str "User"
              else str "Assistant" in
  role ++ str ": " ++ messageContent msg.

Definition formatConversationHistory (conversationHistory : list Message) : jsstring :=
  if (length conversationHistory =? 0)%nat then str "No previous conversation."
  else
    let recentHistory := sliceLast 10 conversationHistory in
    Array_join [newline] (map formatMessage recentHistory).

Definition searchTypeName (tag : SearchType) : jsstring :=
  match tag with
  | keyword => str "keyword"
  | semantic => str "semantic"
  | hybrid => str "hybrid"
  end.

(** [if (result.keywordRank) info.push(...)]: rank 0 is falsy as an
    absent rank is. *)
Definition pushRank (label : jsstring) (rank : option nat) (info : list jsstring)
  : list jsstring :=
  match rank with
  | Some (S n) => info ++ [label ++ Number_toString (N.of_nat (S n))]
  | Some O | None => info
  end.

Definition getSearchInfo (result : SearchResult) : jsstring :=
  let info := [] in
  let info := match searchType result with
              | Some tag => info ++ [str "Type: " ++ searchTypeName tag]
              | None => info
              end in
  let info := pushRank (str "Keyword Rank: ") (keywordRank result) info in
  let info := pushRank (str "Semantic Rank: ") (semanticRank result) info in
  if (0 <? length info)%nat then str ", " ++ Array_join (str ", ") info else [].

(** The callback of [formatHybridContext]: reading a field of
    [result.metadata] throws when there is no metadata. *)
Definition formatHybridEntry `{Host : Runtime} (result : SearchResult) (index : nat)
  : Result jsstring :=
  match metadata result with
  | None => Throw TypeError
  | Some metadata =>
      let source := string_or (source metadata) (str "Unknown") in
      let chunkIndex := number_or_zero (chunkIndex metadata) in
      let searchInfo := getSearchInfo result in
      Ok (str "Document " ++ Number_toString (N.of_nat (index + 1))
          ++ str " (Source: " ++ source
          ++ str ", Chunk: " ++ Number_toString (chunkIndex + 1) ++ searchInfo
          ++ str "):" ++ [newline]
          ++ String_of (content result) ++ [newline])
  end.

Definition formatHybridContext `{Host : Runtime} (searchResults : list SearchResult)
  : Result jsstring :=
  entries <- mapiM formatHybridEntry searchResults 0 ;;
  Ok (Array_join ([newline] ++ str "---" ++ [newline; newline]) entries).

(** [options] of [hybridQuery]; [optionSearchType] is [searchType]. *)
Record QueryOptions : Type := {
  maxResults : nat;
  includeScores : bool;
  minScore : Q;
  keywordWeight : Q;
  semanticWeight : Q;
  optionSearchType : jsstring;
  conversationHistory : list Message
}.

(** [options = {}] *)
Definition defaultOptions : QueryOptions :=
  {| maxResults := 4;
     includeScores := false;
     minScore := 1 # 100;
     keywordWeight := 3 # 10;
     semanticWeight := 7 # 10;
     optionSearchType := str "hybrid";
     conversationHistory := [] |}.

(** The object passed to [generalChain.invoke]; [None] for a key that
    the object does not have. *)
Record ChainInput : Type := {
  inputContext : option jsstring;
  inputQuestion : jsstring;
  inputHistory : jsstring
}.

Record SearchStats : Type := {
  totalResults : nat;
  filteredResults : nat;
  finalResults : nat
}.

(** What [hybridQuery] returns; [answerSearchType] is [searchType],
    and [searchStats] is [None] where the object has no such key. *)
Record Answer : Type := {
  text : jsstring;
  sources : list QueryEngine.SourceGroup;
  searchResults : list SearchResult;
  answerSearchType : jsstring;
  searchStats : option SearchStats
}.

(** [this.hybridSearchEngine] as [hybridQuery] uses it: the three
    search methods of the class, of either revision, on the engine as
    it is when the query is made.  [engineHybridSearch query maxResults
    keywordWeight semanticWeight] is [hybridSearch(query, { maxResults,
    keywordWeight, semanticWeight })]. *)
Record SearchMethods : Type := {
  engineKeywordSearch : jsstring -> nat -> Result (list SearchResult);
  engineSemanticSearch : jsstring -> nat -> Result (list SearchResult);
  engineHybridSearch : jsstring -> nat -> Q -> Q -> Result (list SearchResult)
}.

(** The methods of an engine of the TF-IDF revision. *)
Definition tfidfMethods `{Case : CaseMapping} `{Measure : NaturalTfIdf}
  (engine : TfIdfEngine.HybridSearchEngine) : SearchMethods :=
  {| engineKeywordSearch := TfIdfEngine.keywordSearch engine;
     engineSemanticSearch := TfIdfEngine.semanticSearch engine;
     engineHybridSearch := fun query maxResults keywordWeight semanticWeight =>
       TfIdfEngine.hybridSearch engine query
         {| TfIdfEngine.maxResults := maxResults;
            TfIdfEngine.keywordWeight := keywordWeight;
            TfIdfEngine.semanticWeight := semanticWeight;
            TfIdfEngine.keywordResults := 10;
            TfIdfEngine.semanticResults := 10 |} |}.

(** The methods of an engine of the LangChain revision; what a search
    assigns to the fields of the engine is no part of its result. *)
Definition ensembleMethods `{Case : CaseMapping} `{Measure : NaturalTfIdf}
  (engine : EnsembleEngine.HybridSearchEngine) : SearchMethods :=
  {| engineKeywordSearch := fun query k =>
       snd (EnsembleEngine.keywordSearch engine query k);
     engineSemanticSearch := EnsembleEngine.semanticSearch engine;
     engineHybridSearch := fun query maxResults keywordWeight semanticWeight =>
       snd (EnsembleEngine.hybridSearch engine query
              {| EnsembleEngine.maxResults := maxResults;
                 EnsembleEngine.keywordWeight := keywordWeight;
                 EnsembleEngine.semanticWeight := semanticWeight |}) |}.

(** The fields of the query engine that [hybridQuery] reads;
    [generalChain] is the call of the language model, which answers or
    throws. *)
Record QueryEngine : Type := {
  hybridSearchEngine : SearchMethods;
  generalChain : ChainInput -> Result jsstring
}.

Definition noInformation : jsstring :=
  str "I don't have any relevant information in my knowledge base to answer your question. Please upload some documents first.".

(** [switch (searchType)] *)
Definition search (this : QueryEngine) (question : jsstring) (options : QueryOptions)
  : Result (list SearchResult) :=
  if jsstring_eqb (optionSearchType options) (str "keyword") then
    engineKeywordSearch (hybridSearchEngine this) question (maxResults options * 2)
  else if jsstring_eqb (optionSearchType options) (str "semantic") then
    engineSemanticSearch (hybridSearchEngine this) question (maxResults options * 2)
  else
    engineHybridSearch (hybridSearchEngine this) question (maxResults options * 2)
      (keywordWeight options) (semanticWeight options).

(** [searchResults.filter(result => result.score >= minScore)] *)
Definition filterByScore (minScore : Q) (searchResults : list SearchResult)
  : list SearchResult :=
  filter (fun result => Qle_bool minScore (score result)) searchResults.

Definition hybridQuery `{Host : Runtime}
  (this : QueryEngine) (question : jsstring) (options : QueryOptions)
  : Result Answer :=
  try_catch
    (searchResults <- search this question options ;;
     if (length searchResults =? 0)%nat then
       Ok {| text := noInformation;
             sources := [];
             searchResults := [];
             answerSearchType := optionSearchType options;
             searchStats := None |}
     else
       let filteredResults := filterByScore (minScore options) searchResults in
       if (length searchResults =? 0)%nat || (length filteredResults =? 0)%nat then
         let formattedHistory :=
           formatConversationHistory (conversationHistory options) in
         answer <- generalChain this
                     {| inputContext := None;
                        inputQuestion := question;
                        inputHistory := formattedHistory |} ;;
         Ok {| text := answer;
               sources := [];
               searchResults := if includeScores options then searchResults else [];
               answerSearchType := optionSearchType options;
               searchStats := Some {| totalResults := length searchResults;
                                      filteredResults := 0;
                                      finalResults := 0 |} |}
       else
         let finalResults := slice0 (maxResults options) filteredResults in
         context <- formatHybridContext finalResults ;;
         let formattedHistory :=
           formatConversationHistory (conversationHistory options) in
         answer <- generalChain this
                     {| inputContext := Some context;
                        inputQuestion := question;
                        inputHistory := formattedHistory |} ;;
         sources <- QueryEngine.extractSources finalResults ;;
         Ok {| text := answer;
               sources := sources;
               searchResults := if includeScores options then finalResults else [];
               answerSearchType := optionSearchType options;
               searchStats := Some {| totalResults := length searchResults;
                                      filteredResults := length filteredResults;
                                      finalResults := length finalResults |} |})
    (fun error => Throw (Error (str "Hybrid query failed: " ++ message_of error))).

End QueryPipeline.

(** *** Running examples of the query engine *)

(** A chain that answers with the history it was given. *)
Definition echoChain (input : QueryPipeline.ChainInput) : Result jsstring :=
  Ok (QueryPipeline.inputHistory input).

(** The query engine over the two chunks of the scenarios, indexed by
    an engine of the TF-IDF revision, and a vector store that finds
    [docB] for every query. *)
Definition exampleQueryEngine : QueryPipeline.QueryEngine :=
  {| QueryPipeline.hybridSearchEngine :=
       QueryPipeline.tfidfMethods (Case := AsciiCase) (Measure := TermCount)
         (exampleEngine (constantStore [docB]));
     QueryPipeline.generalChain := echoChain |}.

(** What it answers to the question [apples] under the default options. *)
Definition applesAnswer : Result QueryPipeline.Answer :=
  QueryPipeline.hybridQuery (Host := PlainRuntime) exampleQueryEngine (str "apples")
    QueryPipeline.defaultOptions.

(** The same over an engine of the LangChain revision and a vector
    store that finds nothing. *)
Definition ensembleQueryEngine : QueryPipeline.QueryEngine :=
  {| QueryPipeline.hybridSearchEngine :=
       QueryPipeline.ensembleMethods (Case := AsciiCase) (Measure := TermCount)
         (exampleEnsembleEngine (constantStore []));
     QueryPipeline.generalChain := echoChain |}.

(** The query engine over the two chunks of the scenarios and a vector
    store that finds a chunk without metadata for every query. *)
Definition looseQueryEngine : QueryPipeline.QueryEngine :=
  {| QueryPipeline.hybridSearchEngine :=
       QueryPipeline.tfidfMethods (Case := AsciiCase) (Measure := TermCount)
         (exampleEngine (constantStore [bare (JsString (str "loose text"))]));
     QueryPipeline.generalChain := echoChain |}.

(** A conversation of [n] messages of the user, numbered from [n] down. *)
Fixpoint countdown (n : nat) : list QueryPipeline.Message :=
  match n with
  | O => []
  | S m => {| QueryPipeline.role := str "user";
              QueryPipeline.messageContent := Number_toString (N.of_nat n) |}
           :: countdown m
  end.

(** ** Vocabulary for the two revisions of the keyword search *)

(** The element of [scores] that [BM25Retriever] makes for a hit. *)
Definition hitScored `{Measure : NaturalTfIdf} (index : TfIdf) (queryTerms : list jsstring)
  (hit : nat * SearchResult) : EnsembleEngine.Scored :=
  {| EnsembleEngine.scored_index := fst hit;
     EnsembleEngine.scored_score := sumTfidf index queryTerms (fst hit) |}.

(** Two results of the same chunk: the same content, the same
    metadata up to [metadata || {}], the same tag. *)
Definition sameChunk (a b : SearchResult) : Prop :=
  content a = content b
  /\ metadata_or_empty (metadata a) = metadata_or_empty (metadata b)
  /\ searchType a = searchType b.

(** ** The states of the engine of the TF-IDF revision *)

(** The engines that the constructor, [buildIndex] and [rebuildIndex]
    make over a vector store. *)
Inductive Reachable `{Case : CaseMapping} (store : VectorStore)
  : TfIdfEngine.HybridSearchEngine -> Prop :=
| reach_new : Reachable store (TfIdfEngine.new_HybridSearchEngine store)
| reach_buildIndex (this this' : TfIdfEngine.HybridSearchEngine)
    (documents : list SearchResult) :
    Reachable store this ->
    TfIdfEngine.buildIndex this documents = Ok this' ->
    Reachable store this'
| reach_rebuildIndex (this this' : TfIdfEngine.HybridSearchEngine) :
    Reachable store this ->
    TfIdfLifecycle.rebuildIndex this = Ok this' ->
    Reachable store this'.

(** ** [QueryEngine.query] and [directQuery] *)

Module QueryRouting.
Import QueryPipeline.

(** The fields of the query engine that [query] and [directQuery]
    read.  [questionClassifier] is the classification chain of the
    classifier, [None] for [null]; [generalChain] is [directChain], as
    the constructor sets it; [documentsCount] is a property that no
    method of the class assigns, [None] while nothing outside does. *)
Record Engine : Type := {
  vectorStore : VectorStore;
  questionClassifier : option (jsstring -> Result jsstring);
  directChain : ChainInput -> Result jsstring;
  searchChain : ChainInput -> Result jsstring;
  documentsCount : option nat
}.

Definition generalChain (this : Engine) : ChainInput -> Result jsstring :=
  directChain this.

(** What [query] and [directQuery] return; [queryType] is [None] where
    the object has no such key. *)
Record QueryAnswer : Type := {
  answerText : jsstring;
  answerSources : list QueryEngine.SourceGroup;
  answerResults : list SearchResult;
  queryType : option jsstring
}.

(** The callback of [formatContext]. *)
Definition formatEntry `{Host : Runtime} (result : SearchResult) (index : nat)
  : Result jsstring :=
  match metadata result with
  | None => Throw TypeError
  | Some metadata =>
      let source := string_or (source metadata) (str "Unknown") in
      let chunkIndex := number_or_zero (chunkIndex metadata) in
      Ok (str "Document " ++ Number_toString (N.of_nat (index + 1))
          ++ str " (Source: " ++ source
          ++ str ", Chunk: " ++ Number_toString (chunkIndex + 1)
          ++ str "):" ++ [newline]
          ++ String_of (content result) ++ [newline])
  end.

Definition formatContext `{Host : Runtime} (searchResults : list SearchResult)
  : Result jsstring :=
  entries <- mapiM formatEntry searchResults 0 ;;
  Ok (Array_join ([newline] ++ str "---" ++ [newline; newline]) entries).

(** The inner [try] of [directQuery]: the values of [sources] and
    [searchResults] when it ends without exception. *)
Definition referenceSources (this : Engine) (question : jsstring) (maxResults : nat)
  : Result (list QueryEngine.SourceGroup * list SearchResult) :=
  match documentsCount this with
  | Some (S _) =>
      relevantDocs <- similaritySearch (vectorStore this) question maxResults ;;
      if (0 <? length relevantDocs)%nat then
        let filteredDocs :=
          filter (fun result => Qlt_bool (3 # 10) (score result)) relevantDocs in
        if (0 <? length filteredDocs)%nat then
          sources <- QueryEngine.extractSources filteredDocs ;;
          Ok (sources, filteredDocs)
        else Ok ([], [])
      else Ok ([], [])
  | Some O | None => Ok ([], [])
  end.

(** [directQuery(question, { conversationHistory, maxResults = 3 })] *)
Definition directQuery `{Host : Runtime} (this : Engine) (question : jsstring)
  (conversationHistory : list Message) (maxResults : nat) : Result QueryAnswer :=
  try_catch
    (let formattedHistory := formatConversationHistory conversationHistory in
     answer <- directChain this
                 {| inputContext := None;
                    inputQuestion := question;
                    inputHistory := formattedHistory |} ;;
     references <- try_catch (referenceSources this question maxResults)
                     (fun sourceError => Ok ([], [])) ;;
     Ok {| answerText := answer;
           answerSources := fst references;
           answerResults := snd references;
           queryType := Some (str "direct") |})
    (fun error => Throw (Error (str "Direct query failed: " ++ message_of error))).

Record RoutingOptions : Type := {
  maxResults : nat;
  includeScores : bool;
  minScore : Q;
  conversationHistory : list Message;
  forceSearchMode : bool
}.

(** [options = {}] *)
Definition defaultOptions : RoutingOptions :=
  {| maxResults := 4;
     includeScores := false;
     minScore := 1 # 10;
     conversationHistory := [];
     forceSearchMode := false |}.

(** The first block of [query]: [Some answer] when it returns the
    answer of [directQuery], [None] when control goes on to the search. *)
Definition classifyAndAnswer `{Case : CaseMapping} `{Host : Runtime}
  (this : Engine) (question : jsstring) (options : RoutingOptions)
  : Result (option QueryAnswer) :=
  match questionClassifier this with
  | Some classificationChain =>
      if negb (forceSearchMode options) then
        try_catch
          (classification <-
             QuestionClassifier.classifyQuestion classificationChain question ;;
           match classification with
           | QuestionClassifier.DIRECT =>
               answer <- directQuery this question (conversationHistory options) 3 ;;
               Ok (Some answer)
           | QuestionClassifier.SEARCH => Ok None
           end)
          (fun error => Ok None)
      else Ok None
  | None => Ok None
  end.

(** The rest of [query], from the search of the vector store on.  The
    debug line calls [r.content.substring], which only a string has. *)
Definition searchAndAnswer `{Host : Runtime}
  (this : Engine) (question : jsstring) (options : RoutingOptions)
  : Result QueryAnswer :=
  searchResults <- similaritySearch (vectorStore this) question (maxResults options) ;;
  _ <- mapiM (fun result (_ : nat) => as_string (content result)) searchResults 0 ;;
  let filteredResults := filterByScore (minScore options) searchResults in
  if (length searchResults =? 0)%nat || (length filteredResults =? 0)%nat then
    let formattedHistory := formatConversationHistory (conversationHistory options) in
    answer <- generalChain this
                {| inputContext := None;
                   inputQuestion := question;
                   inputHistory := formattedHistory |} ;;
    Ok {| answerText := answer;
          answerSources := [];
          answerResults := if includeScores options then searchResults else [];
          queryType := None |}
  else
    context <- formatContext filteredResults ;;
    let formattedHistory := formatConversationHistory (conversationHistory options) in
    answer <- searchChain this
                {| inputContext := Some context;
                   inputQuestion := question;
                   inputHistory := formattedHistory |} ;;
    sources <- QueryEngine.extractSources filteredResults ;;
    Ok {| answerText := answer;
          answerSources := sources;
          answerResults := if includeScores options then filteredResults else [];
          queryType := None |}.

Definition query `{Case : CaseMapping} `{Host : Runtime}
  (this : Engine) (question : jsstring) (options : RoutingOptions)
  : Result QueryAnswer :=
  try_catch
    (returned <- classifyAndAnswer this question options ;;
     match returned with
     | Some answer => Ok answer
     | None => searchAndAnswer this question options
     end)
    (fun error => Throw (Error (str "Query failed: " ++ message_of error))).

(** [options] with [forceSearchMode: true] *)
Definition forced (options : RoutingOptions) : RoutingOptions :=
  {| maxResults := maxResults options;
     includeScores := includeScores options;
     minScore := minScore options;
     conversationHistory := conversationHistory options;
     forceSearchMode := true |}.

End QueryRouting.

(** A query engine for running examples: a vector store whose every
    call throws, a classifier whose chain throws, and chains that
    answer with the history they were given. *)
Definition offlineEngine : QueryRouting.Engine :=
  {| QueryRouting.vectorStore := failingStore;
     QueryRouting.questionClassifier :=
       Some (fun _ => Throw (Error (str "timeout")));
     QueryRouting.directChain := echoChain;
     QueryRouting.searchChain := echoChain;
     QueryRouting.documentsCount := None |}.

(** ** [DocumentProcessor.processDocument]

    The file system, the parsers, the text splitter and the clock are
    external: fields of [Environment]. *)

Module DocumentProcessor.

Record Environment : Type := {
  (** [path.extname(name)] *)
  extname : jsstring -> jsstring;
  (** [pdfParse(fs.readFileSync(filePath))], then [.text] *)
  parsePDF : jsstring -> Result jsstring;
  (** [fs.readFileSync(filePath, 'utf8')] *)
  readFile : jsstring -> Result jsstring;
  (** [mammoth.extractRawText({ path: filePath })], then [.value] *)
  extractRawText : jsstring -> Result jsstring;
  (** [this.textSplitter.splitText(text)] *)
  splitText : jsstring -> Result (list jsstring);
  (** [new Date().toISOString()] in the callback for the chunk at an
      index *)
  toISOString : nat -> jsstring
}.

Definition processPDF `{Host : Runtime} (env : Environment) (filePath : jsstring)
  : Result jsstring :=
  try_catch (parsePDF env filePath)
    (fun error => Throw (Error (str "PDF processing failed: " ++ message_of error))).

Definition processTXT `{Host : Runtime} (env : Environment) (filePath : jsstring)
  : Result jsstring :=
  try_catch (readFile env filePath)
    (fun error => Throw (Error (str "TXT processing failed: " ++ message_of error))).

Definition processDOCX `{Host : Runtime} (env : Environment) (filePath : jsstring)
  : Result jsstring :=
  try_catch (extractRawText env filePath)
    (fun error => Throw (Error (str "DOCX processing failed: " ++ message_of error))).

(** [new Document({ pageContent: chunk, metadata: { source, chunkIndex,
    totalChunks, fileType, processedAt } })]; [totalChunks] is no field
    of [Metadata]. *)
Definition chunkDocument (env : Environment) (originalName fileExtension : jsstring)
  (chunk : jsstring) (index : nat) : SearchResult :=
  {| content := JsUndefined;
     pageContent := JsString chunk;
     metadata := Some {| source := Some originalName;
                         chunkIndex := Some (N.of_nat index);
                         fileType := Some fileExtension;
                         processedAt := Some (toISOString env index) |};
     score := 0;
     searchType := None;
     keywordRank := None; keywordScore := None;
     semanticRank := None; semanticScore := None |}.

Definition processDocument `{Case : CaseMapping} `{Host : Runtime}
  (env : Environment) (filePath originalName : jsstring)
  : Result (list SearchResult) :=
  let fileExtension := toLowerCase (extname env originalName) in
  try_catch
    (text <-
       (if jsstring_eqb fileExtension (str ".pdf") then processPDF env filePath
        else if jsstring_eqb fileExtension (str ".txt") then processTXT env filePath
        else if jsstring_eqb fileExtension (str ".docx") then processDOCX env filePath
        else Throw (Error (str "Unsupported file type: " ++ fileExtension))) ;;
     if (length text =? 0)%nat || (length (String_trim text) =? 0)%nat then
       Throw (Error (str "No readable text found in " ++ originalName
                     ++ str ". The file might be empty, corrupted, or contain only images."))
     else if (length (String_trim text) <? 10)%nat then
       Throw (Error (str "Very little text extracted from " ++ originalName
                     ++ str " ("
                     ++ Number_toString (N.of_nat (length (String_trim text)))
                     ++ str " characters). The file might contain mostly images or be corrupted."))
     else
       chunks <- splitText env text ;;
       Ok (EnsembleEngine.mapi (chunkDocument env originalName fileExtension) chunks 0))
    (fun error =>
       Throw (Error (str "Failed to process document: " ++ message_of error))).

End DocumentProcessor.

(** An environment for running examples: every file is a text file of
    one sentence, split into its two halves. *)
Definition exampleEnvironment : DocumentProcessor.Environment :=
  {| DocumentProcessor.extname := fun _ => str ".TXT";
     DocumentProcessor.parsePDF := fun _ => Throw (Error (str "not a PDF"));
     DocumentProcessor.readFile := fun _ => Ok (str "apples are red, bananas are yellow");
     DocumentProcessor.extractRawText := fun _ => Throw (Error (str "not a DOCX"));
     DocumentProcessor.splitText :=
       fun text => Ok [firstn 15 text; skipn 15 text];
     DocumentProcessor.toISOString := fun _ => str "2024-01-01T00:00:00.000Z" |}.

(** * Part II: properties *)

(** ** Strings, numbers, lists *)

Lemma jsstring_eqb_eq (a b : jsstring) : jsstring_eqb a b = true <-> a = b.
Proof.
  unfold jsstring_eqb. destruct (list_eq_dec N.eq_dec a b); split; congruence.
Qed.

Lemma jsstring_eqb_refl (a : jsstring) : jsstring_eqb a a = true.
Proof. now apply jsstring_eqb_eq. Qed.

Lemma jsstring_eqb_neq (a b : jsstring) : jsstring_eqb a b = false <-> a <> b.
Proof.
  unfold jsstring_eqb. destruct (list_eq_dec N.eq_dec a b); split; congruence.
Qed.

Lemma Qlt_bool_iff (x y : Q) : Qlt_bool x y = true <-> x < y.
Proof.
  unfold Qlt_bool. rewrite negb_true_iff. split; intro H.
  - apply Qnot_le_lt. intro L. apply Qle_bool_iff in L. congruence.
  - destruct (Qle_bool y x) eqn:E; [|reflexivity].
    apply Qle_bool_iff in E. exfalso. apply (Qlt_not_le _ _ H E).
Qed.

Lemma Qlt_bool_false (x y : Q) : Qlt_bool x y = false <-> y <= x.
Proof.
  unfold Qlt_bool. rewrite negb_false_iff. apply Qle_bool_iff.
Qed.

Lemma Qnat_pos (n : nat) : 0 < Qnat (S n).
Proof. unfold Qnat, Qlt. simpl. lia. Qed.

Lemma Qnat_lt (n m : nat) : (n < m)%nat -> Qnat n < Qnat m.
Proof. intro H. unfold Qnat, Qlt. simpl. lia. Qed.

(** The reciprocal-rank term falls as the index grows. *)
Lemma reciprocal_antitone (K i j : nat) :
  (i < j)%nat -> 1 / Qnat (K + j + 1) < 1 / Qnat (K + i + 1).
Proof.
  intro H. unfold Qdiv. rewrite !Qmult_1_l.
  replace (K + j + 1)%nat with (S (K + j)) by lia.
  replace (K + i + 1)%nat with (S (K + i)) by lia.
  apply -> Qinv_lt_contravar; try apply Qnat_pos.
  apply Qnat_lt. lia.
Qed.

Lemma firstn_In {A : Type} (n : nat) (l : list A) (x : A) :
  In x (firstn n l) -> In x l.
Proof.
  intro H. rewrite <- (firstn_skipn n l). apply in_or_app. now left.
Qed.


Lemma StronglySorted_map {A B : Type} (R : B -> B -> Prop) (f : A -> B) (l : list A) :
  StronglySorted (fun a b => R (f a) (f b)) l -> StronglySorted R (map f l).
Proof.
  induction 1 as [|x l Hl IH Hx]; simpl; constructor; [exact IH|].
  apply Forall_forall. intros y Hy. apply in_map_iff in Hy.
  destruct Hy as [a [<- Ha]]. rewrite Forall_forall in Hx. now apply Hx.
Qed.


Lemma StronglySorted_weaken {A : Type} (R R' : A -> A -> Prop) (l : list A) :
  (forall a b, In a l -> In b l -> R a b -> R' a b) ->
  StronglySorted R l -> StronglySorted R' l.
Proof.
  intros Himp H. induction H as [|x l Hl IH Hx]; constructor.
  - apply IH. intros a b Ha Hb. apply Himp; now right.
  - rewrite Forall_forall in *. intros y Hy.
    apply Himp; [now left | now right | now apply Hx].
Qed.

(** ** [Array.prototype.sort] *)

Section ArraySortFacts.
Variable A : Type.
Variable comparefn : A -> A -> Q.

Lemma sort_insert_perm (x : A) (l : list A) :
  Permutation (sort_insert comparefn x l) (x :: l).
Proof.
  induction l as [|y l IH]; simpl.
  - apply Permutation_refl.
  - destruct (Qlt_bool (comparefn y x) 0).
    + eapply perm_trans; [apply perm_skip, IH | apply perm_swap].
    + apply Permutation_refl.
Qed.

Lemma Array_sort_perm (l : list A) : Permutation (Array_sort comparefn l) l.
Proof.
  induction l as [|x l IH]; simpl.
  - constructor.
  - eapply perm_trans; [apply sort_insert_perm | now apply perm_skip].
Qed.

Lemma Array_sort_length (l : list A) : length (Array_sort comparefn l) = length l.
Proof. apply Permutation_length, Array_sort_perm. Qed.

Lemma Array_sort_In (l : list A) (x : A) : In x (Array_sort comparefn l) <-> In x l.
Proof.
  split; apply Permutation_in;
    [apply Array_sort_perm | apply Permutation_sym, Array_sort_perm].
Qed.

(** The comparators of this program are differences of a numeric key. *)
Variable key : A -> Q.
Hypothesis comparefn_key : forall a b, comparefn a b == key a - key b.

Lemma comparefn_lt (a b : A) :
  Qlt_bool (comparefn a b) 0 = true <-> key a < key b.
Proof.
  rewrite Qlt_bool_iff, comparefn_key. split; intro H.
  - apply Qlt_minus_iff in H.
    apply Qlt_minus_iff.
    setoid_replace (key b + - key a) with (0 + - (key a - key b)) by ring.
    exact H.
  - apply Qlt_minus_iff.
    setoid_replace (0 + - (key a - key b)) with (key b + - key a) by ring.
    now apply Qlt_minus_iff in H.
Qed.

Lemma comparefn_ge (a b : A) :
  Qlt_bool (comparefn a b) 0 = false <-> key b <= key a.
Proof.
  split; intro H.
  - apply Qnot_lt_le. intro L. apply comparefn_lt in L. congruence.
  - destruct (Qlt_bool (comparefn a b) 0) eqn:E; [|reflexivity].
    apply comparefn_lt in E. exfalso. apply (Qlt_not_le _ _ E H).
Qed.

Variable pos : A -> nat.

Lemma ranked_before_key_le (a b : A) : ranked_before key pos a b -> key a <= key b.
Proof.
  intros [H | [H _]]; [now apply Qlt_le_weak | rewrite H; apply Qle_refl].
Qed.

Lemma sort_insert_ranked (x : A) (l : list A) :
  StronglySorted (ranked_before key pos) l ->
  Forall (fun y => (pos x < pos y)%nat) l ->
  StronglySorted (ranked_before key pos) (sort_insert comparefn x l).
Proof.
  induction 1 as [|y l Hsorted IH Hy]; intro Hpos; simpl.
  - repeat constructor.
  - inversion Hpos as [|? ? Hxy Hxl]; subst.
    destruct (Qlt_bool (comparefn y x) 0) eqn:E.
    + apply comparefn_lt in E.
      constructor; [now apply IH|].
      apply Forall_forall. intros z Hz.
      apply (Permutation_in _ (sort_insert_perm x l)) in Hz.
      destruct Hz as [<- | Hz]; [now left|].
      rewrite Forall_forall in Hy. now apply Hy.
    + apply comparefn_ge in E.
      constructor; [now constructor|].
      constructor.
      * destruct (Qle_lt_or_eq _ _ E) as [L | L]; [now left | right; now split].
      * apply Forall_forall. intros z Hz.
        rewrite Forall_forall in Hy, Hxl.
        specialize (Hy z Hz). specialize (Hxl z Hz).
        apply ranked_before_key_le in Hy.
        destruct (Qle_lt_or_eq _ _ (Qle_trans _ _ _ E Hy)) as [L | L];
          [now left | right; now split].
Qed.

Lemma Array_sort_ranked (l : list A) :
  StronglySorted (fun a b => (pos a < pos b)%nat) l ->
  StronglySorted (ranked_before key pos) (Array_sort comparefn l).
Proof.
  induction 1 as [|x l Hsorted IH Hx]; simpl.
  - constructor.
  - apply sort_insert_ranked; [exact IH|].
    apply Forall_forall. intros y Hy.
    apply (proj1 (Array_sort_In _ _)) in Hy.
    rewrite Forall_forall in Hx. now apply Hx.
Qed.

Lemma sort_insert_sorted (x : A) (l : list A) :
  StronglySorted (key_le key) l -> StronglySorted (key_le key) (sort_insert comparefn x l).
Proof.
  induction 1 as [|y l Hsorted IH Hy]; simpl.
  - repeat constructor.
  - destruct (Qlt_bool (comparefn y x) 0) eqn:E.
    + apply comparefn_lt in E.
      constructor; [exact IH|].
      apply Forall_forall. intros z Hz.
      apply (Permutation_in _ (sort_insert_perm x l)) in Hz.
      destruct Hz as [<- | Hz]; [now apply Qlt_le_weak|].
      rewrite Forall_forall in Hy. now apply Hy.
    + apply comparefn_ge in E.
      constructor; [now constructor|].
      constructor; [exact E|].
      apply Forall_forall. intros z Hz.
      rewrite Forall_forall in Hy.
      exact (Qle_trans _ _ _ E (Hy z Hz)).
Qed.

Lemma Array_sort_sorted (l : list A) : StronglySorted (key_le key) (Array_sort comparefn l).
Proof.
  induction l as [|x l IH]; simpl; [constructor | now apply sort_insert_sorted].
Qed.

(** A list that is in order already is returned as it is. *)
Lemma Array_sort_fixed (l : list A) :
  StronglySorted (key_le key) l -> Array_sort comparefn l = l.
Proof.
  induction 1 as [|x l Hsorted IH Hx]; simpl; [reflexivity|].
  rewrite IH. destruct l as [|y l']; [reflexivity|]. simpl.
  inversion Hx as [|? ? Hxy _]; subst.
  assert (E : Qlt_bool (comparefn y x) 0 = false) by now apply comparefn_ge.
  now rewrite E.
Qed.

End ArraySortFacts.

Arguments Array_sort_fixed {A comparefn key} comparefn_key l _.
Arguments Array_sort_sorted {A comparefn key} comparefn_key l.
Arguments Array_sort_ranked {A comparefn key} comparefn_key pos l _.

(** Sorting the images under [f] is sorting the arguments. *)
Lemma Array_sort_map {A B : Type} (f : A -> B) (cmpA : A -> A -> Q)
  (cmpB : B -> B -> Q) (l : list A) :
  (forall a b, cmpB (f a) (f b) = cmpA a b) ->
  Array_sort cmpB (map f l) = map f (Array_sort cmpA l).
Proof.
  intro Hcmp. induction l as [|x l IH]; simpl; [reflexivity|].
  rewrite IH. generalize (Array_sort cmpA l). intro s.
  induction s as [|y s IHs]; simpl; [reflexivity|].
  rewrite Hcmp. destruct (Qlt_bool (cmpA y x) 0); simpl; [now rewrite IHs | reflexivity].
Qed.

(** ** [Map] *)

Section JsMapFacts.
Variable V : Type.
Implicit Types (m : JsMap V) (key : jsstring) (v : V).

Lemma Map_get_set_same m key v : Map_get (Map_set m key v) key = Some v.
Proof.
  induction m as [|[k x] m IH]; simpl.
  - now rewrite jsstring_eqb_refl.
  - destruct (jsstring_eqb k key) eqn:E; simpl; now rewrite E.
Qed.

Lemma Map_get_set_other m key key' v :
  key <> key' -> Map_get (Map_set m key v) key' = Map_get m key'.
Proof.
  intro Hne. induction m as [|[k x] m IH]; simpl.
  - apply jsstring_eqb_neq in Hne. now rewrite Hne.
  - destruct (jsstring_eqb k key) eqn:E; simpl.
    + apply jsstring_eqb_eq in E. subst k.
      apply jsstring_eqb_neq in Hne. now rewrite Hne.
    + destruct (jsstring_eqb k key'); [reflexivity | exact IH].
Qed.

Lemma Map_get_None m key : Map_get m key = None <-> ~ In key (Map_keys m).
Proof.
  induction m as [|[k x] m IH]; simpl; [tauto|].
  destruct (jsstring_eqb k key) eqn:E.
  - apply jsstring_eqb_eq in E. split; [discriminate | tauto].
  - apply jsstring_eqb_neq in E. tauto.
Qed.

Lemma Map_get_In m key v : Map_get m key = Some v -> In (key, v) m.
Proof.
  induction m as [|[k x] m IH]; simpl; [discriminate|].
  destruct (jsstring_eqb k key) eqn:E.
  - apply jsstring_eqb_eq in E. intros [= ->]. left. now subst.
  - auto.
Qed.

Lemma Map_In_keys m key v : In (key, v) m -> In key (Map_keys m).
Proof. intro H. change key with (fst (key, v)). now apply in_map. Qed.

Lemma Map_In_get m key v :
  NoDup (Map_keys m) -> In (key, v) m -> Map_get m key = Some v.
Proof.
  induction m as [|[k x] m IH]; simpl; [tauto|].
  intros Hnd [H | H].
  - injection H as -> ->. now rewrite jsstring_eqb_refl.
  - inversion Hnd as [|? ? Hk Hm]; subst.
    destruct (jsstring_eqb k key) eqn:E; [|now apply IH].
    apply jsstring_eqb_eq in E. subst k. exfalso. apply Hk.
    eapply Map_In_keys, H.
Qed.

Lemma Map_set_new m key v :
  Map_get m key = None -> Map_set m key v = m ++ [(key, v)].
Proof.
  induction m as [|[k x] m IH]; simpl; [reflexivity|].
  destruct (jsstring_eqb k key); [discriminate|].
  intro H. now rewrite IH.
Qed.

Lemma Map_keys_set_old m key v x :
  Map_get m key = Some x -> Map_keys (Map_set m key v) = Map_keys m.
Proof.
  induction m as [|[k y] m IH]; simpl; [discriminate|].
  destruct (jsstring_eqb k key); [reflexivity|].
  intro H. simpl. now rewrite IH.
Qed.

Lemma Map_keys_set m key v :
  Map_keys (Map_set m key v) =
  if Map_has m key then Map_keys m else Map_keys m ++ [key].
Proof.
  unfold Map_has. destruct (Map_get m key) eqn:E.
  - eapply Map_keys_set_old, E.
  - rewrite Map_set_new by exact E. unfold Map_keys. now rewrite map_app.
Qed.

Lemma Map_set_In m key k v x :
  In (k, x) (Map_set m key v) -> (k = key /\ x = v) \/ In (k, x) m.
Proof.
  induction m as [|[k0 y] m IH]; simpl.
  - intros [[= <- <-] | []]. now left.
  - destruct (jsstring_eqb k0 key) eqn:E; simpl.
    + apply jsstring_eqb_eq in E. subst k0.
      intros [[= <- <-] | H]; [now left | right; now right].
    + intros [H | H]; [right; now left|].
      destruct (IH H) as [? | ?]; [now left | right; now right].
Qed.

Lemma Map_keys_set_NoDup m key v :
  NoDup (Map_keys m) -> NoDup (Map_keys (Map_set m key v)).
Proof.
  intro H. rewrite Map_keys_set. unfold Map_has.
  destruct (Map_get m key) eqn:E; [exact H|].
  apply Map_get_None in E.
  apply NoDup_rev in H. rewrite <- (rev_involutive (Map_keys m ++ [key])).
  apply NoDup_rev. rewrite rev_app_distr. simpl.
  constructor; [|exact H]. now rewrite <- in_rev.
Qed.

End JsMapFacts.

(** ** Reciprocal rank fusion on the result map

    The three callbacks of the source that fill a result map
    ([keywordResults.forEach], [semanticResults.forEach] and the inner
    loop of [EnsembleRetriever]) do the same to the score: the facts
    below hold for every callback of that shape. *)

Lemma existsb_eqb_In (x : jsstring) (l : list jsstring) :
  existsb (jsstring_eqb x) l = true <-> In x l.
Proof.
  rewrite existsb_exists. split.
  - intros [y [Hy E]]. apply jsstring_eqb_eq in E. now subst.
  - intro H. exists x. split; [exact H | apply jsstring_eqb_refl].
Qed.

Lemma firstSeen_ext (seen seen' l : list jsstring) :
  (forall x, In x seen <-> In x seen') -> firstSeen seen l = firstSeen seen' l.
Proof.
  revert seen seen'. induction l as [|x l IH]; intros seen seen' H; simpl.
  - reflexivity.
  - assert (E : existsb (jsstring_eqb x) seen = existsb (jsstring_eqb x) seen').
    { apply eq_true_iff_eq. rewrite !existsb_eqb_In. apply H. }
    rewrite E. destruct (existsb (jsstring_eqb x) seen').
    + now apply IH.
    + f_equal. apply IH. intro y. simpl. rewrite H. tauto.
Qed.

Section Accumulate.
Variable V : Type.
Variable entryDoc : V -> SearchResult.
Variable entryScore : V -> Q.
Variable K : nat.
Variable weight : Q.
Variable callback : JsMap V -> SearchResult -> nat -> JsMap V.

Hypothesis callback_shape : forall m result index,
  exists e,
    callback m result index = Map_set m (getDocumentId result) e
    /\ match Map_get m (getDocumentId result) with
       | Some existing =>
           entryDoc e = entryDoc existing
           /\ entryScore e = entryScore existing + weight / Qnat (K + index + 1)
       | None =>
           entryDoc e = result
           /\ entryScore e = weight / Qnat (K + index + 1)
       end.

Lemma wellKeyed_nil : wellKeyed entryDoc [].
Proof. split; [constructor | intros ? ? []]. Qed.

Lemma callback_wellKeyed m result index :
  wellKeyed entryDoc m -> wellKeyed entryDoc (callback m result index).
Proof.
  intros [Hnd Hkey].
  destruct (callback_shape m result index) as [e [-> He]].
  split; [now apply Map_keys_set_NoDup|].
  intros docId e' Hin. apply Map_set_In in Hin.
  destruct Hin as [[-> ->] | Hin]; [|now apply Hkey].
  destruct (Map_get m (getDocumentId result)) as [existing|] eqn:E.
  - destruct He as [-> _]. apply Map_get_In in E. now apply Hkey.
  - destruct He as [-> _]. reflexivity.
Qed.

Lemma callback_keys m result index :
  Map_keys (callback m result index) =
  if Map_has m (getDocumentId result) then Map_keys m
  else Map_keys m ++ [getDocumentId result].
Proof.
  destruct (callback_shape m result index) as [e [-> _]]. apply Map_keys_set.
Qed.

Lemma callback_score m result index docId :
  scoreIn entryScore (callback m result index) docId ==
  scoreIn entryScore m docId
  + (if jsstring_eqb (getDocumentId result) docId
     then weight / Qnat (K + index + 1) else 0).
Proof.
  destruct (callback_shape m result index) as [e [-> He]].
  unfold scoreIn.
  destruct (jsstring_eqb (getDocumentId result) docId) eqn:E.
  - apply jsstring_eqb_eq in E. subst docId.
    rewrite Map_get_set_same.
    destruct (Map_get m (getDocumentId result)); destruct He as [_ ->]; ring.
  - apply jsstring_eqb_neq in E.
    rewrite Map_get_set_other by exact E. ring.
Qed.

Lemma forEach_wellKeyed results index m :
  wellKeyed entryDoc m -> wellKeyed entryDoc (forEach callback results index m).
Proof.
  revert index m. induction results as [|r results IH]; intros index m H; simpl.
  - exact H.
  - apply IH. now apply callback_wellKeyed.
Qed.

Lemma forEach_score results index m docId :
  scoreIn entryScore (forEach callback results index m) docId ==
  scoreIn entryScore m docId + contribution K weight docId results index.
Proof.
  revert index m. induction results as [|r results IH]; intros index m; simpl.
  - ring.
  - rewrite IH, callback_score. ring.
Qed.

Lemma forEach_keys_In results index m docId :
  In docId (Map_keys (forEach callback results index m)) <->
  In docId (Map_keys m) \/ In docId (map getDocumentId results).
Proof.
  revert index m. induction results as [|r results IH]; intros index m; simpl.
  - tauto.
  - rewrite IH, callback_keys.
    destruct (Map_has m (getDocumentId r)) eqn:E.
    + unfold Map_has in E.
      destruct (Map_get m (getDocumentId r)) eqn:G; [|discriminate].
      apply Map_get_In, Map_In_keys in G.
      split; [tauto|]. intros [H | [<- | H]]; auto.
    + rewrite in_app_iff. simpl. tauto.
Qed.

(** The keys come in the order in which the identities are first met. *)
Lemma forEach_keys results index m :
  Map_keys (forEach callback results index m) =
  Map_keys m ++ firstSeen (Map_keys m) (map getDocumentId results).
Proof.
  revert index m. induction results as [|r results IH]; intros index m; simpl.
  - now rewrite app_nil_r.
  - rewrite IH, callback_keys. unfold Map_has.
    destruct (Map_get m (getDocumentId r)) eqn:E.
    + apply Map_get_In, Map_In_keys in E.
      assert (X : existsb (jsstring_eqb (getDocumentId r)) (Map_keys m) = true).
      { apply existsb_exists. exists (getDocumentId r).
        split; [exact E | apply jsstring_eqb_refl]. }
      now rewrite X.
    + apply Map_get_None in E.
      assert (X : existsb (jsstring_eqb (getDocumentId r)) (Map_keys m) = false).
      { apply not_true_is_false. intro X. apply existsb_exists in X.
        destruct X as [x [Hx Hxe]]. apply jsstring_eqb_eq in Hxe. now subst. }
      rewrite X, <- app_assoc. simpl. f_equal. f_equal.
      apply firstSeen_ext. intro x. rewrite in_app_iff. simpl. tauto.
Qed.

Lemma forEach_fresh results index m :
  NoDup (Map_keys m ++ map getDocumentId results) ->
  exists entries,
    forEach callback results index m = m ++ entries
    /\ freshEntries entryDoc entryScore K weight results index entries.
Proof.
  revert index m. induction results as [|r results IH]; intros index m Hnd; simpl.
  - exists []. now rewrite app_nil_r.
  - simpl in Hnd.
    assert (Hnew : Map_get m (getDocumentId r) = None).
    { apply Map_get_None. intro Hin.
      apply NoDup_remove_2 in Hnd. apply Hnd, in_or_app. now left. }
    destruct (callback_shape m r index) as [e [Hcb He]].
    rewrite Hnew in He. destruct He as [Hdoc Hscore].
    rewrite Hcb, Map_set_new by exact Hnew.
    destruct (IH (S index) (m ++ [(getDocumentId r, e)])) as [entries [Hrun Hfresh]].
    { unfold Map_keys. rewrite map_app, <- app_assoc. exact Hnd. }
    exists ((getDocumentId r, e) :: entries).
    rewrite Hrun, <- app_assoc. split; [reflexivity|]. simpl. auto.
Qed.

End Accumulate.

Arguments wellKeyed_nil {V} entryDoc.
Arguments forEach_wellKeyed {V entryDoc entryScore K weight callback}
  callback_shape results index {m} _.
Arguments forEach_score {V entryDoc entryScore K weight callback}
  callback_shape results index m docId.
Arguments forEach_keys_In {V entryDoc entryScore K weight callback}
  callback_shape results index m docId.
Arguments forEach_keys {V entryDoc entryScore K weight callback}
  callback_shape results index m.
Arguments forEach_fresh {V entryDoc entryScore K weight callback}
  callback_shape results index m _.

(** ** Contributions of a list *)

Lemma contribution_absent (K : nat) (weight : Q) (docId : jsstring)
  (results : list SearchResult) (index : nat) :
  ~ In docId (map getDocumentId results) ->
  contribution K weight docId results index == 0.
Proof.
  revert index. induction results as [|r results IH]; intros index H; simpl.
  - reflexivity.
  - simpl in H.
    destruct (jsstring_eqb (getDocumentId r) docId) eqn:E.
    + apply jsstring_eqb_eq in E. tauto.
    + rewrite IH by tauto. ring.
Qed.

Lemma rankFrom_absent (docId : jsstring) (results : list SearchResult) (index : nat) :
  ~ In docId (map getDocumentId results) -> rankFrom docId results index = None.
Proof.
  revert index. induction results as [|r results IH]; intros index H; simpl.
  - reflexivity.
  - simpl in H.
    destruct (jsstring_eqb (getDocumentId r) docId) eqn:E.
    + apply jsstring_eqb_eq in E. tauto.
    + apply IH. tauto.
Qed.

(** In a list that holds no chunk twice the contribution is the single
    term of the rank, or zero. *)
Lemma contribution_NoDup (K : nat) (weight : Q) (docId : jsstring)
  (results : list SearchResult) (index : nat) :
  NoDup (map getDocumentId results) ->
  contribution K weight docId results index ==
  rankTerm K weight (rankFrom docId results index).
Proof.
  revert index. induction results as [|r results IH]; intros index H; simpl.
  - reflexivity.
  - inversion H as [|? ? Hr Hrest]; subst.
    destruct (jsstring_eqb (getDocumentId r) docId) eqn:E.
    + apply jsstring_eqb_eq in E. subst docId.
      rewrite contribution_absent by exact Hr. unfold rankTerm.
      rewrite Nat.add_assoc. ring.
    + rewrite IH by exact Hrest. ring.
Qed.

Lemma contribution_cons (K : nat) (weight : Q) (docId : jsstring)
  (result : SearchResult) (rest : list SearchResult) (index : nat) :
  contribution K weight docId (result :: rest) index =
  (if jsstring_eqb (getDocumentId result) docId
   then weight / Qnat (K + index + 1) else 0)
  + contribution K weight docId rest (S index).
Proof. reflexivity. Qed.

Lemma contribution_app (K : nat) (weight : Q) (docId : jsstring)
  (front back : list SearchResult) (index : nat) :
  contribution K weight docId (front ++ back) index ==
  contribution K weight docId front index
  + contribution K weight docId back (index + length front).
Proof.
  revert index. induction front as [|r front IH]; intros index; simpl.
  - rewrite Nat.add_0_r. ring.
  - rewrite IH. replace (S index + length front)%nat with (index + S (length front))%nat by lia.
    ring.
Qed.

Lemma rankFrom_In (docId : jsstring) (results : list SearchResult) (index : nat) :
  In docId (map getDocumentId results) ->
  exists r, rankFrom docId results index = Some r /\ (index < r <= index + length results)%nat.
Proof.
  revert index. induction results as [|x results IH]; intros index H; simpl in *.
  - contradiction.
  - destruct (jsstring_eqb (getDocumentId x) docId) eqn:E.
    + exists (index + 1)%nat. split; [reflexivity | lia].
    + apply jsstring_eqb_neq in E. destruct H as [H | H]; [contradiction|].
      destruct (IH (S index) H) as [r [Hr Hb]]. exists r. split; [exact Hr | lia].
Qed.

(** ** [fuseResults] *)

Module FusionFacts.
Import Fusion.

Lemma keywordCallback_shape (weight : Q) m result index :
  exists e,
    keywordCallback weight m result index = Map_set m (getDocumentId result) e
    /\ match Map_get m (getDocumentId result) with
       | Some existing =>
           spread e = spread existing
           /\ fusedScore e = fusedScore existing + weight / Qnat (k + index + 1)
       | None =>
           spread e = result /\ fusedScore e = weight / Qnat (k + index + 1)
       end.
Proof.
  unfold keywordCallback.
  destruct (Map_get m (getDocumentId result)); eexists; split; try reflexivity;
    simpl; auto.
Qed.

Lemma semanticCallback_shape (weight : Q) m result index :
  exists e,
    semanticCallback weight m result index = Map_set m (getDocumentId result) e
    /\ match Map_get m (getDocumentId result) with
       | Some existing =>
           spread e = spread existing
           /\ fusedScore e = fusedScore existing + weight / Qnat (k + index + 1)
       | None =>
           spread e = result /\ fusedScore e = weight / Qnat (k + index + 1)
       end.
Proof.
  unfold semanticCallback.
  destruct (Map_get m (getDocumentId result)); eexists; split; try reflexivity;
    simpl; auto.
Qed.

Lemma fuseMap_wellKeyed kw sem wk ws : wellKeyed spread (fuseMap kw sem wk ws).
Proof.
  unfold fuseMap.
  apply (forEach_wellKeyed (semanticCallback_shape ws)).
  apply (forEach_wellKeyed (keywordCallback_shape wk)).
  apply wellKeyed_nil.
Qed.

Lemma fuseMap_score kw sem wk ws docId :
  scoreIn fusedScore (fuseMap kw sem wk ws) docId ==
  contribution k wk docId kw 0 + contribution k ws docId sem 0.
Proof.
  unfold fuseMap.
  rewrite (forEach_score (semanticCallback_shape ws)).
  rewrite (forEach_score (keywordCallback_shape wk)).
  unfold scoreIn. simpl. ring.
Qed.

Lemma fuseMap_keys_In kw sem wk ws docId :
  In docId (Map_keys (fuseMap kw sem wk ws)) <->
  In docId (map getDocumentId kw) \/ In docId (map getDocumentId sem).
Proof.
  unfold fuseMap.
  rewrite (forEach_keys_In (semanticCallback_shape ws)).
  rewrite (forEach_keys_In (keywordCallback_shape wk)).
  simpl. tauto.
Qed.

Lemma toHybridResult_id e : getDocumentId (toHybridResult e) = getDocumentId (spread e).
Proof. reflexivity. Qed.

Lemma wellKeyed_ids (m : JsMap FusedEntry) :
  wellKeyed spread m ->
  map (fun e => getDocumentId (spread e)) (Map_values m) = Map_keys m.
Proof.
  intros [_ Hkey]. unfold Map_values, Map_keys. rewrite map_map.
  apply map_ext_in. intros [d e] Hin. simpl. symmetry. now apply Hkey.
Qed.

Lemma fuseResults_ids kw sem wk ws :
  Permutation (map getDocumentId (fuseResults kw sem wk ws))
              (Map_keys (fuseMap kw sem wk ws)).
Proof.
  unfold fuseResults. rewrite map_map.
  rewrite <- (wellKeyed_ids (fuseMap_wellKeyed kw sem wk ws)).
  apply Permutation_map, Array_sort_perm.
Qed.

Lemma fuseResults_NoDup kw sem wk ws :
  NoDup (map getDocumentId (fuseResults kw sem wk ws)).
Proof.
  eapply Permutation_NoDup.
  - apply Permutation_sym, fuseResults_ids.
  - apply fuseMap_wellKeyed.
Qed.

Lemma fuseResults_ids_In kw sem wk ws docId :
  In docId (map getDocumentId (fuseResults kw sem wk ws)) <->
  In docId (map getDocumentId kw) \/ In docId (map getDocumentId sem).
Proof.
  rewrite <- fuseMap_keys_In.
  split; apply Permutation_in;
    [apply fuseResults_ids | apply Permutation_sym, fuseResults_ids].
Qed.

(** The score of an entry of the output is the sum of the
    contributions of every occurrence of its chunk in the two lists. *)
Lemma fuseResults_score kw sem wk ws r :
  In r (fuseResults kw sem wk ws) ->
  score r == contribution k wk (getDocumentId r) kw 0
             + contribution k ws (getDocumentId r) sem 0.
Proof.
  unfold fuseResults. intro H. apply in_map_iff in H.
  destruct H as [e [<- He]].
  apply (proj1 (Array_sort_In _ _ _)) in He.
  unfold Map_values in He. apply in_map_iff in He.
  destruct He as [[d e'] [Heq Hin]]. simpl in Heq. subst e'.
  destruct (fuseMap_wellKeyed kw sem wk ws) as [Hnd Hkey].
  pose proof (Hkey d e Hin) as Hd.
  rewrite toHybridResult_id, <- Hd, <- fuseMap_score.
  unfold scoreIn. rewrite (Map_In_get _ _ _ Hnd Hin). reflexivity.
Qed.

Lemma fuseResults_length kw sem wk ws :
  length (fuseResults kw sem wk ws) = length (Map_keys (fuseMap kw sem wk ws)).
Proof.
  rewrite <- (length_map getDocumentId). apply Permutation_length, fuseResults_ids.
Qed.

End FusionFacts.

(** ** The fused score *)

Module EnsembleFacts.
Import EnsembleEngine.

Lemma rankCallback_shape (weight : Q) m doc rank :
  exists e,
    rankCallback weight m doc rank = Map_set m (getDocumentId doc) e
    /\ match Map_get m (getDocumentId doc) with
       | Some existing =>
           ranked_doc e = ranked_doc existing
           /\ ranked_score e = ranked_score existing + weight / Qnat (k + rank + 1)
       | None =>
           ranked_doc e = doc /\ ranked_score e = weight / Qnat (k + rank + 1)
       end.
Proof.
  unfold rankCallback.
  destruct (Map_get m (getDocumentId doc)); eexists; split; try reflexivity;
    simpl; auto.
Qed.

(** The ensemble of two retrievers scores as [fuseResults] does. *)
Lemma rankMap_score (first second : list SearchResult) (w1 w2 : Q) docId :
  scoreIn ranked_score (rankMap [w1; w2] [first; second]) docId ==
  contribution k w1 docId first 0 + contribution k w2 docId second 0.
Proof.
  unfold rankMap. simpl. unfold retrieverCallback. simpl.
  rewrite (forEach_score (rankCallback_shape w2)).
  rewrite (forEach_score (rankCallback_shape w1)).
  unfold scoreIn. simpl. ring.
Qed.

End EnsembleFacts.

Import Fusion FusionFacts.

(** C1, as the claim states it.  In the example the claim gives chunk
    docB the score [0.3/61 + 0.7/61]; docB has rank 2 in the keyword
    list, and its entry does not have that score.  And in a list that
    holds a chunk at two ranks the chunk has no single rank: for docA
    at the ranks 1 and 2 of the keyword list the score is not the term
    of the first rank. *)
Lemma fuse_example_docB_is_not_both_61 :
  ~ (forall r, In r (fuseResults exampleKeyword exampleSemantic (3 # 10) (7 # 10)) ->
               getDocumentId r = str "docB_0" ->
               score r == (3 # 10) / 61 + (7 # 10) / 61)
  /\ ~ (forall r, In r (fuseResults [docA; docA] [] (3 # 10) (7 # 10)) ->
                  score r == rankTerm 60 (3 # 10) (rankOf (getDocumentId r) [docA; docA])
                             + rankTerm 60 (7 # 10) (rankOf (getDocumentId r) [])).
Proof.
  split; intro H.
  - assert (X : exists r, nth_error (fuseResults exampleKeyword exampleSemantic
                                       (3 # 10) (7 # 10)) 0 = Some r)
      by (eexists; reflexivity).
    destruct X as [r Hr].
    specialize (H r (nth_error_In _ _ Hr)).
    vm_compute in Hr. injection Hr as <-.
    specialize (H eq_refl). vm_compute in H. discriminate.
  - assert (X : exists r, nth_error (fuseResults [docA; docA] [] (3 # 10) (7 # 10)) 0
                          = Some r)
      by (eexists; reflexivity).
    destruct X as [r Hr].
    specialize (H r (nth_error_In _ _ Hr)).
    vm_compute in Hr. injection Hr as <-.
    vm_compute in H. discriminate.
Qed.

(** C1 (amended): for two lists that hold no chunk twice, the output of
    [fuseResults] has one entry for each chunk of either list, and the
    score of the entry is the sum over the lists that hold the chunk of
    [weight / (60 + r)] for its 1-based rank [r] in the list, a list
    without it adding zero; the result map of [EnsembleRetriever] holds
    the same sums.  In the scenario (keyword docA, docB; semantic docB,
    docA; weights 0.3 and 0.7) docB scores [0.3/62 + 0.7/61], docA
    scores [0.3/61 + 0.7/62], and docB comes first. *)
Theorem fuseResults_rank_sum (kw sem : list SearchResult) (wk ws : Q) :
  NoDup (map getDocumentId kw) ->
  NoDup (map getDocumentId sem) ->
  NoDup (map getDocumentId (fuseResults kw sem wk ws))
  /\ (forall docId,
        In docId (map getDocumentId (fuseResults kw sem wk ws)) <->
        In docId (map getDocumentId kw) \/ In docId (map getDocumentId sem))
  /\ (forall r,
        In r (fuseResults kw sem wk ws) ->
        score r == rankTerm 60 wk (rankOf (getDocumentId r) kw)
                   + rankTerm 60 ws (rankOf (getDocumentId r) sem))
  /\ (forall docId,
        scoreIn EnsembleEngine.ranked_score
          (EnsembleEngine.rankMap [wk; ws] [kw; sem]) docId ==
        rankTerm 60 wk (rankOf docId kw) + rankTerm 60 ws (rankOf docId sem))
  /\ (exists b a,
        fuseResults exampleKeyword exampleSemantic (3 # 10) (7 # 10) = [b; a]
        /\ getDocumentId b = str "docB_0"
        /\ getDocumentId a = str "docA_0"
        /\ score b == (3 # 10) / 62 + (7 # 10) / 61
        /\ score a == (3 # 10) / 61 + (7 # 10) / 62
        /\ score a < score b).
Proof.
  intros Hkw Hsem. split; [apply fuseResults_NoDup|].
  split; [apply fuseResults_ids_In|].
  split; [|split].
  - intros r Hr. rewrite (fuseResults_score _ _ _ _ _ Hr).
    unfold rankOf. now rewrite !contribution_NoDup.
  - intro docId. rewrite EnsembleFacts.rankMap_score.
    unfold rankOf. now rewrite !contribution_NoDup.
  - eexists. eexists. split; [vm_compute; reflexivity|].
    repeat split; vm_compute; reflexivity.
Qed.

Lemma fuseResults_rank_sum_witness :
  NoDup (map getDocumentId exampleKeyword)
  /\ NoDup (map getDocumentId exampleSemantic)
  /\ forall r,
       In r (fuseResults exampleKeyword exampleSemantic (3 # 10) (7 # 10)) ->
       score r == rankTerm 60 (3 # 10) (rankOf (getDocumentId r) exampleKeyword)
                  + rankTerm 60 (7 # 10) (rankOf (getDocumentId r) exampleSemantic).
Proof.
  assert (Hk : NoDup (map getDocumentId exampleKeyword)).
  { vm_compute. repeat constructor; simpl; intuition discriminate. }
  assert (Hs : NoDup (map getDocumentId exampleSemantic)).
  { vm_compute. repeat constructor; simpl; intuition discriminate. }
  split; [exact Hk|]. split; [exact Hs|].
  exact (proj1 (proj2 (proj2
    (fuseResults_rank_sum exampleKeyword exampleSemantic (3 # 10) (7 # 10) Hk Hs)))).
Defined.

(** C2, as the claim states it: with docA at the ranks 1 and 3 of the
    keyword list, the claim gives docA the term of rank 1 only,
    [1/61]; the entry of docA has another score. *)
Lemma fuse_duplicate_is_counted_twice :
  ~ (forall r, In r (fuseResults [docA; docB; docA] [] 1 1) ->
               getDocumentId r = str "docA_0" ->
               score r == 1 / 61).
Proof.
  intro H.
  assert (X : exists r, nth_error (fuseResults [docA; docB; docA] [] 1 1) 0 = Some r)
    by (eexists; reflexivity).
  destruct X as [r Hr].
  specialize (H r (nth_error_In _ _ Hr)).
  vm_compute in Hr. injection Hr as <-.
  specialize (H eq_refl). vm_compute in H. discriminate.
Qed.

Lemma filter_none {A : Type} (p : A -> bool) (l : list A) :
  (forall y, In y l -> p y = false) -> filter p l = [].
Proof.
  induction l as [|y l IH]; intro H; simpl; [reflexivity|].
  rewrite (H y (or_introl eq_refl)). apply IH. intros z Hz. apply H. now right.
Qed.

Lemma filter_unique (f : SearchResult -> jsstring) (l : list SearchResult)
  (x : SearchResult) :
  NoDup (map f l) -> In x l ->
  filter (fun y => jsstring_eqb (f y) (f x)) l = [x].
Proof.
  induction l as [|y l IH]; intros Hnd Hin; simpl in *; [contradiction|].
  inversion Hnd as [|? ? Hy Hl]; subst.
  destruct Hin as [-> | Hin].
  - rewrite jsstring_eqb_refl. f_equal. apply filter_none.
    intros z Hz. apply jsstring_eqb_neq. intro E. apply Hy.
    rewrite <- E. now apply in_map.
  - assert (E : jsstring_eqb (f y) (f x) = false).
    { apply jsstring_eqb_neq. intro E. apply Hy. rewrite E. now apply in_map. }
    rewrite E. now apply IH.
Qed.

(** The entry of a chunk that a list holds: the output has one entry
    with its identity, whose score is the sum of the contributions of
    the two lists. *)
Lemma fused_entry (kw sem : list SearchResult) (wk ws : Q) (docId : jsstring) :
  In docId (map getDocumentId (kw ++ sem)) ->
  exists e,
    filter (fun r => jsstring_eqb (getDocumentId r) docId) (fuseResults kw sem wk ws)
    = [e]
    /\ score e == contribution 60 wk docId kw 0 + contribution 60 ws docId sem 0.
Proof.
  intro Hin.
  assert (Hid : In docId (map getDocumentId (fuseResults kw sem wk ws))).
  { apply fuseResults_ids_In. rewrite map_app in Hin. now apply in_app_or in Hin. }
  apply in_map_iff in Hid. destruct Hid as [e [He Hine]].
  exists e. split.
  - rewrite <- He. apply filter_unique; [apply fuseResults_NoDup | exact Hine].
  - rewrite <- He. now apply fuseResults_score.
Qed.

(** A list that holds a chunk at two ranks, behind [front] and behind
    [front], the first occurrence and [middle], adds the terms of both
    ranks. *)
Lemma contribution_two_ranks (weight : Q)
  (front middle back : list SearchResult) (first second : SearchResult) :
  getDocumentId second = getDocumentId first ->
  ~ In (getDocumentId first) (map getDocumentId (front ++ middle ++ back)) ->
  contribution 60 weight (getDocumentId first)
    (front ++ first :: middle ++ second :: back) 0 ==
  weight / Qnat (60 + (length front + 1))
  + weight / Qnat (60 + (length front + 1 + length middle + 1)).
Proof.
  intros Hsame Habsent.
  rewrite !map_app, !in_app_iff in Habsent.
  assert (E : forall n m, n = m -> weight / Qnat n == weight / Qnat m)
    by (intros n m ->; reflexivity).
  rewrite contribution_app, contribution_cons, jsstring_eqb_refl.
  rewrite contribution_app, contribution_cons, Hsame, jsstring_eqb_refl.
  rewrite !contribution_absent by tauto.
  rewrite (E (60 + (0 + length front) + 1)%nat (60 + (length front + 1))%nat) by lia.
  rewrite (E (60 + (S (0 + length front) + length middle) + 1)%nat
             (60 + (length front + 1 + length middle + 1))%nat) by lia.
  ring.
Qed.

(** C2 (amended): a list that holds a chunk at two ranks [r1] and
    [r2], behind [front] and behind [front], the first occurrence and
    [middle], gives the chunk [weight / (60 + r1) + weight / (60 + r2)].
    Whether the list is the keyword list or the semantic list, the
    output of [fuseResults] has exactly one entry of the chunk, and its
    score is these two terms and what the other list adds; the result
    map of [EnsembleRetriever] holds the same score.  In general the
    score of every entry is the sum of one term for every occurrence
    of its chunk. *)
Theorem fuseResults_counts_every_occurrence (weight otherWeight : Q)
  (front middle back other : list SearchResult) (first second : SearchResult) :
  getDocumentId second = getDocumentId first ->
  ~ In (getDocumentId first) (map getDocumentId (front ++ middle ++ back)) ->
  let repeated := front ++ first :: middle ++ second :: back in
  let docId := getDocumentId first in
  let both := weight / Qnat (60 + (length front + 1))
              + weight / Qnat (60 + (length front + 1 + length middle + 1)) in
  (exists e,
     filter (fun r => jsstring_eqb (getDocumentId r) docId)
            (fuseResults repeated other weight otherWeight) = [e]
     /\ score e == both + contribution 60 otherWeight docId other 0)
  /\ (exists e,
        filter (fun r => jsstring_eqb (getDocumentId r) docId)
               (fuseResults other repeated otherWeight weight) = [e]
        /\ score e == contribution 60 otherWeight docId other 0 + both)
  /\ scoreIn EnsembleEngine.ranked_score
       (EnsembleEngine.rankMap [weight; otherWeight] [repeated; other]) docId
     == both + contribution 60 otherWeight docId other 0
  /\ scoreIn EnsembleEngine.ranked_score
       (EnsembleEngine.rankMap [otherWeight; weight] [other; repeated]) docId
     == contribution 60 otherWeight docId other 0 + both
  /\ (forall kw sem wk ws r,
        In r (fuseResults kw sem wk ws) ->
        score r == contribution 60 wk (getDocumentId r) kw 0
                   + contribution 60 ws (getDocumentId r) sem 0).
Proof.
  intros Hsame Habsent repeated docId both.
  pose proof (contribution_two_ranks weight front middle back first second
                Hsame Habsent) as Hboth.
  fold repeated docId both in Hboth.
  assert (Hin : In docId (map getDocumentId repeated)).
  { unfold repeated, docId. rewrite map_app. apply in_or_app. right. now left. }
  split; [|split; [|split; [|split]]].
  - destruct (fused_entry repeated other weight otherWeight docId) as [e [Hone Hscore]].
    { rewrite map_app. apply in_or_app. now left. }
    exists e. split; [exact Hone|]. now rewrite Hscore, Hboth.
  - destruct (fused_entry other repeated otherWeight weight docId) as [e [Hone Hscore]].
    { rewrite map_app. apply in_or_app. now right. }
    exists e. split; [exact Hone|]. now rewrite Hscore, Hboth.
  - now rewrite EnsembleFacts.rankMap_score, Hboth.
  - now rewrite EnsembleFacts.rankMap_score, Hboth.
  - intros kw sem wk ws r Hr. now apply fuseResults_score.
Qed.

Lemma fuseResults_counts_every_occurrence_witness :
  exists e,
    filter (fun r => jsstring_eqb (getDocumentId r) (getDocumentId docA))
           (fuseResults [docA; docB; docA] [docB] (3 # 10) (7 # 10)) = [e]
    /\ score e == (3 # 10) / 61 + (3 # 10) / 63.
Proof.
  destruct (proj1 (fuseResults_counts_every_occurrence (3 # 10) (7 # 10)
                     [] [docB] [] [docB] docA docA eq_refl
                     ltac:(vm_compute; intuition discriminate)))
    as [e [Hone Hscore]].
  exists e. split; [exact Hone|].
  rewrite Hscore. vm_compute. reflexivity.
Defined.

(** ** Fusion of a single list *)

Lemma byFusedScore_key (a b : FusedEntry) :
  byFusedScore a b == - fusedScore a - - fusedScore b.
Proof. unfold byFusedScore. ring. Qed.

Lemma freshEntries_scores (K : nat) (weight : Q) (results : list SearchResult)
  (index : nat) (entries : JsMap FusedEntry) :
  freshEntries spread fusedScore K weight results index entries ->
  Forall (fun e => exists j, (index <= j)%nat
                             /\ fusedScore e = weight / Qnat (K + j + 1))
         (Map_values entries).
Proof.
  revert index entries. induction results as [|r results IH];
    intros index [|[d e] entries] H; simpl in H; try contradiction.
  - constructor.
  - destruct H as [_ [_ [Hscore Hrest]]]. simpl. constructor.
    + exists index. split; [lia | exact Hscore].
    + apply IH in Hrest. eapply Forall_impl; [|exact Hrest].
      intros e' [j [Hj He']]. exists j. split; [lia | exact He'].
Qed.

(** With weight 1 the entries of a list are in the order of the sort
    already: the score falls with the rank. *)
Lemma freshEntries_sorted (K : nat) (results : list SearchResult)
  (index : nat) (entries : JsMap FusedEntry) :
  freshEntries spread fusedScore K 1 results index entries ->
  StronglySorted (key_le (fun e => - fusedScore e)) (Map_values entries).
Proof.
  revert index entries. induction results as [|r results IH];
    intros index [|[d e] entries] H; simpl in H; try contradiction.
  - constructor.
  - destruct H as [_ [_ [Hscore Hrest]]]. simpl. constructor.
    + eapply IH, Hrest.
    + apply freshEntries_scores in Hrest.
      eapply Forall_impl; [|exact Hrest].
      intros e' [j [Hj He']]. unfold key_le. simpl.
      rewrite Hscore, He'. apply Qopp_le_compat, Qlt_le_weak.
      apply reciprocal_antitone. lia.
Qed.

Lemma freshEntries_output (K : nat) (weight : Q) (results : list SearchResult)
  (index : nat) (entries : JsMap FusedEntry) :
  freshEntries spread fusedScore K weight results index entries ->
  Forall2 (fun r p =>
             content r = content (snd p)
             /\ metadata r = metadata (snd p)
             /\ score r = weight / Qnat (K + fst p + 1))
          (map toHybridResult (Map_values entries)) (indexed results index).
Proof.
  revert index entries. induction results as [|r results IH];
    intros index [|[d e] entries] H; simpl in H; try contradiction.
  - constructor.
  - destruct H as [_ [Hdoc [Hscore Hrest]]]. simpl. constructor.
    + simpl. rewrite Hdoc. auto.
    + eapply IH, Hrest.
Qed.

Lemma Forall2_ids (K : nat) (weight : Q) (out results : list SearchResult) (index : nat) :
  Forall2 (fun r p =>
             content r = content (snd p)
             /\ metadata r = metadata (snd p)
             /\ score r = weight / Qnat (K + fst p + 1))
          out (indexed results index) ->
  map getDocumentId out = map getDocumentId results.
Proof.
  revert index out. induction results as [|x results IH]; intros index out H;
    simpl in H; inversion H as [|r p out' ps Hr Hrest]; subst; simpl.
  - reflexivity.
  - f_equal; [|eapply IH, Hrest].
    destruct Hr as [_ [Hm _]]. unfold getDocumentId. simpl in Hm. now rewrite Hm.
Qed.

Lemma ranked_output_scores (K : nat) (weight : Q) (out results : list SearchResult)
  (index : nat) :
  Forall2 (fun r p =>
             content r = content (snd p)
             /\ metadata r = metadata (snd p)
             /\ score r = weight / Qnat (K + fst p + 1))
          out (indexed results index) ->
  Forall (fun r => exists j, (index <= j)%nat /\ score r = weight / Qnat (K + j + 1)) out.
Proof.
  revert index out. induction results as [|x results IH]; intros index out H;
    simpl in H; inversion H as [|r p out' ps Hr Hrest]; subst.
  - constructor.
  - constructor.
    + exists index. split; [lia | apply Hr].
    + apply IH in Hrest. eapply Forall_impl; [|exact Hrest].
      intros r' [j [Hj Hr']]. exists j. split; [lia | exact Hr'].
Qed.

Lemma ranked_output_falls (K : nat) (out results : list SearchResult) (index : nat) :
  Forall2 (fun r p =>
             content r = content (snd p)
             /\ metadata r = metadata (snd p)
             /\ score r = 1 / Qnat (K + fst p + 1))
          out (indexed results index) ->
  StronglySorted (fun a b => score b < score a) out.
Proof.
  revert index out. induction results as [|x results IH]; intros index out H;
    simpl in H; inversion H as [|r p out' ps Hr Hrest]; subst.
  - constructor.
  - constructor; [eapply IH, Hrest|].
    apply ranked_output_scores in Hrest.
    eapply Forall_impl; [|exact Hrest].
    intros r' [j [Hj Hr']]. destruct Hr as [_ [_ Hscore]]. simpl in Hscore.
    rewrite Hscore, Hr'. apply reciprocal_antitone. lia.
Qed.

(** C7, as the claim states it: in the list docB, docA, docA the chunk
    docB comes before docA, and in the fused output, with weight 1
    against an empty second list, docA comes before docB. *)
Lemma fuse_single_list_with_duplicate_reorders :
  firstSeen [] (map getDocumentId [docB; docA; docA]) = [str "docB_0"; str "docA_0"]
  /\ map getDocumentId (fuseResults [docB; docA; docA] [] 1 (7 # 10))
     = [str "docA_0"; str "docB_0"].
Proof. split; vm_compute; reflexivity. Qed.

(** C7 (amended): for every list that holds no chunk twice, fused with
    weight 1 against an empty second list, the output has the chunks
    of the list in the order of the list: entry by entry the content
    and the metadata of the input, with the score [1 / (60 + r)] of the
    1-based rank [r], and these scores fall strictly along the
    output. *)
Theorem fuse_single_list_keeps_order (results : list SearchResult) (semanticWeight : Q) :
  NoDup (map getDocumentId results) ->
  Forall2 (fun r p =>
             content r = content (snd p)
             /\ metadata r = metadata (snd p)
             /\ score r = 1 / Qnat (60 + fst p + 1))
          (fuseResults results [] 1 semanticWeight) (indexed results 0)
  /\ map getDocumentId (fuseResults results [] 1 semanticWeight)
     = map getDocumentId results
  /\ StronglySorted (fun a b => score b < score a)
       (fuseResults results [] 1 semanticWeight).
Proof.
  intro Hnd.
  destruct (forEach_fresh (keywordCallback_shape 1) results 0%nat [] Hnd)
    as [entries [Hrun Hfresh]].
  assert (Hout : fuseResults results [] 1 semanticWeight
                 = map toHybridResult (Map_values entries)).
  { unfold fuseResults, fuseMap. simpl. rewrite Hrun. simpl.
    rewrite (Array_sort_fixed (key := fun e => - fusedScore e) byFusedScore_key).
    - reflexivity.
    - eapply freshEntries_sorted, Hfresh. }
  rewrite Hout.
  pose proof (freshEntries_output _ _ _ _ _ Hfresh) as Hall.
  split; [exact Hall|]. split; [eapply Forall2_ids, Hall|].
  eapply ranked_output_falls, Hall.
Qed.

Lemma fuse_single_list_keeps_order_witness :
  NoDup (map getDocumentId [docA; docB])
  /\ map getDocumentId (fuseResults [docA; docB] [] 1 (7 # 10))
     = map getDocumentId [docA; docB].
Proof.
  assert (H : NoDup (map getDocumentId [docA; docB])).
  { vm_compute. repeat constructor; simpl; intuition discriminate. }
  split; [exact H|].
  exact (proj1 (proj2 (fuse_single_list_keeps_order [docA; docB] (7 # 10) H))).
Defined.

(** ** Results without metadata *)

Lemma lacksIdentity_id (r : SearchResult) :
  lacksIdentity r -> getDocumentId r = str "unknown_0".
Proof.
  unfold lacksIdentity, getDocumentId.
  destruct (metadata r) as [m|]; [|reflexivity].
  intros [Hs Hc]. simpl. now rewrite Hs, Hc.
Qed.

(** C10: every result without metadata, or whose metadata has neither
    [source] nor [chunkIndex], has the identity ["unknown_0"]; when a
    list holds such a result the output of [fuseResults] has exactly
    one entry with that identity, and its score is the sum of the
    contributions of every result of that identity in the two lists. *)
Theorem metadataless_results_merge (kw sem : list SearchResult) (wk ws : Q) :
  (forall r, lacksIdentity r -> getDocumentId r = str "unknown_0")
  /\ (forall r0,
        In r0 (kw ++ sem) -> lacksIdentity r0 ->
        exists e,
          filter (fun r => jsstring_eqb (getDocumentId r) (str "unknown_0"))
                 (fuseResults kw sem wk ws) = [e]
          /\ score e == contribution 60 wk (str "unknown_0") kw 0
                        + contribution 60 ws (str "unknown_0") sem 0).
Proof.
  split; [exact lacksIdentity_id|].
  intros r0 Hin Hlack. apply lacksIdentity_id in Hlack.
  assert (Hid : In (str "unknown_0") (map getDocumentId (fuseResults kw sem wk ws))).
  { apply fuseResults_ids_In. rewrite <- Hlack.
    apply in_app_or in Hin. destruct Hin as [H | H]; [left | right]; now apply in_map. }
  apply in_map_iff in Hid. destruct Hid as [e [He Hine]].
  exists e. split.
  - rewrite <- He. apply filter_unique; [apply fuseResults_NoDup | exact Hine].
  - rewrite <- He. now apply fuseResults_score.
Qed.

Lemma metadataless_results_merge_witness :
  exists e,
    filter (fun r => jsstring_eqb (getDocumentId r) (str "unknown_0"))
           (fuseResults [bare (JsString (str "first")); docA]
                        [bare (JsString (str "second"))] (3 # 10) (7 # 10)) = [e]
    /\ score e == (3 # 10) / 61 + (7 # 10) / 61.
Proof.
  destruct (proj2 (metadataless_results_merge
                     [bare (JsString (str "first")); docA]
                     [bare (JsString (str "second"))] (3 # 10) (7 # 10))
              (bare (JsString (str "first"))) (or_introl eq_refl) I)
    as [e [Hfilter Hscore]].
  exists e. split; [exact Hfilter|].
  rewrite Hscore. vm_compute. reflexivity.
Defined.

(** ** The search methods of the engine *)

Lemma preprocessText_total `{Case : CaseMapping} (text : JsValue) :
  exists processed, preprocessText text = Ok processed.
Proof.
  unfold preprocessText.
  destruct (negb (truthy text) || negb (is_string text)) eqn:E.
  - now exists [].
  - destruct text; simpl in E; try discriminate;
      try (rewrite orb_true_r in E; discriminate).
    simpl. eauto.
Qed.

Lemma keywordSearch_total `{Case : CaseMapping} `{Measure : NaturalTfIdf}
  (this : TfIdfEngine.HybridSearchEngine) (query : jsstring) (k : nat) :
  exists results, TfIdfEngine.keywordSearch this query k = Ok results.
Proof.
  unfold TfIdfEngine.keywordSearch.
  destruct (negb (TfIdfEngine.isIndexed this)); [now exists []|].
  destruct (preprocessText_total (JsString query)) as [processed ->]. simpl.
  destruct (length (splitTerms processed) =? 0)%nat; eauto.
Qed.

Lemma fuseResults_keyword_only kw wk ws r :
  In r (fuseResults kw [] wk ws) ->
  In (getDocumentId r) (map getDocumentId kw)
  /\ score r == contribution 60 wk (getDocumentId r) kw 0.
Proof.
  intro Hr. split.
  - assert (H : In (getDocumentId r) (map getDocumentId (fuseResults kw [] wk ws)))
      by now apply in_map.
    apply fuseResults_ids_In in H. simpl in H. tauto.
  - rewrite (fuseResults_score _ _ _ _ _ Hr). change k with 60%nat.
    cbn [contribution]. ring.
Qed.

Lemma fuseResults_nonempty kw sem wk ws :
  kw <> [] -> fuseResults kw sem wk ws <> [].
Proof.
  intros Hkw Hout. destruct kw as [|x kw]; [now apply Hkw|].
  assert (H : In (getDocumentId x) (map getDocumentId (fuseResults (x :: kw) sem wk ws))).
  { apply fuseResults_ids_In. left. now left. }
  rewrite Hout in H. exact H.
Qed.

(** C3, as the claim states it: an engine that was never indexed, over
    a vector store that holds a chunk, answers [semanticSearch] and
    [hybridSearch] with that chunk, not with the empty list. *)
Lemma unindexed_semantic_search_is_not_empty :
  TfIdfEngine.isIndexed (TfIdfEngine.new_HybridSearchEngine (constantStore [docA]))
  = false
  /\ TfIdfEngine.semanticSearch
       (TfIdfEngine.new_HybridSearchEngine (constantStore [docA])) (str "apples") 10
     <> Ok []
  /\ TfIdfEngine.hybridSearch (Case := AsciiCase) (Measure := TermCount)
       (TfIdfEngine.new_HybridSearchEngine (constantStore [docA])) (str "apples")
       TfIdfEngine.defaultOptions <> Ok []
  /\ snd (EnsembleEngine.hybridSearch (Case := AsciiCase) (Measure := TermCount)
            (EnsembleEngine.new_HybridSearchEngine (constantStore [docA]))
            (str "apples") EnsembleEngine.defaultOptions) <> Ok [].
Proof. repeat split; vm_compute; discriminate. Qed.

(** C3 (amended): on an engine that is not indexed no search throws;
    [keywordSearch] returns the empty list; [semanticSearch] returns
    what the vector store finds, tagged semantic, and the empty list
    when the store throws; [hybridSearch] returns what the semantic
    search returns: fused with an empty keyword list and truncated in
    the TF-IDF revision, tagged hybrid in the LangChain revision. *)
Theorem unindexed_searches `{Case : CaseMapping} `{Measure : NaturalTfIdf}
  (this : TfIdfEngine.HybridSearchEngine)
  (that : EnsembleEngine.HybridSearchEngine)
  (query : jsstring) (k : nat)
  (options : TfIdfEngine.HybridOptions) (options' : EnsembleEngine.HybridOptions) :
  TfIdfEngine.isIndexed this = false ->
  EnsembleEngine.isIndexed that = false ->
  TfIdfEngine.keywordSearch this query k = Ok []
  /\ TfIdfEngine.semanticSearch this query k
     = Ok (map TfIdfEngine.tagSemantic
             (semanticHits (TfIdfEngine.vectorStore this) query k))
  /\ TfIdfEngine.hybridSearch this query options
     = Ok (slice0 (TfIdfEngine.maxResults options)
             (fuseResults []
                (map TfIdfEngine.tagSemantic
                   (semanticHits (TfIdfEngine.vectorStore this) query
                      (TfIdfEngine.semanticResults options)))
                (TfIdfEngine.keywordWeight options)
                (TfIdfEngine.semanticWeight options)))
  /\ EnsembleEngine.keywordSearch that query k = (that, Ok [])
  /\ EnsembleEngine.semanticSearch that query k
     = Ok (map EnsembleEngine.semanticResult
             (semanticHits (EnsembleEngine.vectorStore that) query k))
  /\ EnsembleEngine.hybridSearch that query options'
     = (that,
        Ok (map EnsembleEngine.tagHybrid
              (map EnsembleEngine.semanticResult
                 (semanticHits (EnsembleEngine.vectorStore that) query
                    (EnsembleEngine.maxResults options'))))).
Proof.
  intros Hthis Hthat.
  assert (Hsem : forall n, TfIdfEngine.semanticSearch this query n
                 = Ok (map TfIdfEngine.tagSemantic
                         (semanticHits (TfIdfEngine.vectorStore this) query n))).
  { intro n. unfold TfIdfEngine.semanticSearch, semanticHits.
    destruct (similaritySearch (TfIdfEngine.vectorStore this) query n); reflexivity. }
  assert (Hsem' : forall n, EnsembleEngine.semanticSearch that query n
                  = Ok (map EnsembleEngine.semanticResult
                          (semanticHits (EnsembleEngine.vectorStore that) query n))).
  { intro n. unfold EnsembleEngine.semanticSearch, semanticHits.
    destruct (similaritySearch (EnsembleEngine.vectorStore that) query n); reflexivity. }
  assert (Hkw : forall n, TfIdfEngine.keywordSearch this query n = Ok []).
  { intro n. unfold TfIdfEngine.keywordSearch. now rewrite Hthis. }
  repeat split.
  - apply Hkw.
  - apply Hsem.
  - unfold TfIdfEngine.hybridSearch. rewrite Hkw, Hsem. reflexivity.
  - unfold EnsembleEngine.keywordSearch. now rewrite Hthat.
  - apply Hsem'.
  - unfold EnsembleEngine.hybridSearch, EnsembleEngine.semanticFallback.
    rewrite Hthat, Hsem'. reflexivity.
Qed.

Lemma unindexed_searches_witness :
  TfIdfEngine.keywordSearch (Case := AsciiCase) (Measure := TermCount)
    (TfIdfEngine.new_HybridSearchEngine (constantStore [docA])) (str "apples") 5
  = Ok [].
Proof.
  exact (proj1 (unindexed_searches (Case := AsciiCase) (Measure := TermCount)
    (TfIdfEngine.new_HybridSearchEngine (constantStore [docA]))
    (EnsembleEngine.new_HybridSearchEngine (constantStore [docA]))
    (str "apples") 5 TfIdfEngine.defaultOptions EnsembleEngine.defaultOptions
    eq_refl eq_refl)).
Defined.

(** C4: when the call of the vector store throws, [semanticSearch]
    returns the empty list, and [hybridSearch] returns the fusion of
    the keyword results with an empty semantic list, cut to
    [maxResults]: every entry is a chunk of the keyword results with
    the score of its keyword ranks, and the list is not empty when the
    keyword search found something and [maxResults] is positive. *)
Theorem semantic_failure_degrades `{Case : CaseMapping} `{Measure : NaturalTfIdf}
  (this : TfIdfEngine.HybridSearchEngine) (query : jsstring)
  (options : TfIdfEngine.HybridOptions) :
  (forall k, exists error,
      similaritySearch (TfIdfEngine.vectorStore this) query k = Throw error) ->
  (forall k, TfIdfEngine.semanticSearch this query k = Ok [])
  /\ exists keywordHits fused,
       TfIdfEngine.keywordSearch this query (TfIdfEngine.keywordResults options)
       = Ok keywordHits
       /\ TfIdfEngine.hybridSearch this query options = Ok fused
       /\ fused = slice0 (TfIdfEngine.maxResults options)
                    (fuseResults keywordHits []
                       (TfIdfEngine.keywordWeight options)
                       (TfIdfEngine.semanticWeight options))
       /\ (forall r, In r fused ->
             In (getDocumentId r) (map getDocumentId keywordHits)
             /\ score r == contribution 60 (TfIdfEngine.keywordWeight options)
                             (getDocumentId r) keywordHits 0)
       /\ (keywordHits <> [] -> (0 < TfIdfEngine.maxResults options)%nat ->
           fused <> []).
Proof.
  intro Hthrow.
  assert (Hsem : forall k, TfIdfEngine.semanticSearch this query k = Ok []).
  { intro k. unfold TfIdfEngine.semanticSearch.
    destruct (Hthrow k) as [error ->]. reflexivity. }
  split; [exact Hsem|].
  destruct (keywordSearch_total this query (TfIdfEngine.keywordResults options))
    as [keywordHits Hkw].
  exists keywordHits. eexists. split; [exact Hkw|].
  split; [unfold TfIdfEngine.hybridSearch; rewrite Hkw, Hsem; reflexivity|].
  split; [reflexivity|]. split.
  - intros r Hr. apply fuseResults_keyword_only with (ws := TfIdfEngine.semanticWeight options).
    unfold slice0 in Hr.
    rewrite <- (firstn_skipn (TfIdfEngine.maxResults options)
                  (fuseResults keywordHits [] _ _)).
    apply in_or_app. now left.
  - intros Hne Hmax.
    pose proof (fuseResults_nonempty [] (TfIdfEngine.keywordWeight options)
                  (TfIdfEngine.semanticWeight options) Hne) as Hfused.
    destruct (fuseResults keywordHits [] _ _) as [|x xs]; [contradiction|].
    unfold slice0. destruct (TfIdfEngine.maxResults options); [lia|]. discriminate.
Qed.

Lemma semantic_failure_degrades_witness :
  exists first rest,
    TfIdfEngine.hybridSearch (Case := AsciiCase) (Measure := TermCount)
      (exampleEngine failingStore) (str "apples") TfIdfEngine.defaultOptions
    = Ok (first :: rest).
Proof.
  destruct (semantic_failure_degrades (Case := AsciiCase) (Measure := TermCount)
              (exampleEngine failingStore) (str "apples") TfIdfEngine.defaultOptions)
    as [_ [keywordHits [fused [Hkw [Hhybrid [_ [_ Hne]]]]]]].
  - intro k. eexists. reflexivity.
  - rewrite Hhybrid. destruct fused as [|first rest]; [|eauto].
    exfalso. apply Hne.
    + vm_compute in Hkw. injection Hkw as <-. discriminate.
    + vm_compute. lia.
    + reflexivity.
Defined.

(** The LangChain revision under the same failure: the ensemble rejects
    as a whole, the fallback is the semantic search, which finds
    nothing, and the keyword results do not reach the output. *)
Example ensemble_hybridSearch_with_failing_store :
  EnsembleEngine.isIndexed (exampleEnsembleEngine failingStore) = true
  /\ (exists r,
        snd (EnsembleEngine.keywordSearch (Case := AsciiCase) (Measure := TermCount)
               (exampleEnsembleEngine failingStore) (str "apples") 5) = Ok [r]
        /\ getDocumentId r = str "docA_0")
  /\ snd (EnsembleEngine.hybridSearch (Case := AsciiCase) (Measure := TermCount)
            (exampleEnsembleEngine failingStore) (str "apples")
            EnsembleEngine.defaultOptions) = Ok [].
Proof.
  split; [reflexivity|]. split; [|vm_compute; reflexivity].
  eexists. split; vm_compute; reflexivity.
Qed.

(** ** The question classifier *)

Import QuestionClassifier.

(** The pattern stage answers a greeting without the oracle: the call
    of the oracle would throw here. *)
Example hello_is_direct :
  classifyQuestion (Case := AsciiCase) (fun _ => Throw TypeError) (str "Hello") = Ok DIRECT
  /\ isLikelyGreeting (str " HELLO ") = true
  /\ isLikelyGreeting (str "hello there") = false
  /\ isPersonalQuestion (str "So, WHAT is your full name?") = true
  /\ isPersonalQuestion [20320; 26159; 35841; 63]%N = true.
Proof. repeat split; vm_compute; reflexivity. Qed.

Example report_question_is_search :
  classifyQuestion (Case := AsciiCase) (fun _ => Ok (str "SEARCH"))
    (str "What does the uploaded report say about revenue?") = Ok SEARCH
  /\ classifyQuestion (Case := AsciiCase) (fun _ => Ok (str " direct "))
       (str "What is gravity?") = Ok DIRECT.
Proof. split; vm_compute; reflexivity. Qed.

(** C5: for a question that the pattern stage does not match,
    [classifyQuestion] returns SEARCH when the oracle throws, and when
    the answer of the oracle, trimmed and in upper case, contains
    neither DIRECT nor SEARCH. *)
Theorem classifyQuestion_defaults_to_SEARCH `{Case : CaseMapping}
  (classificationChain : jsstring -> Result jsstring) (question : jsstring) :
  isLikelyGreeting question = false ->
  isPersonalQuestion question = false ->
  match classificationChain (String_trim question) with
  | Throw _ => True
  | Ok classification =>
      String_includes (toUpperCase (String_trim classification)) (str "DIRECT") = false
      /\ String_includes (toUpperCase (String_trim classification)) (str "SEARCH") = false
  end ->
  classifyQuestion classificationChain question = Ok SEARCH.
Proof.
  intros Hgreeting Hpersonal Hanswer. unfold classifyQuestion.
  rewrite Hgreeting, Hpersonal. simpl.
  destruct (classificationChain (String_trim question)) as [classification|error]; simpl.
  - destruct Hanswer as [-> ->]. reflexivity.
  - reflexivity.
Qed.

Lemma classifyQuestion_defaults_to_SEARCH_witness :
  classifyQuestion (Case := AsciiCase) (fun _ => Ok (str "  I am not sure. "))
    (str "What does the uploaded report say about revenue?") = Ok SEARCH
  /\ classifyQuestion (Case := AsciiCase) (fun _ => Throw (Error (str "timeout")))
       (str "What does the uploaded report say about revenue?") = Ok SEARCH.
Proof.
  split.
  - apply (classifyQuestion_defaults_to_SEARCH (Case := AsciiCase)); vm_compute; auto.
  - apply (classifyQuestion_defaults_to_SEARCH (Case := AsciiCase)); vm_compute; auto.
Defined.

(** ** [keywordSearch] *)

Lemma indexed_In {A : Type} (l : list A) (i j : nat) (x : A) :
  In (j, x) (indexed l i) <-> (i <= j)%nat /\ nth_error l (j - i) = Some x.
Proof.
  revert i. induction l as [|y l IH]; intro i; simpl.
  - split; [contradiction|]. intros [_ H]. destruct (j - i)%nat; discriminate.
  - rewrite IH. split.
    + intros [[= <- <-] | [Hle Hnth]].
      * rewrite Nat.sub_diag. split; [lia | reflexivity].
      * split; [lia|]. replace (j - i)%nat with (S (j - S i)) by lia. exact Hnth.
    + intros [Hle Hnth]. destruct (Nat.eq_dec i j) as [<- | Hne].
      * rewrite Nat.sub_diag in Hnth. injection Hnth as <-. now left.
      * right. split; [lia|].
        replace (j - i)%nat with (S (j - S i)) in Hnth by lia. exact Hnth.
Qed.


Section KeywordSearchFacts.
Context `{Case : CaseMapping} `{Measure : NaturalTfIdf}.
Variable index : TfIdf.
Variable queryTerms : list jsstring.

Lemma scoreDocuments_hits (documents : list SearchResult) (i : nat) :
  TfIdfEngine.scoreDocuments index queryTerms documents i
  = map (hitResult index queryTerms) (positiveHits index queryTerms documents i).
Proof.
  unfold positiveHits. revert i. induction documents as [|doc rest IH]; intro i; simpl.
  - reflexivity.
  - rewrite IH. destruct (Qlt_bool 0 (sumTfidf index queryTerms i)); reflexivity.
Qed.


Lemma sorted_scores (documents : list SearchResult) (k : nat) :
  slice0 k (Array_sort TfIdfEngine.byScore
              (TfIdfEngine.scoreDocuments index queryTerms documents 0))
  = map (hitResult index queryTerms)
        (slice0 k (Array_sort (byHitScore index queryTerms)
                     (positiveHits index queryTerms documents 0))).
Proof.
  rewrite scoreDocuments_hits.
  rewrite (Array_sort_map (hitResult index queryTerms)
             (byHitScore index queryTerms) TfIdfEngine.byScore)
    by reflexivity.
  unfold slice0. now rewrite firstn_map.
Qed.

Lemma sumTfidf_nil (i : nat) : sumTfidf index [] i = 0.
Proof. reflexivity. Qed.

End KeywordSearchFacts.

(** The hits of a query before the cut: the positions of the corpus
    above zero, sorted by the comparator. *)
Lemma sortedHits_In `{Measure : NaturalTfIdf} (index : TfIdf) (queryTerms : list jsstring)
  (documents : list SearchResult) (hit : nat * SearchResult) :
  In hit (Array_sort (byHitScore index queryTerms)
            (positiveHits index queryTerms documents 0))
  <-> nth_error documents (fst hit) = Some (snd hit)
      /\ 0 < sumTfidf index queryTerms (fst hit).
Proof.
  destruct hit as [i doc]. unfold positiveHits.
  rewrite Array_sort_In, filter_In, indexed_In, Qlt_bool_iff, Nat.sub_0_r. simpl.
  intuition lia.
Qed.

Lemma sortedHits_nil `{Measure : NaturalTfIdf} (index : TfIdf) (documents : list SearchResult) :
  Array_sort (byHitScore index []) (positiveHits index [] documents 0) = [].
Proof.
  destruct (Array_sort _ _) as [|hit rest] eqn:E; [reflexivity|].
  assert (Hhit : In hit (Array_sort (byHitScore index [])
                           (positiveHits index [] documents 0)))
    by (rewrite E; now left).
  apply sortedHits_In in Hhit. destruct Hhit as [_ Hpos].
  exfalso. exact (Qlt_irrefl 0 Hpos).
Qed.

(** What [keywordSearch] returns on an indexed engine. *)
Lemma keywordSearch_hits `{Case : CaseMapping} `{Measure : NaturalTfIdf}
  (this : TfIdfEngine.HybridSearchEngine) (query : jsstring) (k : nat) :
  TfIdfEngine.isIndexed this = true ->
  exists processedQuery,
    preprocessText (JsString query) = Ok processedQuery
    /\ TfIdfEngine.keywordSearch this query k
       = Ok (map (hitResult (TfIdfEngine.tfidf this) (splitTerms processedQuery))
               (slice0 k
                  (Array_sort
                     (byHitScore (TfIdfEngine.tfidf this) (splitTerms processedQuery))
                     (positiveHits (TfIdfEngine.tfidf this) (splitTerms processedQuery)
                        (TfIdfEngine.documents this) 0)))).
Proof.
  intro Hindexed.
  destruct (preprocessText_total (JsString query)) as [processedQuery Hquery].
  exists processedQuery. split; [exact Hquery|].
  unfold TfIdfEngine.keywordSearch. rewrite Hindexed, Hquery. simpl.
  destruct (length (splitTerms processedQuery) =? 0)%nat eqn:E.
  - apply Nat.eqb_eq, length_zero_iff_nil in E.
    rewrite E, sortedHits_nil. unfold slice0. now rewrite firstn_nil.
  - f_equal. apply sorted_scores.
Qed.



(** The first scenario: of the chunks "apples are red" and "bananas are
    yellow" the query for apples returns the first only, and a query of
    punctuation returns nothing. *)
Example keywordSearch_apples :
  (exists r,
     TfIdfEngine.keywordSearch (Case := AsciiCase) (Measure := TermCount)
       (exampleEngine (constantStore [])) (str "Apples, apples!") 5 = Ok [r]
     /\ getDocumentId r = str "docA_0" /\ 0 < score r
     /\ searchType r = Some keyword)
  /\ TfIdfEngine.keywordSearch (Case := AsciiCase) (Measure := TermCount)
       (exampleEngine (constantStore [])) (str " ?! ... ") 5 = Ok []
  /\ preprocessText (Case := AsciiCase) (JsString (str "  Apples,  APPLES!are_red ")) 
     = Ok (str "apples apples are_red").
Proof.
  split; [eexists; split; [vm_compute; reflexivity|]; repeat split; vm_compute; reflexivity|].
  split; vm_compute; reflexivity.
Qed.

(** ** Chunks without text *)

Section TextlessFacts.
Context `{Case : CaseMapping} `{Measure : NaturalTfIdf}.



Lemma indexDocuments_texts (documents : list SearchResult) (index : TfIdf) :
  forEachM TfIdfEngine.indexDocument documents index
  = Ok {| tfidf_documents := tfidf_documents index ++ map processedOf documents |}.
Proof.
  revert index. induction documents as [|doc rest IH]; intro index; simpl.
  - rewrite app_nil_r. now destruct index.
  - unfold TfIdfEngine.indexDocument at 1, processedOf at 1.
    destruct (preprocessText_total (TfIdfEngine.documentContent doc)) as [text ->].
    simpl. rewrite IH. unfold addDocument. simpl. now rewrite <- app_assoc.
Qed.


End TextlessFacts.




(** ** [extractSources] *)

Import QueryEngine.

Lemma Map_set_set {V : Type} (m : JsMap V) (key : jsstring) (v v' : V) :
  Map_set (Map_set m key v) key v' = Map_set m key v'.
Proof.
  induction m as [|[k x] m IH]; simpl.
  - now rewrite jsstring_eqb_refl.
  - destruct (jsstring_eqb k key) eqn:E; simpl; rewrite E; [reflexivity|].
    now rewrite IH.
Qed.

Lemma collectSource_wellFormed (sourceMap : JsMap SourceGroup) (result : SearchResult) :
  wellFormedResult result ->
  collectSource sourceMap result = Ok (collected sourceMap result).
Proof.
  intros [Hmeta Hcontent]. unfold collectSource, collected, sourceKey, toSourceChunk.
  destruct (metadata result) as [md|] eqn:Emd; [|contradiction]. simpl.
  destruct (resultContent result) as [| | | | s |] eqn:Ec; simpl in Hcontent;
    try discriminate. simpl. unfold Map_has.
  set (key := string_or (source md) (str "Unknown")).
  destruct (Map_get sourceMap key) as [group|] eqn:Eg; simpl.
  - rewrite Eg. reflexivity.
  - rewrite Map_get_set_same, Map_set_set. unfold newGroup, sourceKey.
    rewrite Emd. reflexivity.
Qed.

Lemma extractSources_map (searchResults : list SearchResult) (sourceMap : JsMap SourceGroup) :
  Forall wellFormedResult searchResults ->
  forEachM collectSource searchResults sourceMap
  = Ok (fold_left collected searchResults sourceMap).
Proof.
  intro H. revert sourceMap. induction H as [|r rest Hr Hrest IH]; intro sourceMap; simpl.
  - reflexivity.
  - rewrite (collectSource_wellFormed _ Hr). simpl. apply IH.
Qed.

Lemma collected_keys (results : list SearchResult) (m : JsMap SourceGroup) :
  Map_keys (fold_left collected results m)
  = Map_keys m ++ firstSeen (Map_keys m) (map sourceKey results).
Proof.
  revert m. induction results as [|r results IH]; intro m; simpl.
  - now rewrite app_nil_r.
  - rewrite IH. unfold collected. rewrite Map_keys_set. unfold Map_has.
    destruct (Map_get m (sourceKey r)) eqn:E.
    + apply Map_get_In, Map_In_keys in E.
      now rewrite (proj2 (existsb_eqb_In _ _) E).
    + apply Map_get_None in E.
      assert (X : existsb (jsstring_eqb (sourceKey r)) (Map_keys m) = false).
      { apply not_true_is_false. intro X. now apply existsb_eqb_In in X. }
      rewrite X, <- app_assoc. simpl. f_equal. f_equal.
      apply firstSeen_ext. intro x. rewrite in_app_iff. simpl. tauto.
Qed.

Lemma collected_NoDup (results : list SearchResult) (m : JsMap SourceGroup) :
  NoDup (Map_keys m) -> NoDup (Map_keys (fold_left collected results m)).
Proof.
  revert m. induction results as [|r results IH]; intros m H; simpl.
  - exact H.
  - apply IH. unfold collected. now apply Map_keys_set_NoDup.
Qed.

Lemma pushAll_pushChunk (group : SourceGroup) (item : SourceChunk)
  (items : list SourceChunk) :
  pushAll (pushChunk group item) items = pushAll group (item :: items).
Proof. unfold pushAll, pushChunk. simpl. now rewrite <- app_assoc. Qed.

Lemma pushAll_nil (group : SourceGroup) : pushAll group [] = group.
Proof. unfold pushAll. rewrite app_nil_r. now destruct group. Qed.

(** The group of a source in the map when the loop is done. *)
Lemma collected_get (results : list SearchResult) (m : JsMap SourceGroup)
  (key : jsstring) :
  Map_get (fold_left collected results m) key
  = match Map_get m key with
    | Some group => Some (pushAll group (map toSourceChunk (ofSource key results)))
    | None =>
        match find (fun r => jsstring_eqb (sourceKey r) key) results with
        | Some first =>
            Some (pushAll (newGroup first) (map toSourceChunk (ofSource key results)))
        | None => None
        end
    end.
Proof.
  revert m. induction results as [|r results IH]; intro m; simpl.
  - destruct (Map_get m key); [now rewrite pushAll_nil | reflexivity].
  - rewrite IH. unfold collected.
    destruct (jsstring_eqb (sourceKey r) key) eqn:E.
    + apply jsstring_eqb_eq in E. subst key.
      rewrite Map_get_set_same, pushAll_pushChunk.
      now destruct (Map_get m (sourceKey r)).
    + apply jsstring_eqb_neq in E. now rewrite Map_get_set_other.
Qed.

Lemma byChunkIndex_key (a b : SourceChunk) :
  byChunkIndex a b ==
  inject_Z (Z.of_N (sourceChunkIndex a)) - inject_Z (Z.of_N (sourceChunkIndex b)).
Proof. reflexivity. Qed.

Lemma sortChunks_sorted (group : SourceGroup) :
  StronglySorted (fun a b => (sourceChunkIndex a <= sourceChunkIndex b)%N)
    (chunks (sortChunks group)).
Proof.
  simpl. eapply StronglySorted_weaken; [|apply (Array_sort_sorted byChunkIndex_key)].
  intros a b _ _ Hle. unfold key_le in Hle.
  rewrite <- Zle_Qle in Hle. lia.
Qed.

(** C8: for every list of results that have metadata and a string as
    content, [extractSources] returns one group for each source, in the
    order in which the sources are first met; the chunks of a group are
    those of the results of its source, in ascending order of
    [chunkIndex], and the group has the file type and the processing
    time of the first result of its source. *)
Theorem extractSources_groups (searchResults : list SearchResult) :
  Forall wellFormedResult searchResults ->
  exists groups,
    extractSources searchResults = Ok groups
    /\ map filename groups = firstSeen [] (map sourceKey searchResults)
    /\ Forall
         (fun group =>
            StronglySorted (fun a b => (sourceChunkIndex a <= sourceChunkIndex b)%N)
              (chunks group)
            /\ Permutation (chunks group)
                 (map toSourceChunk (ofSource (filename group) searchResults))
            /\ exists first,
                 find (fun r => jsstring_eqb (sourceKey r) (filename group))
                      searchResults = Some first
                 /\ groupFileType group
                    = string_or (fileType (metadata_or_empty (metadata first)))
                        (str "unknown")
                 /\ groupProcessedAt group
                    = processedAt (metadata_or_empty (metadata first)))
         groups.
Proof.
  intro Hwell. unfold extractSources.
  rewrite (extractSources_map [] Hwell). simpl.
  set (final := fold_left collected searchResults []).
  assert (Hnd : NoDup (Map_keys final)) by (apply collected_NoDup; constructor).
  assert (Hgroup : forall key group, In (key, group) final ->
            exists first,
              find (fun r => jsstring_eqb (sourceKey r) key) searchResults = Some first
              /\ group = pushAll (newGroup first)
                           (map toSourceChunk (ofSource key searchResults))).
  { intros key group Hin. apply (Map_In_get _ _ _ Hnd) in Hin.
    unfold final in Hin. rewrite collected_get in Hin. simpl in Hin.
    destruct (find _ searchResults) as [first|]; [|discriminate].
    injection Hin as <-. now exists first. }
  assert (Hname : forall key group, In (key, group) final -> filename group = key).
  { intros key group Hin. destruct (Hgroup key group Hin) as [first [Hfind ->]].
    apply find_some in Hfind. destruct Hfind as [_ E].
    apply jsstring_eqb_eq in E. exact E. }
  eexists. split; [reflexivity|]. split.
  - rewrite map_map. simpl.
    transitivity (Map_keys final).
    + unfold Map_values, Map_keys. rewrite map_map.
      apply map_ext_in. intros [key group] Hin. simpl. now apply Hname.
    + unfold final. now rewrite collected_keys.
  - apply Forall_forall. intros sortedGroup Hin.
    apply in_map_iff in Hin. destruct Hin as [group [<- Hin]].
    unfold Map_values in Hin. apply in_map_iff in Hin.
    destruct Hin as [[key group'] [Heq Hin]]. simpl in Heq. subst group'.
    pose proof (Hname key group Hin) as Hkey.
    destruct (Hgroup key group Hin) as [first [Hfind Hshape]].
    split; [apply sortChunks_sorted|]. split.
    + simpl. rewrite Hkey.
      eapply perm_trans; [apply Array_sort_perm|].
      rewrite Hshape. simpl. apply Permutation_refl.
    + exists first. simpl. rewrite Hkey. split; [exact Hfind|].
      rewrite Hshape. split; reflexivity.
Qed.

Lemma extractSources_groups_witness :
  exists groups,
    extractSources scatteredResults = Ok groups
    /\ map filename groups = [str "b.pdf"; str "a.txt"]
    /\ map (fun group => map sourceChunkIndex (chunks group)) groups
       = [[1; 3; 5]%N; [1; 3]%N]
    /\ map groupFileType groups = [str "pdf"; str "txt"].
Proof.
  assert (Hwell : Forall wellFormedResult scatteredResults).
  { repeat constructor; simpl; discriminate. }
  destruct (extractSources_groups Hwell) as [groups [Hrun _]].
  exists groups. split; [exact Hrun|].
  vm_compute in Hrun. injection Hrun as <-.
  repeat split; reflexivity.
Defined.

(** * Part III: further properties of the code *)

(** ** The order of the fused output *)

Lemma firstSeen_app (seen a b : list jsstring) :
  firstSeen seen (a ++ b) = firstSeen seen a ++ firstSeen (seen ++ a) b.
Proof.
  revert seen. induction a as [|x a IH]; intro seen; simpl.
  - now rewrite app_nil_r.
  - destruct (existsb (jsstring_eqb x) seen) eqn:E.
    + rewrite IH. f_equal. apply firstSeen_ext. intro y.
      rewrite !in_app_iff. simpl. apply existsb_eqb_In in E.
      split; [tauto|]. intros [Hy | [<- | Hy]]; auto.
    + simpl. f_equal. rewrite IH. f_equal. apply firstSeen_ext. intro y.
      simpl. rewrite !in_app_iff. simpl. tauto.
Qed.

Lemma firstSeen_In (seen l : list jsstring) (x : jsstring) :
  In x (firstSeen seen l) <-> In x l /\ ~ In x seen.
Proof.
  revert seen. induction l as [|y l IH]; intro seen; simpl.
  - tauto.
  - destruct (existsb (jsstring_eqb y) seen) eqn:E.
    + apply existsb_eqb_In in E. rewrite IH.
      split; [tauto|]. intros [[<- | H] Hn]; [contradiction | tauto].
    + assert (Hy : ~ In y seen).
      { intro Hin. apply existsb_eqb_In in Hin. congruence. }
      simpl. rewrite IH. simpl.
      destruct (list_eq_dec N.eq_dec y x) as [<- | Hne]; [tauto|].
      split; [tauto|]. intros [[Heq | H] Hn]; [contradiction | right; tauto].
Qed.

Lemma fuseMap_keys kw sem wk ws :
  Map_keys (fuseMap kw sem wk ws) = encounterOrder kw sem.
Proof.
  unfold fuseMap, encounterOrder.
  rewrite (forEach_keys (semanticCallback_shape ws)).
  rewrite (forEach_keys (keywordCallback_shape wk)). simpl.
  rewrite map_app, firstSeen_app. simpl. f_equal.
  apply firstSeen_ext. intro x. rewrite firstSeen_In. simpl. tauto.
Qed.

Lemma positionIn_sorted (l : list jsstring) :
  NoDup l ->
  StronglySorted (fun a b => (positionIn a l < positionIn b l)%nat) l.
Proof.
  induction 1 as [|x l Hx Hnd IH]; [constructor|].
  constructor.
  - eapply StronglySorted_weaken; [|exact IH].
    intros a b Ha Hb Hlt. cbn [positionIn].
    destruct (jsstring_eqb x a) eqn:Ea;
      [apply jsstring_eqb_eq in Ea; subst; contradiction|].
    destruct (jsstring_eqb x b) eqn:Eb;
      [apply jsstring_eqb_eq in Eb; subst; contradiction|].
    cbv beta in Hlt. lia.
  - apply Forall_forall. intros y Hy. cbn [positionIn]. rewrite jsstring_eqb_refl.
    destruct (jsstring_eqb x y) eqn:E;
      [apply jsstring_eqb_eq in E; subst; contradiction | lia].
Qed.

Lemma StronglySorted_unmap {A B : Type} (R : B -> B -> Prop) (f : A -> B) (l : list A) :
  StronglySorted R (map f l) -> StronglySorted (fun a b => R (f a) (f b)) l.
Proof.
  induction l as [|x l IH]; simpl; intro H; [constructor|].
  inversion H as [|? ? Hl Hx]; subst. constructor; [now apply IH|].
  apply Forall_forall. intros y Hy. rewrite Forall_forall in Hx.
  apply Hx. now apply in_map.
Qed.

(** X1: the output of [fuseResults] is in the order of falling fused
    score, and entries of equal score are in the order in which the
    fusion met their chunks: the keyword list first, then the semantic
    list. *)
Theorem fuseResults_order (kw sem : list SearchResult) (wk ws : Q) :
  StronglySorted
    (fun a b =>
       score b < score a
       \/ (score a == score b
           /\ (positionIn (getDocumentId a) (encounterOrder kw sem)
               < positionIn (getDocumentId b) (encounterOrder kw sem))%nat))
    (fuseResults kw sem wk ws)
  /\ Permutation (map getDocumentId (fuseResults kw sem wk ws)) (encounterOrder kw sem).
Proof.
  split; [|rewrite <- (fuseMap_keys kw sem wk ws); apply fuseResults_ids].
  unfold fuseResults. apply StronglySorted_map.
  pose proof (fuseMap_wellKeyed kw sem wk ws) as Hwell.
  pose proof (wellKeyed_ids Hwell) as Hids.
  destruct Hwell as [Hnd _].
  rewrite fuseMap_keys in Hids, Hnd.
  eapply StronglySorted_weaken;
    [| apply (Array_sort_ranked byFusedScore_key
               (fun e => positionIn (getDocumentId (spread e)) (encounterOrder kw sem))) ].
  - intros a b _ _ [Hlt | [Heq Hpos]]; simpl.
    + left. apply Qopp_lt_compat in Hlt. now rewrite !Qopp_involutive in Hlt.
    + right. split; [|exact Hpos].
      pose proof (Qopp_comp _ _ Heq) as Hsame.
      now rewrite !Qopp_involutive in Hsame.
  - apply (@StronglySorted_unmap _ _
             (fun a b => (positionIn a (encounterOrder kw sem)
                          < positionIn b (encounterOrder kw sem))%nat)
             (fun e => getDocumentId (spread e))).
    rewrite Hids. now apply positionIn_sorted.
Qed.

(** ** The provenance of a fused result *)

Lemma keywordCallback_get (w : Q) (m : JsMap FusedEntry) (r : SearchResult)
  (i : nat) (d : jsstring) :
  Map_get (keywordCallback w m r i) d =
  if jsstring_eqb (getDocumentId r) d then
    Some match Map_get m d with
         | Some existing =>
             {| spread := spread existing;
                fusedScore := fusedScore existing + w / Qnat (k + i + 1);
                entryKeywordRank := Some (i + 1)%nat;
                entryKeywordScore := Some (score r);
                entrySemanticRank := entrySemanticRank existing;
                entrySemanticScore := entrySemanticScore existing |}
         | None =>
             {| spread := r;
                fusedScore := w / Qnat (k + i + 1);
                entryKeywordRank := Some (i + 1)%nat;
                entryKeywordScore := Some (score r);
                entrySemanticRank := None;
                entrySemanticScore := None |}
         end
  else Map_get m d.
Proof.
  unfold keywordCallback.
  destruct (jsstring_eqb (getDocumentId r) d) eqn:E.
  - apply jsstring_eqb_eq in E. subst d.
    destruct (Map_get m (getDocumentId r)); now rewrite Map_get_set_same.
  - apply jsstring_eqb_neq in E.
    destruct (Map_get m (getDocumentId r)); now rewrite Map_get_set_other.
Qed.

Lemma semanticCallback_get (w : Q) (m : JsMap FusedEntry) (r : SearchResult)
  (i : nat) (d : jsstring) :
  Map_get (semanticCallback w m r i) d =
  if jsstring_eqb (getDocumentId r) d then
    Some match Map_get m d with
         | Some existing =>
             {| spread := spread existing;
                fusedScore := fusedScore existing + w / Qnat (k + i + 1);
                entryKeywordRank := entryKeywordRank existing;
                entryKeywordScore := entryKeywordScore existing;
                entrySemanticRank := Some (i + 1)%nat;
                entrySemanticScore := Some (score r) |}
         | None =>
             {| spread := r;
                fusedScore := w / Qnat (k + i + 1);
                entryKeywordRank := None;
                entryKeywordScore := None;
                entrySemanticRank := Some (i + 1)%nat;
                entrySemanticScore := Some (score r) |}
         end
  else Map_get m d.
Proof.
  unfold semanticCallback.
  destruct (jsstring_eqb (getDocumentId r) d) eqn:E.
  - apply jsstring_eqb_eq in E. subst d.
    destruct (Map_get m (getDocumentId r)); now rewrite Map_get_set_same.
  - apply jsstring_eqb_neq in E.
    destruct (Map_get m (getDocumentId r)); now rewrite Map_get_set_other.
Qed.

(** The entry of [d] after the keyword loop, from the entry before it. *)
Lemma keyword_pass_get (w : Q) (l : list SearchResult) (i : nat)
  (m : JsMap FusedEntry) (d : jsstring) :
  match Map_get (forEach (keywordCallback w) l i m) d with
  | Some e =>
      match Map_get m d with
      | Some e0 =>
          spread e = spread e0
          /\ entrySemanticRank e = entrySemanticRank e0
          /\ entrySemanticScore e = entrySemanticScore e0
          /\ match lastOccurrence d l i with
             | Some found =>
                 entryKeywordRank e = Some (fst found)
                 /\ entryKeywordScore e = Some (score (snd found))
             | None =>
                 entryKeywordRank e = entryKeywordRank e0
                 /\ entryKeywordScore e = entryKeywordScore e0
             end
      | None =>
          firstOccurrence d l = Some (spread e)
          /\ entrySemanticRank e = None
          /\ entrySemanticScore e = None
          /\ exists found,
               lastOccurrence d l i = Some found
               /\ entryKeywordRank e = Some (fst found)
               /\ entryKeywordScore e = Some (score (snd found))
      end
  | None =>
      Map_get m d = None /\ firstOccurrence d l = None /\ lastOccurrence d l i = None
  end.
Proof.
  revert i m. induction l as [|r l IH]; intros i m.
  - simpl. destruct (Map_get m d); auto.
  - cbn [forEach]. specialize (IH (S i) (keywordCallback w m r i)).
    rewrite keywordCallback_get in IH. unfold firstOccurrence in *.
    cbn [lastOccurrence find].
    destruct (Map_get (forEach (keywordCallback w) l (S i) (keywordCallback w m r i)) d)
      as [e|];
      destruct (jsstring_eqb (getDocumentId r) d) eqn:E;
      destruct (Map_get m d) as [e0|];
      destruct (lastOccurrence d l (S i)) as [found|];
      simpl in IH |- *; try tauto;
      try (destruct IH as [? [? [? [? ?]]]]; try discriminate;
           repeat split; try congruence; eauto; fail).
    all: destruct IH as [IH _]; discriminate.
Qed.

(** The entry of [d] after the semantic loop, from the entry before it. *)
Lemma semantic_pass_get (w : Q) (l : list SearchResult) (i : nat)
  (m : JsMap FusedEntry) (d : jsstring) :
  match Map_get (forEach (semanticCallback w) l i m) d with
  | Some e =>
      match Map_get m d with
      | Some e0 =>
          spread e = spread e0
          /\ entryKeywordRank e = entryKeywordRank e0
          /\ entryKeywordScore e = entryKeywordScore e0
          /\ match lastOccurrence d l i with
             | Some found =>
                 entrySemanticRank e = Some (fst found)
                 /\ entrySemanticScore e = Some (score (snd found))
             | None =>
                 entrySemanticRank e = entrySemanticRank e0
                 /\ entrySemanticScore e = entrySemanticScore e0
             end
      | None =>
          firstOccurrence d l = Some (spread e)
          /\ entryKeywordRank e = None
          /\ entryKeywordScore e = None
          /\ exists found,
               lastOccurrence d l i = Some found
               /\ entrySemanticRank e = Some (fst found)
               /\ entrySemanticScore e = Some (score (snd found))
      end
  | None =>
      Map_get m d = None /\ firstOccurrence d l = None /\ lastOccurrence d l i = None
  end.
Proof.
  revert i m. induction l as [|r l IH]; intros i m.
  - simpl. destruct (Map_get m d); auto.
  - cbn [forEach]. specialize (IH (S i) (semanticCallback w m r i)).
    rewrite semanticCallback_get in IH. unfold firstOccurrence in *.
    cbn [lastOccurrence find].
    destruct (Map_get (forEach (semanticCallback w) l (S i) (semanticCallback w m r i)) d)
      as [e|];
      destruct (jsstring_eqb (getDocumentId r) d) eqn:E;
      destruct (Map_get m d) as [e0|];
      destruct (lastOccurrence d l (S i)) as [found|];
      simpl in IH |- *; try tauto;
      try (destruct IH as [? [? [? [? ?]]]]; try discriminate;
           repeat split; try congruence; eauto; fail).
    all: destruct IH as [IH _]; discriminate.
Qed.

Lemma find_app {A : Type} (p : A -> bool) (a b : list A) :
  find p (a ++ b) = match find p a with Some x => Some x | None => find p b end.
Proof.
  induction a as [|x a IH]; simpl; [reflexivity|]. now destruct (p x).
Qed.

(** X2: an entry of the output of [fuseResults] carries the content and
    the metadata of the first result of its chunk that the fusion meets
    (the keyword list before the semantic list), the keyword rank and
    score of the last result of its chunk in the keyword list, and the
    semantic rank and score of the last one in the semantic list; a
    list without the chunk leaves rank and score null. *)
Theorem fuseResults_provenance (kw sem : list SearchResult) (wk ws : Q)
  (r : SearchResult) :
  In r (fuseResults kw sem wk ws) ->
  (exists first,
     firstOccurrence (getDocumentId r) (kw ++ sem) = Some first
     /\ content r = content first
     /\ metadata r = metadata first)
  /\ keywordRank r = option_map fst (lastOccurrence (getDocumentId r) kw 0)
  /\ keywordScore r
     = option_map (fun found => score (snd found))
         (lastOccurrence (getDocumentId r) kw 0)
  /\ semanticRank r = option_map fst (lastOccurrence (getDocumentId r) sem 0)
  /\ semanticScore r
     = option_map (fun found => score (snd found))
         (lastOccurrence (getDocumentId r) sem 0)
  /\ searchType r = Some hybrid.
Proof.
  unfold fuseResults. intro H. apply in_map_iff in H.
  destruct H as [e [<- He]].
  apply (proj1 (Array_sort_In _ _ _)) in He.
  unfold Map_values in He. apply in_map_iff in He.
  destruct He as [[d e'] [Heq Hin]]. simpl in Heq. subst e'.
  destruct (fuseMap_wellKeyed kw sem wk ws) as [Hnd Hkey].
  pose proof (Hkey d e Hin) as Hd.
  pose proof (Map_In_get _ _ _ Hnd Hin) as Hget.
  rewrite toHybridResult_id, <- Hd. clear Hkey Hnd Hin Hd.
  unfold fuseMap in Hget.
  pose proof (semantic_pass_get ws sem 0
                (forEach (keywordCallback wk) kw 0%nat []) d) as Hsem.
  rewrite Hget in Hsem.
  pose proof (keyword_pass_get wk kw 0 [] d) as Hkw.
  unfold firstOccurrence in *. rewrite find_app. simpl.
  destruct (Map_get (forEach (keywordCallback wk) kw 0%nat []) d) as [e1|].
  - simpl in Hkw. destruct Hkw as [Hfirst [Hr1 [Hs1 [found [Hlast [Hk Hks]]]]]].
    destruct Hsem as [Hspread [Hkr [Hksc Hlastsem]]].
    rewrite Hfirst, Hlast. simpl.
    split; [exists (spread e1); rewrite Hspread; auto|].
    split; [congruence|]. split; [congruence|].
    destruct (lastOccurrence d sem 0) as [found'|]; simpl;
      destruct Hlastsem as [Ha Hb]; repeat split; congruence.
  - simpl in Hkw. destruct Hkw as [_ [Hnone Hlast]].
    destruct Hsem as [Hfirst [Hkr [Hksc [found [Hlastsem [Ha Hb]]]]]].
    rewrite Hnone, Hlast, Hfirst, Hlastsem. simpl.
    split; [exists (spread e); auto|]. repeat split; assumption.
Qed.

Lemma fuseResults_provenance_witness :
  exists r,
    In r (fuseResults [docA; docB; docA] [docB] (3 # 10) (7 # 10))
    /\ keywordRank r
       = option_map fst (lastOccurrence (getDocumentId r) [docA; docB; docA] 0).
Proof.
  assert (X : exists r, nth_error (fuseResults [docA; docB; docA] [docB]
                                     (3 # 10) (7 # 10)) 0 = Some r)
    by (eexists; reflexivity).
  destruct X as [r Hr]. exists r.
  split; [exact (nth_error_In _ _ Hr)|].
  exact (proj1 (proj2 (fuseResults_provenance _ _ _ _ r (nth_error_In _ _ Hr)))).
Defined.

(** ** [hybridSearch] of the TF-IDF revision *)

Lemma semanticSearch_hits (this : TfIdfEngine.HybridSearchEngine)
  (query : jsstring) (n : nat) :
  TfIdfEngine.semanticSearch this query n
  = Ok (map TfIdfEngine.tagSemantic
          (semanticHits (TfIdfEngine.vectorStore this) query n)).
Proof.
  unfold TfIdfEngine.semanticSearch, semanticHits.
  destruct (similaritySearch (TfIdfEngine.vectorStore this) query n); reflexivity.
Qed.

Lemma NoDup_firstn {A : Type} (n : nat) (l : list A) :
  NoDup l -> NoDup (firstn n l).
Proof.
  intro H. rewrite <- (firstn_skipn n l) in H. now apply NoDup_app_remove_r in H.
Qed.

Lemma fuseResults_tagged kw sem wk ws r :
  In r (fuseResults kw sem wk ws) -> searchType r = Some hybrid.
Proof.
  unfold fuseResults. intro H. apply in_map_iff in H.
  now destruct H as [e [<- _]].
Qed.

(** X3: [hybridSearch] never throws, whatever the state of the engine
    and of the vector store.  It returns at most [maxResults] results,
    all tagged hybrid, no two of the same chunk, and each of a chunk
    that the keyword search or the semantic search returned. *)
Theorem hybridSearch_bounded `{Case : CaseMapping} `{Measure : NaturalTfIdf}
  (this : TfIdfEngine.HybridSearchEngine) (query : jsstring)
  (options : TfIdfEngine.HybridOptions) :
  exists keywordHits semanticFound fused,
    TfIdfEngine.keywordSearch this query (TfIdfEngine.keywordResults options)
    = Ok keywordHits
    /\ TfIdfEngine.semanticSearch this query (TfIdfEngine.semanticResults options)
       = Ok semanticFound
    /\ TfIdfEngine.hybridSearch this query options = Ok fused
    /\ (length fused <= TfIdfEngine.maxResults options)%nat
    /\ NoDup (map getDocumentId fused)
    /\ Forall (fun r =>
                 searchType r = Some hybrid
                 /\ (In (getDocumentId r) (map getDocumentId keywordHits)
                     \/ In (getDocumentId r) (map getDocumentId semanticFound)))
              fused.
Proof.
  destruct (keywordSearch_total this query (TfIdfEngine.keywordResults options))
    as [keywordHits Hkw].
  exists keywordHits. eexists. eexists.
  split; [exact Hkw|]. split; [apply semanticSearch_hits|].
  split; [unfold TfIdfEngine.hybridSearch; rewrite Hkw, semanticSearch_hits;
          reflexivity|].
  unfold slice0. split; [apply firstn_le_length|].
  split.
  - rewrite <- firstn_map. apply NoDup_firstn, fuseResults_NoDup.
  - apply Forall_forall. intros r Hr. apply firstn_In in Hr.
    split; [eapply fuseResults_tagged, Hr|].
    apply (fuseResults_ids_In keywordHits _ (TfIdfEngine.keywordWeight options)
             (TfIdfEngine.semanticWeight options)).
    now apply in_map.
Qed.

(** ** The two implementations of the fusion *)

Section SameMaps.
Import EnsembleEngine.

Lemma sameBinding_get m1 m2 (d : jsstring) :
  Forall2 sameBinding m1 m2 ->
  match Map_get m1 d, Map_get m2 d with
  | Some a, Some b => sameEntry a b
  | None, None => True
  | _, _ => False
  end.
Proof.
  induction 1 as [|[k1 a] [k2 b] m1 m2 [Hk Hab] Hrest IH]; simpl; [exact I|].
  simpl in Hk. subst k2. now destruct (jsstring_eqb k1 d).
Qed.

Lemma sameBinding_set m1 m2 (d : jsstring) a b :
  Forall2 sameBinding m1 m2 -> sameEntry a b ->
  Forall2 sameBinding (Map_set m1 d a) (Map_set m2 d b).
Proof.
  intros H Hab. induction H as [|[k1 x] [k2 y] m1 m2 [Hk Hxy] Hrest IH]; simpl.
  - constructor; [split; [reflexivity | exact Hab] | constructor].
  - simpl in Hk. subst k2. destruct (jsstring_eqb k1 d).
    + constructor; [split; [reflexivity | exact Hab] | exact Hrest].
    + constructor; [split; [reflexivity | exact Hxy] | exact IH].
Qed.

Lemma rank_keyword_step (w : Q) m1 m2 r i :
  Forall2 sameBinding m1 m2 ->
  Forall2 sameBinding (rankCallback w m1 r i) (keywordCallback w m2 r i).
Proof.
  intro H. pose proof (sameBinding_get (getDocumentId r) H) as Hget.
  unfold rankCallback, keywordCallback.
  destruct (Map_get m1 (getDocumentId r)) as [a|],
           (Map_get m2 (getDocumentId r)) as [b|]; try contradiction;
    apply sameBinding_set; try exact H; unfold sameEntry; simpl.
  - destruct Hget as [-> ->]. split; reflexivity.
  - split; reflexivity.
Qed.

Lemma rank_semantic_step (w : Q) m1 m2 r i :
  Forall2 sameBinding m1 m2 ->
  Forall2 sameBinding (rankCallback w m1 r i) (semanticCallback w m2 r i).
Proof.
  intro H. pose proof (sameBinding_get (getDocumentId r) H) as Hget.
  unfold rankCallback, semanticCallback.
  destruct (Map_get m1 (getDocumentId r)) as [a|],
           (Map_get m2 (getDocumentId r)) as [b|]; try contradiction;
    apply sameBinding_set; try exact H; unfold sameEntry; simpl.
  - destruct Hget as [-> ->]. split; reflexivity.
  - split; reflexivity.
Qed.

Lemma rankMap_fuseMap (kw sem : list SearchResult) (wk ws : Q) :
  Forall2 sameBinding (rankMap [wk; ws] [kw; sem]) (fuseMap kw sem wk ws).
Proof.
  unfold rankMap, fuseMap. cbn [forEach]. unfold retrieverCallback. cbn [nth].
  assert (Hkw : forall l i m1 m2, Forall2 sameBinding m1 m2 ->
            Forall2 sameBinding (forEach (rankCallback wk) l i m1)
                                (forEach (keywordCallback wk) l i m2)).
  { induction l as [|r l IH]; intros i m1 m2 H; simpl; [exact H|].
    apply IH. now apply rank_keyword_step. }
  assert (Hsem : forall l i m1 m2, Forall2 sameBinding m1 m2 ->
            Forall2 sameBinding (forEach (rankCallback ws) l i m1)
                                (forEach (semanticCallback ws) l i m2)).
  { induction l as [|r l IH]; intros i m1 m2 H; simpl; [exact H|].
    apply IH. now apply rank_semantic_step. }
  apply Hsem, Hkw. constructor.
Qed.

Lemma sort_insert_same x y l1 l2 :
  sameEntry x y -> Forall2 sameEntry l1 l2 ->
  Forall2 sameEntry (sort_insert byRankedScore x l1) (sort_insert byFusedScore y l2).
Proof.
  intros Hxy H. induction H as [|a b l1 l2 Hab Hrest IH]; simpl.
  - constructor; [exact Hxy | constructor].
  - assert (E : byRankedScore a x = byFusedScore b y).
    { unfold byRankedScore, byFusedScore.
      destruct Hxy as [_ ->]. destruct Hab as [_ ->]. reflexivity. }
    rewrite E. destruct (Qlt_bool (byFusedScore b y) 0).
    + constructor; assumption.
    + constructor; [assumption|]. constructor; assumption.
Qed.

Lemma Array_sort_same l1 l2 :
  Forall2 sameEntry l1 l2 ->
  Forall2 sameEntry (Array_sort byRankedScore l1) (Array_sort byFusedScore l2).
Proof.
  induction 1 as [|a b l1 l2 Hab Hrest IH]; simpl; [constructor|].
  now apply sort_insert_same.
Qed.

End SameMaps.

(** X4: the fusion inside [EnsembleRetriever], run on the keyword and
    the semantic list with the two weights, returns the chunks that
    [fuseResults] returns, in the same order: document by document the
    content and the metadata of the fused result. *)
Theorem rankFusion_agrees_with_fuseResults (kw sem : list SearchResult) (wk ws : Q) :
  Forall2 (fun doc r => content r = content doc /\ metadata r = metadata doc)
    (EnsembleEngine.rankFusion [wk; ws] [kw; sem])
    (fuseResults kw sem wk ws)
  /\ map getDocumentId (EnsembleEngine.rankFusion [wk; ws] [kw; sem])
     = map getDocumentId (fuseResults kw sem wk ws).
Proof.
  assert (H : Forall2 sameEntry
                (Array_sort EnsembleEngine.byRankedScore
                   (Map_values (EnsembleEngine.rankMap [wk; ws] [kw; sem])))
                (Array_sort byFusedScore (Map_values (fuseMap kw sem wk ws)))).
  { apply Array_sort_same. unfold Map_values.
    pose proof (rankMap_fuseMap kw sem wk ws) as Hmaps.
    induction Hmaps as [|p q m1 m2 [_ Hpq] Hrest IH]; simpl; constructor; assumption. }
  unfold EnsembleEngine.rankFusion, fuseResults.
  induction H as [|a b l1 l2 [Hdoc _] Hrest [IH1 IH2]]; simpl.
  - split; constructor.
  - split.
    + constructor; [rewrite Hdoc; split; reflexivity | exact IH1].
    + rewrite toHybridResult_id, Hdoc, IH2. reflexivity.
Qed.

(** ** [hybridSearch] of the LangChain revision *)

Section EnsembleSearchFacts.
Import EnsembleEngine.
Context `{Case : CaseMapping} `{Measure : NaturalTfIdf}.

Lemma ensemble_semanticSearch_hits (this : HybridSearchEngine)
  (query : jsstring) (n : nat) :
  semanticSearch this query n
  = Ok (map semanticResult (semanticHits (vectorStore this) query n)).
Proof.
  unfold semanticSearch, semanticHits.
  destruct (similaritySearch (vectorStore this) query n); reflexivity.
Qed.

Lemma semanticFallback_hits (this : HybridSearchEngine) (query : jsstring) (n : nat) :
  semanticFallback this query n
  = Ok (map tagHybrid (map semanticResult (semanticHits (vectorStore this) query n))).
Proof. unfold semanticFallback. now rewrite ensemble_semanticSearch_hits. Qed.

Lemma mapi_length {A B : Type} (f : A -> nat -> B) (l : list A) (i : nat) :
  length (mapi f l i) = length l.
Proof. revert i. induction l as [|x l IH]; intro i; simpl; [reflexivity | now rewrite IH]. Qed.

Lemma mapi_nth_error {A B : Type} (f : A -> nat -> B) (l : list A) (i n : nat) (y : B) :
  nth_error (mapi f l i) n = Some y ->
  exists x, nth_error l n = Some x /\ y = f x (i + n)%nat.
Proof.
  revert i n. induction l as [|x l IH]; intros i n H.
  - destruct n; discriminate.
  - destruct n as [|n]; simpl in H.
    + injection H as <-. exists x. rewrite Nat.add_0_r. auto.
    + apply IH in H. destruct H as [x' [Hx ->]]. exists x'.
      split; [exact Hx | f_equal; lia].
Qed.

Lemma mapi_Forall {A B : Type} (P : B -> Prop) (f : A -> nat -> B) (l : list A) (i : nat) :
  (forall x j, P (f x j)) -> Forall P (mapi f l i).
Proof.
  intro H. revert i. induction l as [|x l IH]; intro i; simpl; constructor; auto.
Qed.

Lemma tagHybrid_Forall (l : list SearchResult) :
  Forall (fun r => searchType r = Some hybrid) (map tagHybrid l).
Proof. apply Forall_forall. intros r Hr. apply in_map_iff in Hr. now destruct Hr as [x [<- _]]. Qed.

Lemma set_k_vectorStore (this : HybridSearchEngine) (n : nat) :
  vectorStore (set_k this n) = vectorStore this.
Proof. reflexivity. Qed.

End EnsembleSearchFacts.

(** X5: [hybridSearch] of the LangChain revision never throws.  Every
    result is tagged hybrid, and the list is either that of the
    semantic fallback (engine not indexed, or the ensemble threw), or
    has at most [maxResults] results of which the one at 0-based
    position [i] has the score [1 / (i + 1)]. *)
Theorem ensemble_hybridSearch_total `{Case : CaseMapping} `{Measure : NaturalTfIdf}
  (this : EnsembleEngine.HybridSearchEngine) (query : jsstring)
  (options : EnsembleEngine.HybridOptions) :
  exists results,
    snd (EnsembleEngine.hybridSearch this query options) = Ok results
    /\ Forall (fun r => searchType r = Some hybrid) results
    /\ (results
        = map EnsembleEngine.tagHybrid
            (map EnsembleEngine.semanticResult
               (semanticHits (EnsembleEngine.vectorStore this) query
                  (EnsembleEngine.maxResults options)))
        \/ ((length results <= EnsembleEngine.maxResults options)%nat
            /\ forall i r,
                 nth_error results i = Some r -> score r = 1 / Qnat (i + 1))).
Proof.
  unfold EnsembleEngine.hybridSearch.
  destruct (EnsembleEngine.isIndexed this);
    [destruct (EnsembleEngine.ensembleRetriever this) as [current|]|]; simpl;
    try (rewrite semanticFallback_hits; eexists; split; [reflexivity|];
         split; [apply tagHybrid_Forall | now left]).
  match goal with
  | |- context [EnsembleEngine.Ensemble_getRelevantDocuments ?e ?ens query] =>
      destruct (EnsembleEngine.Ensemble_getRelevantDocuments e ens query)
        as [docs|error]
  end; simpl.
  - eexists. split; [reflexivity|]. split; [|right; split].
    + apply mapi_Forall. reflexivity.
    + rewrite mapi_length. unfold slice0. apply firstn_le_length.
    + intros i r Hr. apply mapi_nth_error in Hr.
      destruct Hr as [doc [_ ->]]. reflexivity.
  - rewrite semanticFallback_hits. eexists. split; [reflexivity|].
    split; [apply tagHybrid_Forall | now left].
Qed.

(** X6: the weights of [hybridSearch] of the LangChain revision
    persist.  A call with weights other than 0.3 and 0.7 stores an
    ensemble with these weights in the engine, and a later call with
    the weights 0.3 and 0.7 (the defaults) does not replace it: it
    returns what a call with the earlier weights returns. *)
Theorem ensemble_weights_persist `{Case : CaseMapping} `{Measure : NaturalTfIdf}
  (this : EnsembleEngine.HybridSearchEngine) (query query' : jsstring)
  (custom : EnsembleEngine.HybridOptions) (n : nat) :
  EnsembleEngine.isIndexed this = true ->
  EnsembleEngine.ensembleRetriever this <> None ->
  Qeq_bool (EnsembleEngine.keywordWeight custom) (3 # 10)
  && Qeq_bool (EnsembleEngine.semanticWeight custom) (7 # 10) = false ->
  EnsembleEngine.ensembleRetriever
    (fst (EnsembleEngine.hybridSearch this query custom))
  = Some {| EnsembleEngine.retrievers :=
              [EnsembleEngine.TheBM25Retriever; EnsembleEngine.TheVectorRetriever];
            EnsembleEngine.weights :=
              [EnsembleEngine.keywordWeight custom;
               EnsembleEngine.semanticWeight custom] |}
  /\ EnsembleEngine.hybridSearch
       (fst (EnsembleEngine.hybridSearch this query custom)) query'
       {| EnsembleEngine.maxResults := n;
          EnsembleEngine.keywordWeight := 3 # 10;
          EnsembleEngine.semanticWeight := 7 # 10 |}
     = EnsembleEngine.hybridSearch
         (fst (EnsembleEngine.hybridSearch this query custom)) query'
         {| EnsembleEngine.maxResults := n;
            EnsembleEngine.keywordWeight := EnsembleEngine.keywordWeight custom;
            EnsembleEngine.semanticWeight := EnsembleEngine.semanticWeight custom |}.
Proof.
  intros Hindexed Hensemble Hcustom.
  destruct (EnsembleEngine.ensembleRetriever this) as [current|] eqn:E;
    [|contradiction].
  assert (Hcond : negb (Qeq_bool (EnsembleEngine.keywordWeight custom) (3 # 10))
                  || negb (Qeq_bool (EnsembleEngine.semanticWeight custom) (7 # 10))
                  = true).
  { rewrite <- negb_andb. now rewrite Hcustom. }
  unfold EnsembleEngine.hybridSearch at 1 3 5.
  rewrite Hindexed, E, Hcond. cbn [fst].
  split; [reflexivity|].
  unfold EnsembleEngine.hybridSearch. cbn.
  rewrite Hindexed, Hcond. reflexivity.
Qed.

Lemma ensemble_weights_persist_witness :
  EnsembleEngine.hybridSearch (Case := AsciiCase) (Measure := TermCount)
    (fst (EnsembleEngine.hybridSearch (Case := AsciiCase) (Measure := TermCount)
            (exampleEnsembleEngine (constantStore [docB])) (str "apples") keywordOnly))
    (str "apples") (defaultsOf 2)
  = EnsembleEngine.hybridSearch (Case := AsciiCase) (Measure := TermCount)
      (fst (EnsembleEngine.hybridSearch (Case := AsciiCase) (Measure := TermCount)
              (exampleEnsembleEngine (constantStore [docB])) (str "apples") keywordOnly))
      (str "apples") keywordOnly
  /\ map (fun r => metadata r)
       match snd (EnsembleEngine.hybridSearch (Case := AsciiCase) (Measure := TermCount)
                    (exampleEnsembleEngine (constantStore [docB])) (str "apples")
                    (defaultsOf 2)) with
       | Ok results => results
       | Throw _ => []
       end
     <> map (fun r => metadata r)
          match snd (EnsembleEngine.hybridSearch (Case := AsciiCase) (Measure := TermCount)
                       (fst (EnsembleEngine.hybridSearch (Case := AsciiCase)
                               (Measure := TermCount)
                               (exampleEnsembleEngine (constantStore [docB]))
                               (str "apples") keywordOnly))
                       (str "apples") (defaultsOf 2)) with
          | Ok results => results
          | Throw _ => []
          end.
Proof.
  split.
  - apply (proj2 (ensemble_weights_persist (Case := AsciiCase) (Measure := TermCount)
                    (exampleEnsembleEngine (constantStore [docB]))
                    (str "apples") (str "apples") keywordOnly 2
                    eq_refl ltac:(discriminate) eq_refl)).
  - vm_compute. discriminate.
Defined.

(** ** The life cycle of the index *)

Lemma buildIndex_closed_form `{Case : CaseMapping}
  (this : TfIdfEngine.HybridSearchEngine) (documents : list SearchResult) :
  TfIdfEngine.buildIndex this documents
  = Ok {| TfIdfEngine.vectorStore := TfIdfEngine.vectorStore this;
          TfIdfEngine.tfidf := {| tfidf_documents := map processedOf documents |};
          TfIdfEngine.documents := documents;
          TfIdfEngine.documentMetadata := map metadata documents;
          TfIdfEngine.isIndexed := true |}.
Proof.
  unfold TfIdfEngine.buildIndex. now rewrite indexDocuments_texts.
Qed.

(** X7: [buildIndex] never throws and replaces the index as a whole:
    the engine it returns holds one text for each document of the new
    corpus and depends on nothing of the engine before but its vector
    store.  Building again from the same corpus, and [rebuildIndex],
    return the same engine; [rebuildIndex] on an engine without
    documents leaves it as it is, not indexed if it was not. *)
Theorem buildIndex_replaces `{Case : CaseMapping}
  (this : TfIdfEngine.HybridSearchEngine) (documents : list SearchResult) :
  exists engine,
    TfIdfEngine.buildIndex this documents = Ok engine
    /\ TfIdfEngine.documents engine = documents
    /\ length (tfidf_documents (TfIdfEngine.tfidf engine)) = length documents
    /\ (forall other,
          TfIdfEngine.vectorStore other = TfIdfEngine.vectorStore this ->
          TfIdfEngine.buildIndex other documents = Ok engine)
    /\ TfIdfLifecycle.rebuildIndex engine = Ok engine
    /\ TfIdfLifecycle.rebuildIndex
         (TfIdfEngine.new_HybridSearchEngine (TfIdfEngine.vectorStore this))
       = Ok (TfIdfEngine.new_HybridSearchEngine (TfIdfEngine.vectorStore this)).
Proof.
  eexists. split; [apply buildIndex_closed_form|]. simpl.
  split; [reflexivity|]. split; [apply length_map|].
  split; [intros other Hstore; rewrite buildIndex_closed_form, Hstore; reflexivity|].
  split; [|reflexivity].
  unfold TfIdfLifecycle.rebuildIndex. simpl.
  destruct (0 <? length documents)%nat; [|reflexivity].
  now rewrite buildIndex_closed_form.
Qed.

(** ** The identity of a chunk *)

Lemma split_at_first {A : Type} (x : A) (a a' b b' : list A) :
  ~ In x a -> ~ In x a' -> a ++ x :: b = a' ++ x :: b' -> a = a' /\ b = b'.
Proof.
  revert a'. induction a as [|y a IH]; intros [|y' a'] Ha Ha' H; simpl in *.
  - injection H as <-. auto.
  - injection H as <- _. tauto.
  - injection H as -> _. tauto.
  - injection H as <- H. destruct (IH a') as [-> ->]; auto.
Qed.

Lemma split_at_last {A : Type} (x : A) (a a' b b' : list A) :
  ~ In x b -> ~ In x b' -> a ++ x :: b = a' ++ x :: b' -> a = a' /\ b = b'.
Proof.
  intros Hb Hb' H. apply (f_equal (@rev A)) in H.
  rewrite !rev_app_distr in H. simpl in H. rewrite <- !app_assoc in H. simpl in H.
  apply split_at_first in H; try (rewrite <- in_rev; assumption).
  destruct H as [H1 H2].
  apply (f_equal (@rev A)) in H1, H2. rewrite !rev_involutive in H1, H2. auto.
Qed.

Lemma str_inj (s t : String.string) : str s = str t -> s = t.
Proof.
  unfold str. intro H.
  rewrite <- (String.string_of_list_ascii_of_string s),
          <- (String.string_of_list_ascii_of_string t).
  f_equal. revert H.
  generalize (String.list_ascii_of_string s) (String.list_ascii_of_string t).
  induction l as [|a l IH]; intros [|b l'] H; simpl in H; try discriminate;
    [reflexivity|].
  injection H as Hab Hrest. f_equal; [|now apply IH].
  rewrite <- (ascii_N_embedding a), <- (ascii_N_embedding b). now rewrite Hab.
Qed.

Lemma Number_toString_inj (n m : N) : Number_toString n = Number_toString m -> n = m.
Proof.
  unfold Number_toString. intro H. apply str_inj in H.
  apply (f_equal DecimalString.NilEmpty.uint_of_string) in H.
  rewrite !DecimalString.NilEmpty.usu in H. injection H as H.
  rewrite <- (DecimalN.Unsigned.of_to n), <- (DecimalN.Unsigned.of_to m).
  now rewrite H.
Qed.

Lemma Number_toString_digits (n : N) : ~ In 95%N (Number_toString n).
Proof.
  unfold Number_toString. generalize (N.to_uint n). intro d.
  induction d; unfold str in *; simpl in *; intuition discriminate.
Qed.

(** X8: two results have the same document id exactly when they agree
    on the source, with ["unknown"] for a missing or empty one, and on
    the chunk index, with 0 for a missing one: the underscore of the id
    cannot be moved, because the digits that follow hold none. *)
Theorem getDocumentId_identity (r1 r2 : SearchResult) :
  getDocumentId r1 = getDocumentId r2 <->
  string_or (source (metadata_or_empty (metadata r1))) (str "unknown")
  = string_or (source (metadata_or_empty (metadata r2))) (str "unknown")
  /\ number_or_zero (chunkIndex (metadata_or_empty (metadata r1)))
     = number_or_zero (chunkIndex (metadata_or_empty (metadata r2))).
Proof.
  unfold getDocumentId. split.
  - intro H. change (str "_") with [95%N] in H. simpl in H.
    apply split_at_last in H; try apply Number_toString_digits.
    destruct H as [Hs Hn]. split; [exact Hs | now apply Number_toString_inj].
  - intros [-> ->]. reflexivity.
Qed.

(** ** The terms of a preprocessed text *)

Lemma termUnit_not_space (c : N) :
  termUnit c = true -> isWhiteSpace c = false /\ (c =? space)%N = false.
Proof.
  unfold termUnit, isWordChar, isCJK, isWhiteSpace, in_range, space. intro H.
  rewrite !orb_true_iff, !andb_true_iff, !N.leb_le, !N.eqb_eq in H.
  split; apply not_true_is_false; intro W;
    rewrite ?orb_true_iff, ?andb_true_iff, ?N.leb_le, ?N.eqb_eq in W; lia.
Qed.

Lemma String_split_nonempty (separator : N) (s : jsstring) :
  String_split separator s <> [].
Proof.
  destruct s as [|c s]; simpl; [discriminate|].
  destruct (c =? separator)%N; [discriminate|].
  destruct (String_split separator s); discriminate.
Qed.

(** Splitting and joining give the string back. *)
Lemma join_split (separator : N) (s : jsstring) :
  Array_join [separator] (String_split separator s) = s.
Proof.
  induction s as [|c s IH]; [reflexivity|]. cbn [String_split].
  destruct (String_split separator s) as [|p ps] eqn:Es;
    [now apply String_split_nonempty in Es|].
  destruct (c =? separator)%N eqn:E.
  - apply N.eqb_eq in E. subst c.
    change (Array_join [separator] ([] :: p :: ps))
      with ([] ++ [separator] ++ Array_join [separator] (p :: ps)).
    now rewrite IH.
  - destruct ps as [|q ps].
    + simpl in *. now rewrite IH.
    + change (Array_join [separator] ((c :: p) :: q :: ps))
        with (c :: (p ++ [separator] ++ Array_join [separator] (q :: ps))).
      change (Array_join [separator] (p :: q :: ps))
        with (p ++ [separator] ++ Array_join [separator] (q :: ps)) in IH.
      now rewrite IH.
Qed.

Lemma split_SpacedTerms (s : jsstring) :
  SpacedTerms s ->
  Forall (fun term => term <> [] /\ Forall (fun c => termUnit c = true) term)
         (String_split space s).
Proof.
  induction 1 as [c Hc | c s Hc Hs IH | c s Hc Hs IH];
    destruct (termUnit_not_space c Hc) as [_ Hsp].
  - simpl. rewrite Hsp. repeat constructor; [discriminate | assumption].
  - cbn [String_split]. rewrite Hsp.
    destruct (String_split space s) as [|p ps]; [constructor; [|constructor]|].
    + split; [discriminate | now constructor].
    + apply Forall_cons_iff in IH. destruct IH as [[_ Hp] Hps].
      constructor; [|exact Hps]. split; [discriminate | now constructor].
  - cbn [String_split]. rewrite Hsp, N.eqb_refl.
    constructor; [|exact IH]. split; [discriminate | now repeat constructor].
Qed.

Lemma trimStart_SpacedRun (s : jsstring) : SpacedRun s -> trimStart s = s.
Proof.
  intros [|c s' Hc _|c s' Hc _]; simpl; try reflexivity;
    destruct (termUnit_not_space c Hc) as [-> _]; reflexivity.
Qed.

Lemma SpacedTerms_last (s : jsstring) :
  SpacedTerms s -> exists init c, s = init ++ [c] /\ termUnit c = true.
Proof.
  induction 1 as [c Hc | c s Hc Hs IH | c s Hc Hs IH].
  - exists [], c. auto.
  - destruct IH as [init [c' [-> Hc']]]. exists (c :: init), c'. auto.
  - destruct IH as [init [c' [-> Hc']]]. exists (c :: space :: init), c'. auto.
Qed.

(** A run is a sequence of spaced terms, with a space behind or not. *)
Lemma SpacedRun_body (s : jsstring) :
  SpacedRun s ->
  exists body, (body = [] \/ SpacedTerms body) /\ (s = body \/ s = body ++ [space]).
Proof.
  induction 1 as [|c s Hc Hs IH|c s Hc Hs IH].
  - exists []. auto.
  - destruct IH as [body [Hbody Hshape]]. exists (c :: body). split.
    + right. destruct Hbody as [-> | Hbody]; [now constructor | now apply spaced_unit].
    + destruct Hshape as [-> | ->]; auto.
  - destruct IH as [body [[-> | Hbody] Hshape]].
    + exists [c]. split; [right; now constructor|].
      destruct Hshape as [-> | ->]; [now right|].
      simpl in Hs. inversion Hs as [|c' s' Hc' _|c' s' Hc' _]; subst;
        destruct (termUnit_not_space _ Hc') as [_ Hsp]; discriminate.
    + exists (c :: space :: body). split; [right; now apply spaced_space|].
      destruct Hshape as [-> | ->]; auto.
Qed.

Lemma String_trim_SpacedRun (s : jsstring) :
  SpacedRun s -> String_trim s = [] \/ SpacedTerms (String_trim s).
Proof.
  intro Hs. unfold String_trim. rewrite (trimStart_SpacedRun Hs).
  destruct (SpacedRun_body Hs) as [body [Hbody Hshape]].
  assert (Hrev : trimStart (rev body) = rev body).
  { destruct Hbody as [-> | Hbody]; [reflexivity|].
    destruct (SpacedTerms_last Hbody) as [init [c [-> Hc]]].
    rewrite rev_app_distr. simpl.
    now destruct (termUnit_not_space c Hc) as [-> _]. }
  assert (Hout : rev (trimStart (rev s)) = body).
  { destruct Hshape as [-> | ->].
    - now rewrite Hrev, rev_involutive.
    - rewrite rev_app_distr. simpl. now rewrite Hrev, rev_involutive. }
  rewrite Hout. exact Hbody.
Qed.

Lemma replaceWhitespaceRuns_shape (u : jsstring) :
  Forall (fun c => isWordChar c || isWhiteSpace c || isCJK c = true) u ->
  SpacedRun (replaceWhitespaceRuns true u)
  /\ (replaceWhitespaceRuns false u = replaceWhitespaceRuns true u
      \/ replaceWhitespaceRuns false u = space :: replaceWhitespaceRuns true u).
Proof.
  induction 1 as [|c u Hc Hu [IHrun IHshape]]; simpl.
  - split; [constructor | now left].
  - destruct (isWhiteSpace c) eqn:Ews.
    + split; [exact IHrun | now right].
    + assert (Hunit : termUnit c = true).
      { unfold termUnit. cbv beta in Hc. rewrite ?Ews, orb_false_r in Hc.
        exact Hc. }
      split; [|now left].
      destruct IHshape as [-> | ->];
        [now apply run_unit | now apply run_space].
Qed.

Lemma replacePunctuation_units (s : jsstring) :
  Forall (fun c => isWordChar c || isWhiteSpace c || isCJK c = true)
         (replacePunctuation s).
Proof.
  unfold replacePunctuation. apply Forall_forall. intros c Hc.
  apply in_map_iff in Hc. destruct Hc as [x [<- _]].
  destruct (isWordChar x || isWhiteSpace x || isCJK x) eqn:E; [exact E|].
  reflexivity.
Qed.

Lemma preprocessText_shape `{Case : CaseMapping} (text : JsValue) :
  exists processed,
    preprocessText text = Ok processed
    /\ (processed = [] \/ SpacedTerms processed).
Proof.
  unfold preprocessText.
  destruct (negb (truthy text) || negb (is_string text)) eqn:E.
  - exists []. auto.
  - destruct text; simpl in E; try discriminate;
      try (rewrite orb_true_r in E; discriminate).
    simpl. eexists. split; [reflexivity|].
    destruct (replaceWhitespaceRuns_shape
                (replacePunctuation_units (toLowerCase s))) as [Hrun Hshape].
    set (u := replacePunctuation (toLowerCase s)) in *.
    assert (Htrim : String_trim (replaceWhitespaceRuns false u)
                    = String_trim (replaceWhitespaceRuns true u)).
    { destruct Hshape as [-> | ->]; [reflexivity|].
      reflexivity. }
    rewrite Htrim. now apply String_trim_SpacedRun.
Qed.

(** X9: the text that [preprocessText] returns is a sequence of terms
    separated by single spaces.  The terms that the query is split
    into are not empty and consist of word characters and CJK
    ideographs only, and joined by spaces they give the text back. *)
Theorem preprocessText_terms `{Case : CaseMapping} (text : JsValue) :
  exists processed,
    preprocessText text = Ok processed
    /\ Forall (fun term => term <> [] /\ Forall (fun c => termUnit c = true) term)
              (splitTerms processed)
    /\ splitTerms processed
       = (if (0 <? length processed)%nat then String_split space processed else [])
    /\ Array_join [space] (splitTerms processed) = processed.
Proof.
  destruct (preprocessText_shape text) as [processed [Hrun Hshape]].
  exists processed. split; [exact Hrun|].
  destruct Hshape as [-> | Hterms]; [repeat split; constructor|].
  pose proof (split_SpacedTerms Hterms) as Hsplit.
  assert (Hfilter : splitTerms processed = String_split space processed).
  { unfold splitTerms. apply forallb_filter_id. apply forallb_forall.
    intros term Hterm. rewrite Forall_forall in Hsplit.
    destruct (Hsplit term Hterm) as [Hne _].
    destruct term; [contradiction | reflexivity]. }
  rewrite Hfilter. split; [exact Hsplit|]. split; [|apply join_split].
  destruct Hterms; reflexivity.
Qed.

(** ** The patterns of the classifier *)

Section PatternFacts.
Import QuestionClassifier.

Lemma unit_matches_i_refl (p : N) : unit_matches_i p p = true.
Proof. apply N.eqb_refl. Qed.

Lemma re_literal_i_self (w : jsstring) (continue : Matcher) (s : jsstring) :
  re_literal_i w continue (w ++ s) = continue s.
Proof.
  induction w as [|p w IH]; simpl; [reflexivity|].
  now rewrite unit_matches_i_refl, IH.
Qed.

Lemma re_dotstar_skip (continue : Matcher) (gap s : jsstring) :
  sameLine gap = true -> continue s = true -> re_dotstar continue (gap ++ s) = true.
Proof.
  intros Hgap Hs. induction gap as [|c gap IH]; simpl.
  - destruct s; simpl; rewrite Hs; reflexivity.
  - simpl in Hgap. apply andb_true_iff in Hgap. destruct Hgap as [Hc Hgap].
    rewrite Hc, (IH Hgap). apply orb_true_r.
Qed.

Lemma re_test_skip (pattern : Matcher) (before s : jsstring) :
  pattern s = true -> re_test pattern (before ++ s) = true.
Proof.
  intro Hs. induction before as [|c before IH]; simpl.
  - destruct s; simpl; rewrite Hs; reflexivity.
  - rewrite IH. apply orb_true_r.
Qed.

Lemma words_i_cons (w w' : jsstring) (rest : list jsstring) :
  words_i (w :: w' :: rest) = re_literal_i w (re_dotstar (words_i (w' :: rest))).
Proof. reflexivity. Qed.

Lemma words_i_match (rest : list (jsstring * jsstring)) (first after : jsstring) :
  Forall (fun gapWord => sameLine (fst gapWord) = true) rest ->
  words_i (first :: map snd rest) (wordsApart first rest ++ after) = true.
Proof.
  revert first. induction rest as [|[gap word] rest IH]; intros first Hgaps.
  - unfold wordsApart. simpl. rewrite app_nil_r. now rewrite re_literal_i_self.
  - inversion Hgaps as [|? ? Hgap Hrest]; subst. simpl in Hgap.
    cbn [map snd]. rewrite words_i_cons. unfold wordsApart. cbn [flat_map fst snd].
    rewrite <- !app_assoc, re_literal_i_self.
    apply re_dotstar_skip; [exact Hgap|].
    specialize (IH word Hrest). unfold wordsApart in IH.
    now rewrite <- app_assoc in IH.
Qed.

Lemma some_test_In (patterns : list Matcher) (pattern : Matcher) (s : jsstring) :
  In pattern patterns -> pattern s = true -> some_test patterns s = true.
Proof.
  intros Hin Hs. unfold some_test. apply existsb_exists. now exists pattern.
Qed.

(** *** Changes of the input that the patterns cannot see *)

Variable f : N -> N.
Hypothesis f_unit : forall p c, unit_matches_i p (f c) = unit_matches_i p c.
Hypothesis f_line : forall c, isLineTerminator (f c) = isLineTerminator c.
Hypothesis f_space : forall c, isWhiteSpace (f c) = isWhiteSpace c.

Lemma re_end_blind : blindTo f re_end.
Proof. intros [|c s]; reflexivity. Qed.

Lemma re_accept_blind : blindTo f re_accept.
Proof. intros s; reflexivity. Qed.

Lemma re_literal_i_blind (w : jsstring) (continue : Matcher) :
  blindTo f continue -> blindTo f (re_literal_i w continue).
Proof.
  intros Hk. induction w as [|p w IH]; intros s; simpl; [apply Hk|].
  destruct s as [|c s]; simpl; [reflexivity|]. now rewrite f_unit, IH.
Qed.

Lemma re_dotstar_blind (continue : Matcher) :
  blindTo f continue -> blindTo f (re_dotstar continue).
Proof.
  intros Hk s. induction s as [|c s IH].
  - reflexivity.
  - cbn [map re_dotstar]. rewrite f_line, IH.
    change (f c :: map f s) with (map f (c :: s)). now rewrite Hk.
Qed.

Lemma re_test_blind (pattern : Matcher) :
  blindTo f pattern -> blindTo f (re_test pattern).
Proof.
  intros Hp s. induction s as [|c s IH].
  - reflexivity.
  - cbn [map re_test]. rewrite IH.
    change (f c :: map f s) with (map f (c :: s)). now rewrite Hp.
Qed.

Lemma words_i_blind (words : list jsstring) : blindTo f (words_i words).
Proof.
  induction words as [|w words IH]; [apply re_accept_blind|].
  destruct words as [|w' words].
  - apply re_literal_i_blind, re_accept_blind.
  - rewrite words_i_cons. apply re_literal_i_blind, re_dotstar_blind, IH.
Qed.

Lemma whole_i_blind (alternatives : list jsstring) : blindTo f (whole_i alternatives).
Proof.
  intros s. unfold whole_i. induction alternatives as [|w ws IH]; simpl; [reflexivity|].
  now rewrite (re_literal_i_blind w re_end_blind s), IH.
Qed.

Lemma some_test_blind (patterns : list Matcher) (s : jsstring) :
  Forall (blindTo f) patterns -> some_test patterns (map f s) = some_test patterns s.
Proof.
  unfold some_test. induction 1 as [|p ps Hp _ IH]; simpl; [reflexivity|].
  now rewrite Hp, IH.
Qed.

Lemma trimStart_map (s : jsstring) : trimStart (map f s) = map f (trimStart s).
Proof.
  induction s as [|c s IH]; simpl; [reflexivity|].
  rewrite f_space. destruct (isWhiteSpace c); [exact IH | reflexivity].
Qed.

Lemma String_trim_map (s : jsstring) : String_trim (map f s) = map f (String_trim s).
Proof.
  unfold String_trim. now rewrite trimStart_map, <- map_rev, trimStart_map, map_rev.
Qed.

Lemma isLikelyGreeting_blind (question : jsstring) :
  isLikelyGreeting (map f question) = isLikelyGreeting question.
Proof.
  unfold isLikelyGreeting. rewrite String_trim_map. apply some_test_blind.
  unfold greetingPatterns. repeat constructor; apply whole_i_blind.
Qed.

Lemma isPersonalQuestion_blind (question : jsstring) :
  isPersonalQuestion (map f question) = isPersonalQuestion question.
Proof.
  unfold isPersonalQuestion. apply some_test_blind.
  unfold personalPatterns. repeat constructor; apply re_test_blind, words_i_blind.
Qed.

End PatternFacts.

Lemma asciiLower_unit (p c : N) : unit_matches_i p (asciiLower c) = unit_matches_i p c.
Proof.
  unfold unit_matches_i. f_equal. unfold asciiLower, asciiUpper, in_range.
  destruct ((65 <=? c)%N && (c <=? 90)%N) eqn:E.
  - apply andb_true_iff in E. destruct E as [E1 E2].
    apply N.leb_le in E1. apply N.leb_le in E2.
    replace ((97 <=? c + 32)%N && (c + 32 <=? 122)%N) with true
      by (symmetry; apply andb_true_iff; split; apply N.leb_le; lia).
    replace ((97 <=? c)%N && (c <=? 122)%N) with false
      by (symmetry; apply andb_false_iff; left; apply N.leb_gt; lia).
    lia.
  - reflexivity.
Qed.

Lemma asciiLower_class (c : N) :
  isLineTerminator (asciiLower c) = isLineTerminator c
  /\ isWhiteSpace (asciiLower c) = isWhiteSpace c.
Proof.
  unfold asciiLower, in_range.
  destruct ((65 <=? c)%N && (c <=? 90)%N) eqn:E; [|split; reflexivity].
  apply andb_true_iff in E. destruct E as [E1 E2].
  apply N.leb_le in E1. apply N.leb_le in E2.
  unfold isLineTerminator, isWhiteSpace, in_range.
  split;
    repeat match goal with
           | |- context [(?a =? ?b)%N] =>
               replace (a =? b)%N with false by (symmetry; apply N.eqb_neq; lia)
           | |- context [(?a <=? ?b)%N] =>
               first [ replace (a <=? b)%N with false by (symmetry; apply N.leb_gt; lia)
                     | replace (a <=? b)%N with true by (symmetry; apply N.leb_le; lia) ]
           end; reflexivity.
Qed.

(** X10: each pattern of [isPersonalQuestion] is met by its words in
    their order anywhere in the question, with anything that stays on
    one line between them, and [classifyQuestion] then answers DIRECT
    whatever the classification chain would say, called or not. *)
Theorem personal_words_are_direct `{Case : CaseMapping}
  (classificationChain : jsstring -> Result jsstring)
  (first : jsstring) (rest : list (jsstring * jsstring)) (before after : jsstring) :
  In (re_test (QuestionClassifier.words_i (first :: map snd rest)))
     QuestionClassifier.personalPatterns ->
  Forall (fun gapWord => sameLine (fst gapWord) = true) rest ->
  QuestionClassifier.isPersonalQuestion (before ++ wordsApart first rest ++ after) = true
  /\ QuestionClassifier.classifyQuestion classificationChain
       (before ++ wordsApart first rest ++ after)
     = Ok QuestionClassifier.DIRECT.
Proof.
  intros Hpattern Hgaps.
  assert (Hpersonal : QuestionClassifier.isPersonalQuestion
                        (before ++ wordsApart first rest ++ after) = true).
  { unfold QuestionClassifier.isPersonalQuestion.
    apply (some_test_In _ _ _ Hpattern).
    apply re_test_skip, words_i_match, Hgaps. }
  split; [exact Hpersonal|].
  unfold QuestionClassifier.classifyQuestion.
  rewrite Hpersonal, orb_true_r. reflexivity.
Qed.

Lemma personal_words_are_direct_witness :
  QuestionClassifier.isPersonalQuestion
    (str "In the report, " ++
     wordsApart (str "what") [(str " does ", str "your"); (str " file ", str "name")]
     ++ str " mean?") = true
  /\ QuestionClassifier.classifyQuestion (Case := AsciiCase)
       (fun _ => Ok (str "SEARCH"))
       (str "In the report, " ++
        wordsApart (str "what") [(str " does ", str "your"); (str " file ", str "name")]
        ++ str " mean?")
     = Ok QuestionClassifier.DIRECT.
Proof.
  apply (@personal_words_are_direct AsciiCase (fun _ => Ok (str "SEARCH"))
           (str "what") [(str " does ", str "your"); (str " file ", str "name")]
           (str "In the report, ") (str " mean?")).
  - left. reflexivity.
  - repeat constructor.
Defined.

(** X11: two questions that differ in the case of ASCII letters only
    get the same answer from [isLikelyGreeting] and from
    [isPersonalQuestion]. *)
Theorem pattern_checks_ignore_case (question question' : jsstring) :
  map asciiLower question = map asciiLower question' ->
  QuestionClassifier.isLikelyGreeting question
  = QuestionClassifier.isLikelyGreeting question'
  /\ QuestionClassifier.isPersonalQuestion question
     = QuestionClassifier.isPersonalQuestion question'.
Proof.
  intro Hsame.
  pose proof (fun c => proj1 (asciiLower_class c)) as Hline.
  pose proof (fun c => proj2 (asciiLower_class c)) as Hspace.
  rewrite <- (isLikelyGreeting_blind asciiLower asciiLower_unit Hspace question),
          <- (isLikelyGreeting_blind asciiLower asciiLower_unit Hspace question'),
          <- (isPersonalQuestion_blind asciiLower asciiLower_unit Hline question),
          <- (isPersonalQuestion_blind asciiLower asciiLower_unit Hline question').
  now rewrite Hsame.
Qed.

Lemma pattern_checks_ignore_case_witness :
  QuestionClassifier.isLikelyGreeting (str "Good Morning")
  = QuestionClassifier.isLikelyGreeting (str "gOOD mORNING")
  /\ QuestionClassifier.isPersonalQuestion (str "Good Morning")
     = QuestionClassifier.isPersonalQuestion (str "gOOD mORNING").
Proof.
  apply (pattern_checks_ignore_case (str "Good Morning") (str "gOOD mORNING")).
  reflexivity.
Defined.

Lemma classifyQuestion_total `{Case : CaseMapping}
  (classificationChain : jsstring -> Result jsstring) (question : jsstring) :
  exists classification,
    QuestionClassifier.classifyQuestion classificationChain question = Ok classification.
Proof.
  unfold QuestionClassifier.classifyQuestion.
  destruct (QuestionClassifier.isLikelyGreeting question
            || QuestionClassifier.isPersonalQuestion question); simpl; [eauto|].
  destruct (classificationChain (String_trim question)) as [answer|error]; simpl; [|eauto].
  destruct (String_includes (toUpperCase (String_trim answer)) (str "DIRECT"));
    [simpl; eauto|].
  destruct (String_includes (toUpperCase (String_trim answer)) (str "SEARCH"));
    simpl; eauto.
Qed.

(** What the batch of promises settles to: the classifications when
    every question is a string, a rejection otherwise. *)
Lemma classifyValues_settle `{Case : CaseMapping}
  (classificationChain : jsstring -> Result jsstring) (questions : list JsValue) :
  if forallb is_string questions
  then exists classifications,
         Promise_all (QuestionBatch.classifyValue classificationChain) questions
         = Ok classifications
         /\ Forall2 (fun question classification =>
                       QuestionBatch.classifyValue classificationChain question
                       = Ok classification)
                    questions classifications
  else exists error,
         Promise_all (QuestionBatch.classifyValue classificationChain) questions
         = Throw error.
Proof.
  induction questions as [|question rest IH].
  - exists []. split; [reflexivity | constructor].
  - cbn [forallb Promise_all].
    destruct question as [| | b | q | text |]; cbn [is_string andb];
      try (exists TypeError; reflexivity).
    destruct (classifyQuestion_total classificationChain text)
      as [classification Hclassification].
    assert (Hvalue : QuestionBatch.classifyValue classificationChain (JsString text)
                     = Ok classification) by exact Hclassification.
    rewrite Hvalue. cbn [bind].
    destruct (forallb is_string rest).
    + destruct IH as [classifications [Hall Heach]]. rewrite Hall. cbn [bind].
      exists (classification :: classifications). split; [reflexivity|].
      constructor; [exact Hvalue | exact Heach].
    + destruct IH as [error Hall]. rewrite Hall. exists error. reflexivity.
Qed.

(** X12: [classifyQuestions] never throws.  When every question is a
    string it returns, question by question, what [classifyQuestion]
    returns for it, so a failure of the classification chain on one
    question leaves the answers for the others as they are.  When one
    question is not a string it answers SEARCH for all of them, also
    for those that [classifyQuestion] answers DIRECT for. *)
Theorem classifyQuestions_outcomes `{Case : CaseMapping}
  (classificationChain : jsstring -> Result jsstring) (questions : list JsValue) :
  exists classifications,
    QuestionBatch.classifyQuestions classificationChain questions = Ok classifications
    /\ length classifications = length questions
    /\ if forallb is_string questions
       then Forall2 (fun question classification =>
                       QuestionBatch.classifyValue classificationChain question
                       = Ok classification)
                    questions classifications
       else classifications = map (fun _ => QuestionClassifier.SEARCH) questions.
Proof.
  pose proof (classifyValues_settle classificationChain questions) as Hsettle.
  unfold QuestionBatch.classifyQuestions.
  destruct (forallb is_string questions).
  - destruct Hsettle as [classifications [-> Heach]]. simpl.
    exists classifications. split; [reflexivity|]. split; [|exact Heach].
    symmetry. exact (Forall2_length Heach).
  - destruct Hsettle as [error ->]. simpl.
    eexists. split; [reflexivity|]. split; [apply length_map | reflexivity].
Qed.

(** One number among the questions, and the greeting is SEARCH too. *)
Example classifyQuestions_number_in_batch :
  QuestionBatch.classifyQuestions (Case := AsciiCase) (fun _ => Ok (str "DIRECT"))
    [JsString (str "Hello"); JsNumber 42]
  = Ok [QuestionClassifier.SEARCH; QuestionClassifier.SEARCH]
  /\ QuestionBatch.classifyQuestions (Case := AsciiCase) (fun _ => Ok (str "DIRECT"))
       [JsString (str "Hello")]
     = Ok [QuestionClassifier.DIRECT].
Proof. split; reflexivity. Qed.

(** ** [hybridQuery] over an engine of the TF-IDF revision *)

Lemma indexed_snd {A : Type} (l : list A) (i : nat) : map snd (indexed l i) = l.
Proof. revert i. induction l as [|x l IH]; intro i; simpl; [|rewrite IH]; reflexivity. Qed.

(** A filter keeps a list free of repeated keys. *)
Lemma filter_distinct_keys {K T : Type} (key : T -> K) (keep : T -> bool)
  (items : list T) :
  NoDup (map key items) -> NoDup (map key (filter keep items)).
Proof.
  intro Hdistinct. induction items as [|item items IH]; simpl; [constructor|].
  simpl in Hdistinct. apply NoDup_cons_iff in Hdistinct.
  destruct Hdistinct as [Hfresh Hrest].
  destruct (keep item); simpl; [|now apply IH].
  apply NoDup_cons_iff. split; [|now apply IH].
  intro Hin. apply Hfresh. apply in_map_iff in Hin. destruct Hin as [other [Hkey Hin]].
  apply filter_In in Hin. apply in_map_iff. exists other. tauto.
Qed.

(** The keyword search returns no chunk twice when the corpus holds
    none twice. *)
Lemma keywordSearch_NoDup `{Case : CaseMapping} `{Measure : NaturalTfIdf}
  (this : TfIdfEngine.HybridSearchEngine) (query : jsstring) (n : nat)
  (results : list SearchResult) :
  NoDup (map getDocumentId (TfIdfEngine.documents this)) ->
  TfIdfEngine.keywordSearch this query n = Ok results ->
  NoDup (map getDocumentId results).
Proof.
  intros Hcorpus Hsearch.
  destruct (TfIdfEngine.isIndexed this) eqn:Hindexed.
  - destruct (@keywordSearch_hits _ _ this query n Hindexed) as [processed [_ Hhits]].
    rewrite Hhits in Hsearch. injection Hsearch as <-.
    rewrite map_map.
    rewrite (map_ext _ (fun hit => getDocumentId (snd hit))) by reflexivity.
    unfold slice0. rewrite <- firstn_map. apply NoDup_firstn.
    eapply Permutation_NoDup;
      [apply Permutation_sym, Permutation_map, Array_sort_perm|].
    unfold positiveHits. rewrite <- (map_map snd getDocumentId).
    rewrite <- (indexed_snd (TfIdfEngine.documents this) 0) in Hcorpus.
    rewrite map_map in *. now apply filter_distinct_keys.
  - unfold TfIdfEngine.keywordSearch in Hsearch. rewrite Hindexed in Hsearch.
    injection Hsearch as <-. constructor.
Qed.

Lemma rankFrom_above (docId : jsstring) (results : list SearchResult) (index r : nat) :
  rankFrom docId results index = Some r -> (index < r)%nat.
Proof.
  revert index. induction results as [|x results IH]; intros index H; simpl in H.
  - discriminate.
  - destruct (jsstring_eqb (getDocumentId x) docId).
    + injection H as <-. lia.
    + apply IH in H. lia.
Qed.

Lemma rank_term_small (weight bound : Q) (n : nat) :
  0 < bound -> weight < 61 * bound -> (61 <= n)%nat -> weight / Qnat n < bound.
Proof.
  intros Hbound Hweight Hn.
  assert (Hpos : 0 < Qnat n) by (destruct n; [lia | apply Qnat_pos]).
  apply Qlt_shift_div_r; [exact Hpos|].
  apply Qlt_le_trans with (61 * bound); [exact Hweight|].
  rewrite (Qmult_comm 61). apply Qmult_le_l; [exact Hbound|].
  unfold Qnat, Qle. simpl. lia.
Qed.

(** One list without repeats adds less than [bound] to a score when its
    weight is below [61 * bound]. *)
Lemma contribution_small (weight bound : Q) (docId : jsstring)
  (results : list SearchResult) :
  NoDup (map getDocumentId results) -> 0 < bound -> weight < 61 * bound ->
  contribution Fusion.k weight docId results 0 < bound.
Proof.
  intros Hresults Hbound Hweight.
  rewrite (contribution_NoDup _ _ _ _ _ Hresults).
  destruct (rankFrom docId results 0) as [r|] eqn:Hrank; simpl; [|exact Hbound].
  apply rankFrom_above in Hrank.
  apply rank_term_small; [exact Hbound | exact Hweight | unfold Fusion.k; lia].
Qed.

Lemma fused_above_threshold (kw sem : list SearchResult) (wk ws bound : Q)
  (r : SearchResult) :
  NoDup (map getDocumentId kw) -> 0 < bound -> wk < 61 * bound ->
  In r (fuseResults kw sem wk ws) -> bound <= score r ->
  In (getDocumentId r) (map getDocumentId sem).
Proof.
  intros Hkw Hbound Hwk Hin Hscore.
  destruct (in_dec (list_eq_dec N.eq_dec) (getDocumentId r) (map getDocumentId sem))
    as [Hsem | Hsem]; [exact Hsem | exfalso].
  pose proof (fuseResults_score _ _ _ _ _ Hin) as Hsum.
  rewrite (contribution_absent _ _ _ _ _ Hsem), Qplus_0_r in Hsum.
  pose proof (@contribution_small wk bound (getDocumentId r) kw Hkw Hbound Hwk) as Hsmall.
  rewrite <- Hsum in Hsmall.
  exact (Qlt_irrefl _ (Qle_lt_trans _ _ _ Hscore Hsmall)).
Qed.

Lemma tagSemantic_ids (results : list SearchResult) :
  map getDocumentId (map TfIdfEngine.tagSemantic results) = map getDocumentId results.
Proof. rewrite map_map. now apply map_ext. Qed.

Lemma filterByScore_In (minScore : Q) (results : list SearchResult) (r : SearchResult) :
  In r (QueryPipeline.filterByScore minScore results)
  <-> In r results /\ minScore <= score r.
Proof.
  unfold QueryPipeline.filterByScore. rewrite filter_In.
  now rewrite Qle_bool_iff.
Qed.

Lemma half_margin (weight bound : Q) :
  0 < bound -> 2 * weight <= 61 * bound -> weight < 61 * bound.
Proof.
  intros Hbound Hhalf.
  assert (Hpos : 0 < 61 * bound)
    by (apply Qmult_lt_0_compat; [reflexivity | exact Hbound]).
  destruct (Qlt_le_dec 0 weight) as [Hw | Hw].
  - apply Qlt_le_trans with (2 * weight); [|exact Hhalf].
    setoid_replace (2 * weight) with (weight + weight) by ring.
    rewrite <- (Qplus_0_r weight) at 1. now apply Qplus_lt_r.
  - now apply Qle_lt_trans with 0.
Qed.

(** What the search of [hybridQuery] returns in hybrid mode. *)
Lemma search_hybrid `{Case : CaseMapping} `{Measure : NaturalTfIdf}
  (this : QueryPipeline.QueryEngine) (engine : TfIdfEngine.HybridSearchEngine)
  (question : jsstring) (options : QueryPipeline.QueryOptions) :
  QueryPipeline.hybridSearchEngine this = QueryPipeline.tfidfMethods engine ->
  jsstring_eqb (QueryPipeline.optionSearchType options) (str "keyword") = false ->
  jsstring_eqb (QueryPipeline.optionSearchType options) (str "semantic") = false ->
  exists keywordHits,
    TfIdfEngine.keywordSearch engine question 10 = Ok keywordHits
    /\ QueryPipeline.search this question options
       = Ok (slice0 (QueryPipeline.maxResults options * 2)
               (fuseResults keywordHits
                  (map TfIdfEngine.tagSemantic
                     (semanticHits (TfIdfEngine.vectorStore engine) question 10))
                  (QueryPipeline.keywordWeight options)
                  (QueryPipeline.semanticWeight options))).
Proof.
  intros Hengine Hkeyword Hsemantic.
  destruct (keywordSearch_total engine question 10) as [keywordHits Hhits].
  exists keywordHits. split; [exact Hhits|].
  unfold QueryPipeline.search. rewrite Hkeyword, Hsemantic, Hengine.
  unfold QueryPipeline.tfidfMethods, TfIdfEngine.hybridSearch. simpl.
  rewrite Hhits, semanticSearch_hits. reflexivity.
Qed.

(** The final results of a hybrid query whose keyword weight is at
    most half of 61 times the threshold. *)
Lemma final_results_semantic `{Case : CaseMapping} `{Measure : NaturalTfIdf}
  (this : QueryPipeline.QueryEngine) (engine : TfIdfEngine.HybridSearchEngine)
  (question : jsstring) (options : QueryPipeline.QueryOptions)
  (found : list SearchResult) :
  QueryPipeline.hybridSearchEngine this = QueryPipeline.tfidfMethods engine ->
  NoDup (map getDocumentId (TfIdfEngine.documents engine)) ->
  jsstring_eqb (QueryPipeline.optionSearchType options) (str "keyword") = false ->
  jsstring_eqb (QueryPipeline.optionSearchType options) (str "semantic") = false ->
  0 < QueryPipeline.minScore options ->
  2 * QueryPipeline.keywordWeight options <= 61 * QueryPipeline.minScore options ->
  QueryPipeline.search this question options = Ok found ->
  let finalResults :=
    slice0 (QueryPipeline.maxResults options)
      (QueryPipeline.filterByScore (QueryPipeline.minScore options) found) in
  NoDup (map getDocumentId finalResults)
  /\ Forall (fun result =>
               QueryPipeline.minScore options <= score result
               /\ In (getDocumentId result)
                     (map getDocumentId
                        (semanticHits (TfIdfEngine.vectorStore engine) question 10)))
            finalResults.
Proof.
  intros Hengine Hcorpus Hkeyword Hsemantic Hmin Hhalf Hfound finalResults.
  pose proof (half_margin Hmin Hhalf) as Hweight.
  destruct (@search_hybrid _ _ this engine question options Hengine Hkeyword Hsemantic)
    as [keywordHits [Hhits Hsearch]].
  rewrite Hsearch in Hfound. injection Hfound as <-.
  pose proof (@keywordSearch_NoDup _ _ _ _ _ _ Hcorpus Hhits) as Hnodup.
  subst finalResults. unfold slice0. split.
  - rewrite <- firstn_map. apply NoDup_firstn.
    unfold QueryPipeline.filterByScore. apply filter_distinct_keys.
    rewrite <- firstn_map. apply NoDup_firstn, fuseResults_NoDup.
  - apply Forall_forall. intros r Hr.
    apply firstn_In, filterByScore_In in Hr. destruct Hr as [Hr Hscore].
    apply firstn_In in Hr. split; [exact Hscore|].
    rewrite <- tagSemantic_ids.
    exact (@fused_above_threshold _ _ _ _ _ _ Hnodup Hmin Hweight Hr Hscore).
Qed.

(** X13: when the engine of the query engine is of the TF-IDF
    revision, [hybridQuery] in hybrid mode cites no chunk that the
    vector store did not find, over a corpus that holds no chunk twice
    and with a keyword weight of at most half of 61 times a positive
    [minScore] (the defaults are 0.3 and 0.01).  A chunk that only the
    keyword search returned has the fused score [keywordWeight / (60 +
    rank)], at most half of the threshold: a margin that the rounding
    of the quotient cannot bridge.  The sources of the answer are
    those of final results that all score at least [minScore] and are
    all among the semantic hits, at most [maxResults] and at most as
    many as the semantic hits. *)
Theorem hybridQuery_cites_semantic_hits
  `{Case : CaseMapping} `{Measure : NaturalTfIdf} `{Host : Runtime}
  (this : QueryPipeline.QueryEngine) (engine : TfIdfEngine.HybridSearchEngine)
  (question : jsstring) (options : QueryPipeline.QueryOptions)
  (answer : QueryPipeline.Answer) :
  QueryPipeline.hybridSearchEngine this = QueryPipeline.tfidfMethods engine ->
  NoDup (map getDocumentId (TfIdfEngine.documents engine)) ->
  jsstring_eqb (QueryPipeline.optionSearchType options) (str "keyword") = false ->
  jsstring_eqb (QueryPipeline.optionSearchType options) (str "semantic") = false ->
  0 < QueryPipeline.minScore options ->
  2 * QueryPipeline.keywordWeight options <= 61 * QueryPipeline.minScore options ->
  QueryPipeline.hybridQuery this question options = Ok answer ->
  exists finalResults,
    QueryEngine.extractSources finalResults = Ok (QueryPipeline.sources answer)
    /\ (length finalResults <= QueryPipeline.maxResults options)%nat
    /\ (length finalResults
        <= length (semanticHits (TfIdfEngine.vectorStore engine) question 10))%nat
    /\ Forall (fun result =>
                 QueryPipeline.minScore options <= score result
                 /\ In (getDocumentId result)
                       (map getDocumentId
                          (semanticHits (TfIdfEngine.vectorStore engine) question 10)))
              finalResults.
Proof.
  intros Hengine Hcorpus Hkeyword Hsemantic Hmin Hhalf Hanswer.
  assert (Hnone : exists finalResults : list SearchResult,
             QueryEngine.extractSources finalResults = Ok []
             /\ (length finalResults <= QueryPipeline.maxResults options)%nat
             /\ (length finalResults
                 <= length (semanticHits (TfIdfEngine.vectorStore engine)
                              question 10))%nat
             /\ Forall (fun result =>
                          QueryPipeline.minScore options <= score result
                          /\ In (getDocumentId result)
                                (map getDocumentId
                                   (semanticHits (TfIdfEngine.vectorStore engine)
                                      question 10)))
                       finalResults).
  { exists []. repeat split; simpl; try lia. constructor. }
  unfold QueryPipeline.hybridQuery in Hanswer.
  destruct (QueryPipeline.search this question options) as [found|error] eqn:Hsearch;
    [|discriminate].
  pose proof (@final_results_semantic _ _ this engine question options found
                Hengine Hcorpus Hkeyword Hsemantic Hmin Hhalf Hsearch)
    as [Hnodup Hfinal].
  simpl in Hanswer.
  destruct (length found =? 0)%nat.
  { simpl in Hanswer. injection Hanswer as <-. exact Hnone. }
  simpl in Hanswer.
  destruct (length (QueryPipeline.filterByScore (QueryPipeline.minScore options) found)
            =? 0)%nat.
  { destruct (QueryPipeline.generalChain this _); simpl in Hanswer; [|discriminate].
    injection Hanswer as <-. exact Hnone. }
  destruct (QueryPipeline.formatHybridContext _); simpl in Hanswer; [|discriminate].
  destruct (QueryPipeline.generalChain this _); simpl in Hanswer; [|discriminate].
  destruct (QueryEngine.extractSources _) as [groups|] eqn:Hsources;
    simpl in Hanswer; [|discriminate].
  injection Hanswer as <-. simpl.
  eexists. split; [exact Hsources|]. split; [apply firstn_le_length|].
  split; [|exact Hfinal].
  rewrite <- (length_map getDocumentId), <- (length_map getDocumentId (semanticHits _ _ _)).
  apply NoDup_incl_length; [exact Hnodup|].
  intros docId Hin. apply in_map_iff in Hin. destruct Hin as [r [<- Hr]].
  rewrite Forall_forall in Hfinal. now apply Hfinal.
Qed.

Lemma hybridQuery_cites_semantic_hits_witness :
  exists answer finalResults,
    applesAnswer = Ok answer
    /\ QueryEngine.extractSources finalResults = Ok (QueryPipeline.sources answer)
    /\ (length finalResults <= 4)%nat
    /\ (length finalResults <= 1)%nat
    /\ Forall (fun result =>
                 1 # 100 <= score result
                 /\ In (getDocumentId result) (map getDocumentId [docB]))
              finalResults.
Proof.
  destruct applesAnswer as [answer|error] eqn:Hanswer; [|vm_compute in Hanswer; discriminate].
  exists answer.
  destruct (@hybridQuery_cites_semantic_hits AsciiCase TermCount PlainRuntime
              exampleQueryEngine (exampleEngine (constantStore [docB]))
              (str "apples") QueryPipeline.defaultOptions answer)
    as [finalResults Hfinal].
  - reflexivity.
  - vm_compute. repeat constructor; simpl; intuition discriminate.
  - reflexivity.
  - reflexivity.
  - reflexivity.
  - vm_compute. discriminate.
  - exact Hanswer.
  - exists finalResults. split; [reflexivity | exact Hfinal].
Defined.

(** The same question to an engine of the LangChain revision over a
    vector store that finds nothing: the chunk that only the keyword
    retriever returns has the score of its position, 1, and is the
    source of the answer. *)
Example hybridQuery_over_ensemble_engine :
  exists answer,
    QueryPipeline.hybridQuery (Host := PlainRuntime) ensembleQueryEngine (str "apples")
      QueryPipeline.defaultOptions = Ok answer
    /\ map QueryEngine.filename (QueryPipeline.sources answer) = [str "docA"]
    /\ QueryPipeline.searchStats answer
       = Some {| QueryPipeline.totalResults := 1;
                 QueryPipeline.filteredResults := 1;
                 QueryPipeline.finalResults := 1 |}.
Proof. eexists. split; [vm_compute; reflexivity | split; reflexivity]. Qed.

Lemma Map_keys_length {V : Type} (m : JsMap V) : length (Map_keys m) = length m.
Proof. apply length_map. Qed.

Lemma Map_set_length {V : Type} (m : JsMap V) (key : jsstring) (v : V) :
  (length m <= length (Map_set m key v) <= S (length m))%nat.
Proof.
  induction m as [|[k x] m IH]; simpl; [lia|].
  destruct (jsstring_eqb k key); simpl; lia.
Qed.

Lemma Map_set_present {V : Type} (m : JsMap V) (key : jsstring) (v x : V) :
  Map_get m key = Some x -> length (Map_set m key v) = length m.
Proof.
  induction m as [|[k y] m IH]; simpl; [discriminate|].
  destruct (jsstring_eqb k key); simpl; [reflexivity|].
  intro H. now rewrite IH.
Qed.

Lemma collectSource_length (sourceMap sourceMap' : JsMap QueryEngine.SourceGroup)
  (result : SearchResult) :
  QueryEngine.collectSource sourceMap result = Ok sourceMap' ->
  (length sourceMap' <= S (length sourceMap))%nat.
Proof.
  unfold QueryEngine.collectSource.
  destruct (metadata result) as [md|]; [|discriminate].
  destruct (as_string (QueryEngine.resultContent result)); simpl; [|discriminate].
  set (key := string_or (source md) (str "Unknown")).
  destruct (negb (Map_has sourceMap key)).
  - rewrite Map_get_set_same. intro H. injection H as <-.
    rewrite Map_set_set. apply Map_set_length.
  - destruct (Map_get sourceMap key) as [group|] eqn:Hgroup; [|discriminate].
    intro H. injection H as <-. rewrite (Map_set_present _ _ _ Hgroup). lia.
Qed.

Lemma extractSources_length (searchResults : list SearchResult)
  (groups : list QueryEngine.SourceGroup) :
  QueryEngine.extractSources searchResults = Ok groups ->
  (length groups <= length searchResults)%nat.
Proof.
  unfold QueryEngine.extractSources.
  assert (Hloop : forall results m m',
             forEachM QueryEngine.collectSource results m = Ok m' ->
             (length m' <= length m + length results)%nat).
  { induction results as [|r results IH]; intros m m' H; simpl in H.
    - injection H as <-. simpl. lia.
    - destruct (QueryEngine.collectSource m r) as [m1|] eqn:Hstep; [|discriminate].
      simpl in H. apply IH in H. apply collectSource_length in Hstep. simpl. lia. }
  destruct (forEachM QueryEngine.collectSource searchResults []) as [m|] eqn:Hm;
    [|discriminate].
  simpl. intro H. injection H as <-. apply Hloop in Hm. simpl in Hm.
  unfold Map_values. now rewrite !length_map.
Qed.

Lemma filterByScore_length (minScore : Q) (results : list SearchResult) :
  (length (QueryPipeline.filterByScore minScore results) <= length results)%nat.
Proof. apply filter_length_le. Qed.

(** X14: whichever revision the engine is of, [hybridQuery] throws
    nothing but an [Error] whose message starts with [Hybrid query
    failed: ].  When the search finds nothing it answers with its
    fixed text, no sources and no statistics, and does not call the
    language model.  Otherwise the statistics of the answer count at
    least one result; the final results are at most [maxResults] of
    the filtered ones, and the answer names at most one source for
    each of them. *)
Theorem hybridQuery_outcomes `{Host : Runtime}
  (this : QueryPipeline.QueryEngine) (question : jsstring)
  (options : QueryPipeline.QueryOptions) :
  match QueryPipeline.hybridQuery this question options with
  | Throw error =>
      exists message, error = Error (str "Hybrid query failed: " ++ message)
  | Ok answer =>
      QueryPipeline.answerSearchType answer = QueryPipeline.optionSearchType options
      /\ match QueryPipeline.searchStats answer with
         | None =>
             QueryPipeline.search this question options = Ok []
             /\ QueryPipeline.text answer = QueryPipeline.noInformation
             /\ QueryPipeline.sources answer = []
             /\ QueryPipeline.searchResults answer = []
             /\ forall chain,
                  QueryPipeline.hybridQuery
                    {| QueryPipeline.hybridSearchEngine :=
                         QueryPipeline.hybridSearchEngine this;
                       QueryPipeline.generalChain := chain |}
                    question options
                  = Ok answer
         | Some stats =>
             (exists found,
                QueryPipeline.search this question options = Ok found
                /\ QueryPipeline.totalResults stats = length found)
             /\ (0 < QueryPipeline.totalResults stats)%nat
             /\ (QueryPipeline.finalResults stats
                 <= QueryPipeline.filteredResults stats
                 <= QueryPipeline.totalResults stats)%nat
             /\ (QueryPipeline.finalResults stats
                 <= QueryPipeline.maxResults options)%nat
             /\ (length (QueryPipeline.sources answer)
                 <= QueryPipeline.finalResults stats)%nat
             /\ (length (QueryPipeline.searchResults answer)
                 <= QueryPipeline.totalResults stats)%nat
         end
  end.
Proof.
  unfold QueryPipeline.hybridQuery.
  change (QueryPipeline.search
            {| QueryPipeline.hybridSearchEngine := QueryPipeline.hybridSearchEngine this;
               QueryPipeline.generalChain := _ |} question options)
    with (QueryPipeline.search this question options).
  destruct (QueryPipeline.search this question options) as [found|error] eqn:Hsearch;
    [|simpl; eauto].
  simpl.
  destruct (length found =? 0)%nat eqn:Hnone.
  { apply Nat.eqb_eq, length_zero_iff_nil in Hnone. subst found.
    simpl. repeat split. }
  apply Nat.eqb_neq in Hnone. simpl.
  pose proof (filterByScore_length (QueryPipeline.minScore options) found) as Hfiltered.
  destruct (length (QueryPipeline.filterByScore (QueryPipeline.minScore options) found)
            =? 0)%nat eqn:Hlow.
  { destruct (QueryPipeline.generalChain this _); simpl; [|eauto].
    split; [reflexivity|]. split; [now exists found|].
    repeat split; try lia.
    destruct (QueryPipeline.includeScores options); simpl; lia. }
  destruct (QueryPipeline.formatHybridContext _); simpl; [|eauto].
  destruct (QueryPipeline.generalChain this _); simpl; [|eauto].
  destruct (QueryEngine.extractSources _) as [groups|] eqn:Hsources; simpl; [|eauto].
  apply extractSources_length in Hsources.
  pose proof (firstn_le_length (QueryPipeline.maxResults options)
                (QueryPipeline.filterByScore (QueryPipeline.minScore options) found))
    as Hcut.
  unfold slice0 in *.
  split; [reflexivity|]. split; [now exists found|].
  repeat split;
    destruct (QueryPipeline.includeScores options); simpl;
    rewrite ?length_firstn in *; lia.
Qed.

Lemma formatHybridEntries `{Host : Runtime} (results : list SearchResult) (index : nat) :
  match mapiM QueryPipeline.formatHybridEntry results index with
  | Ok entries => Forall (fun r => metadata r <> None) results
  | Throw error => error = TypeError /\ Exists (fun r => metadata r = None) results
  end.
Proof.
  revert index. induction results as [|r results IH]; intro index; simpl.
  - constructor.
  - unfold QueryPipeline.formatHybridEntry at 1.
    destruct (metadata r) as [md|] eqn:Hmd; simpl.
    + specialize (IH (S index)).
      destruct (mapiM QueryPipeline.formatHybridEntry results (S index)); simpl.
      * constructor; [congruence | exact IH].
      * destruct IH as [-> IH]. split; [reflexivity | now apply Exists_cons_tl].
    + split; [reflexivity | now apply Exists_cons_hd].
Qed.

(** X15: [fuseResults] and the searches take a result without
    metadata, [hybridQuery] does not: when one of its final results,
    the first [maxResults] of those at or above [minScore], has no
    metadata, it throws [Hybrid query failed: ] with the message of the
    [TypeError], and the language model is not called. *)
Theorem hybridQuery_needs_metadata `{Host : Runtime}
  (this : QueryPipeline.QueryEngine) (question : jsstring)
  (options : QueryPipeline.QueryOptions) (found : list SearchResult) :
  QueryPipeline.search this question options = Ok found ->
  Exists (fun r => metadata r = None)
         (slice0 (QueryPipeline.maxResults options)
            (QueryPipeline.filterByScore (QueryPipeline.minScore options) found)) ->
  forall chain,
    QueryPipeline.hybridQuery
      {| QueryPipeline.hybridSearchEngine := QueryPipeline.hybridSearchEngine this;
         QueryPipeline.generalChain := chain |}
      question options
    = Throw (Error (str "Hybrid query failed: " ++ TypeError_message)).
Proof.
  intros Hsearch Hloose chain. unfold QueryPipeline.hybridQuery.
  change (QueryPipeline.search _ question options)
    with (QueryPipeline.search this question options).
  rewrite Hsearch. simpl.
  assert (Hfiltered : QueryPipeline.filterByScore (QueryPipeline.minScore options) found
                      <> []).
  { intro Hnil. rewrite Hnil in Hloose. unfold slice0 in Hloose.
    rewrite firstn_nil in Hloose. inversion Hloose. }
  assert (Hfound : found <> []).
  { intro Hnil. subst found. now apply Hfiltered. }
  destruct found as [|r found]; [contradiction|]. cbn [length Nat.eqb orb].
  destruct (QueryPipeline.filterByScore (QueryPipeline.minScore options) (r :: found))
    as [|r' filtered] eqn:Hf; [contradiction|]. cbn [length Nat.eqb].
  unfold QueryPipeline.formatHybridContext.
  pose proof (formatHybridEntries
                (slice0 (QueryPipeline.maxResults options) (r' :: filtered)) 0)
    as Hentries.
  destruct (mapiM QueryPipeline.formatHybridEntry
              (slice0 (QueryPipeline.maxResults options) (r' :: filtered)) 0).
  - exfalso. apply Exists_exists in Hloose. destruct Hloose as [x [Hx Hnone]].
    rewrite Forall_forall in Hentries. exact (Hentries x Hx Hnone).
  - destruct Hentries as [-> _]. reflexivity.
Qed.

Lemma hybridQuery_needs_metadata_witness :
  QueryPipeline.hybridQuery (Host := PlainRuntime)
    {| QueryPipeline.hybridSearchEngine :=
         QueryPipeline.hybridSearchEngine looseQueryEngine;
       QueryPipeline.generalChain := echoChain |}
    (str "apples") QueryPipeline.defaultOptions
  = Throw (Error (str "Hybrid query failed: "
                  ++ TypeError_message (Runtime := PlainRuntime))).
Proof.
  eapply (@hybridQuery_needs_metadata PlainRuntime
            looseQueryEngine (str "apples") QueryPipeline.defaultOptions).
  - vm_compute. reflexivity.
  - vm_compute. apply Exists_cons_hd. reflexivity.
Defined.

(** ** [formatConversationHistory] *)

Lemma sliceLast_app {A : Type} (n : nat) (older recent : list A) :
  (n <= length recent)%nat -> sliceLast n (older ++ recent) = sliceLast n recent.
Proof.
  intro Hn. unfold sliceLast. rewrite length_app, skipn_app.
  rewrite skipn_all2 by lia. simpl. f_equal. lia.
Qed.

(** X16: [formatConversationHistory] reads the last ten messages only:
    whatever came before them leaves its text as it is. *)
Theorem formatConversationHistory_recent
  (older recent : list QueryPipeline.Message) :
  (10 <= length recent)%nat ->
  QueryPipeline.formatConversationHistory (older ++ recent)
  = QueryPipeline.formatConversationHistory recent.
Proof.
  intro Hrecent. unfold QueryPipeline.formatConversationHistory.
  rewrite (@sliceLast_app _ 10 older recent Hrecent), length_app.
  replace (length older + length recent =? 0)%nat with false
    by (symmetry; apply Nat.eqb_neq; lia).
  replace (length recent =? 0)%nat with false
    by (symmetry; apply Nat.eqb_neq; lia).
  reflexivity.
Qed.

Lemma formatConversationHistory_recent_witness :
  QueryPipeline.formatConversationHistory (countdown 2 ++ countdown 10)
  = QueryPipeline.formatConversationHistory (countdown 10).
Proof.
  apply (@formatConversationHistory_recent (countdown 2) (countdown 10)).
  simpl. lia.
Defined.

(** ** The keyword search of the two revisions *)

Section RevisionFacts.
Context `{Case : CaseMapping} `{Measure : NaturalTfIdf} `{Host : Runtime}.

Lemma js_or_default (v : JsValue) :
  js_or (js_or (js_or v (JsString [])) JsUndefined) (JsString [])
  = js_or v (JsString []).
Proof.
  unfold js_or. destruct (truthy v) eqn:E; simpl; [|reflexivity].
  rewrite E. simpl. now rewrite E.
Qed.

(** A text that is a string is the page content of its [Document]. *)
Lemma toDocument_text (doc : SearchResult) :
  is_string (TfIdfEngine.documentContent doc) = true ->
  pageContent (EnsembleEngine.toDocument doc) = TfIdfEngine.documentContent doc.
Proof.
  unfold EnsembleEngine.toDocument. simpl.
  change (EnsembleEngine.documentContent doc) with (TfIdfEngine.documentContent doc).
  destruct (TfIdfEngine.documentContent doc); simpl; intro H;
    try discriminate; reflexivity.
Qed.

Lemma toDocument_content (doc : SearchResult) :
  is_string (TfIdfEngine.documentContent doc) = true ->
  EnsembleEngine.documentContent (EnsembleEngine.toDocument doc)
  = TfIdfEngine.documentContent doc.
Proof.
  intro Htext. unfold EnsembleEngine.documentContent at 1.
  rewrite (toDocument_text doc Htext).
  change (content (EnsembleEngine.toDocument doc)) with JsUndefined.
  unfold TfIdfEngine.documentContent. apply js_or_default.
Qed.

Lemma ensemble_index (documents : list SearchResult) (index : TfIdf) :
  Forall (fun doc => is_string (TfIdfEngine.documentContent doc) = true) documents ->
  forEachM EnsembleEngine.indexDocument (map EnsembleEngine.toDocument documents) index
  = forEachM TfIdfEngine.indexDocument documents index.
Proof.
  intro Htexts. revert index.
  induction Htexts as [|doc rest Hdoc _ IH]; intro index; [reflexivity|].
  cbn [map forEachM].
  unfold EnsembleEngine.indexDocument at 1, TfIdfEngine.indexDocument at 1.
  rewrite (toDocument_content doc Hdoc).
  destruct (preprocessText (TfIdfEngine.documentContent doc)); simpl;
    [apply IH | reflexivity].
Qed.

Lemma ensemble_scores (f : SearchResult -> SearchResult) (index : TfIdf)
  (queryTerms : list jsstring) (documents : list SearchResult) (i : nat) :
  EnsembleEngine.scoreDocuments index queryTerms (map f documents) i
  = map (hitScored index queryTerms) (positiveHits index queryTerms documents i).
Proof.
  unfold positiveHits. revert i.
  induction documents as [|doc rest IH]; intro i; simpl; [reflexivity|].
  rewrite IH. destruct (Qlt_bool 0 (sumTfidf index queryTerms i)); reflexivity.
Qed.

Lemma documentAt_hits (f : SearchResult -> SearchResult) (index : TfIdf)
  (queryTerms : list jsstring) (documents : list SearchResult)
  (hits : list (nat * SearchResult)) :
  Forall (fun hit => nth_error documents (fst hit) = Some (snd hit)) hits ->
  flat_map (EnsembleEngine.documentAt (map f documents))
           (map (hitScored index queryTerms) hits)
  = map (fun hit => f (snd hit)) hits.
Proof.
  induction 1 as [|hit hits Hhit _ IH]; simpl; [reflexivity|].
  unfold EnsembleEngine.documentAt at 1. simpl.
  rewrite nth_error_map, Hhit. simpl. now rewrite IH.
Qed.

End RevisionFacts.

(** X17: built over the same corpus, of chunks whose text ([pageContent
    || content || '']) is a string, and with a vector store that has
    [asRetriever], the two revisions of the engine answer a keyword
    query with the same chunks in the same order: result for result
    the same content, the same metadata up to [metadata || {}] and the
    tag keyword.  (The scores differ: the TF-IDF sum in one revision,
    [1 / (i + 1)] in the other.  A text that is not a string is indexed
    as its [toString()] by one revision and as the empty text by the
    other.) *)
Theorem keywordSearch_revisions_agree
  `{Case : CaseMapping} `{Measure : NaturalTfIdf} `{Host : Runtime}
  (documents : list SearchResult) (store : VectorStore) (query : jsstring) (n : nat) :
  Forall (fun doc => is_string (TfIdfEngine.documentContent doc) = true) documents ->
  exists ensembleEngine tfidfEngine ensembleResults tfidfResults,
    EnsembleEngine.buildIndex (EnsembleEngine.new_HybridSearchEngine store)
      documents (EnsembleEngine.HasRetriever store) = Ok ensembleEngine
    /\ TfIdfEngine.buildIndex (TfIdfEngine.new_HybridSearchEngine store) documents
       = Ok tfidfEngine
    /\ snd (EnsembleEngine.keywordSearch ensembleEngine query n) = Ok ensembleResults
    /\ TfIdfEngine.keywordSearch tfidfEngine query n = Ok tfidfResults
    /\ Forall2 sameChunk ensembleResults tfidfResults
    /\ Forall (fun r => searchType r = Some keyword) tfidfResults.
Proof.
  intro Htexts.
  set (index := {| tfidf_documents := map processedOf documents |}).
  assert (Hbm25 : EnsembleEngine.new_BM25Retriever
                    (map EnsembleEngine.toDocument documents) 10
                  = Ok {| EnsembleEngine.bm25_documents :=
                            map EnsembleEngine.toDocument documents;
                          EnsembleEngine.bm25_k := 10;
                          EnsembleEngine.bm25_tfidf := index |}).
  { unfold EnsembleEngine.new_BM25Retriever.
    now rewrite (ensemble_index _ Htexts), indexDocuments_texts. }
  eexists. eexists.
  destruct (preprocessText_total (JsString query)) as [processed Hquery].
  set (queryTerms := splitTerms processed).
  set (hits := slice0 n (Array_sort (byHitScore index queryTerms)
                           (positiveHits index queryTerms documents 0))).
  exists (EnsembleEngine.mapi (EnsembleEngine.rankedResult keyword)
            (map (fun hit => EnsembleEngine.toDocument (snd hit)) hits) 0).
  exists (map (hitResult index queryTerms) hits).
  split; [unfold EnsembleEngine.buildIndex; rewrite Hbm25; reflexivity|].
  split; [apply buildIndex_closed_form|].
  assert (Hhits : Forall (fun hit => nth_error documents (fst hit) = Some (snd hit)) hits).
  { apply Forall_forall. intros hit Hhit. subst hits. unfold slice0 in Hhit.
    apply firstn_In, sortedHits_In in Hhit. tauto. }
  split; [|split; [|split]].
  - unfold EnsembleEngine.keywordSearch. simpl.
    unfold EnsembleEngine.BM25_getRelevantDocuments. rewrite Hquery. simpl.
    fold queryTerms.
    destruct (length queryTerms =? 0)%nat eqn:Hterms.
    + apply Nat.eqb_eq, length_zero_iff_nil in Hterms.
      subst hits. rewrite Hterms, sortedHits_nil. unfold slice0.
      now rewrite firstn_nil.
    + simpl. rewrite ensemble_scores.
      rewrite (Array_sort_map (hitScored index queryTerms)
                 (byHitScore index queryTerms) EnsembleEngine.byScore)
        by reflexivity.
      unfold slice0. rewrite firstn_map. fold (slice0 n
        (Array_sort (byHitScore index queryTerms)
           (positiveHits index queryTerms documents 0))). fold hits.
      now rewrite (documentAt_hits _ _ _ _ Hhits).
  - destruct (@keywordSearch_hits _ _
                {| TfIdfEngine.vectorStore := store;
                   TfIdfEngine.tfidf := index;
                   TfIdfEngine.documents := documents;
                   TfIdfEngine.documentMetadata := map metadata documents;
                   TfIdfEngine.isIndexed := true |} query n eq_refl)
      as [processed' [Hquery' Hfound]].
    rewrite Hquery in Hquery'. injection Hquery' as <-. exact Hfound.
  - assert (Hin : Forall (fun hit => In (snd hit) documents) hits).
    { apply Forall_forall. intros hit Hhit. rewrite Forall_forall in Hhits.
      exact (nth_error_In _ _ (Hhits hit Hhit)). }
    clearbody hits. clear Hhits. generalize 0%nat.
    induction Hin as [|hit hits Hhit _ IH]; intro i; simpl; constructor; [|apply IH].
    rewrite Forall_forall in Htexts.
    unfold sameChunk, hitResult. simpl.
    change (EnsembleEngine.documentContent (snd hit))
      with (TfIdfEngine.documentContent (snd hit)).
    specialize (Htexts (snd hit) Hhit).
    destruct (TfIdfEngine.documentContent (snd hit)); simpl in *;
      try discriminate; repeat split.
  - apply Forall_forall. intros r Hr. apply in_map_iff in Hr.
    now destruct Hr as [hit [<- _]].
Qed.

Lemma keywordSearch_revisions_agree_witness :
  exists ensembleEngine tfidfEngine ensembleResults tfidfResults,
    EnsembleEngine.buildIndex (Case := AsciiCase) (Host := PlainRuntime)
      (EnsembleEngine.new_HybridSearchEngine (constantStore []))
      [docA; docB] (EnsembleEngine.HasRetriever (constantStore [])) = Ok ensembleEngine
    /\ TfIdfEngine.buildIndex (Case := AsciiCase)
         (TfIdfEngine.new_HybridSearchEngine (constantStore [])) [docA; docB]
       = Ok tfidfEngine
    /\ snd (EnsembleEngine.keywordSearch (Case := AsciiCase) (Measure := TermCount)
              ensembleEngine (str "yellow bananas") 5) = Ok ensembleResults
    /\ TfIdfEngine.keywordSearch (Case := AsciiCase) (Measure := TermCount)
         tfidfEngine (str "yellow bananas") 5 = Ok tfidfResults
    /\ Forall2 sameChunk ensembleResults tfidfResults
    /\ Forall (fun r => searchType r = Some keyword) tfidfResults.
Proof.
  apply (@keywordSearch_revisions_agree AsciiCase TermCount PlainRuntime
           [docA; docB] (constantStore []) (str "yellow bananas") 5).
  repeat constructor.
Defined.

(** A chunk whose content is a number: the LangChain revision indexes
    and returns it as the string of the number, the TF-IDF revision
    indexes it as the empty text and never returns it. *)
Example keywordSearch_revisions_differ_on_numbers :
  (exists found,
     snd (EnsembleEngine.keywordSearch (Case := AsciiCase) (Measure := TermCount)
            (match EnsembleEngine.buildIndex (Case := AsciiCase) (Host := PlainRuntime)
                     (EnsembleEngine.new_HybridSearchEngine (constantStore []))
                     [bare (JsNumber 42)]
                     (EnsembleEngine.HasRetriever (constantStore [])) with
             | Ok engine => engine
             | Throw _ => EnsembleEngine.new_HybridSearchEngine (constantStore [])
             end)
            (str "42") 5) = Ok [found])
  /\ TfIdfEngine.keywordSearch (Case := AsciiCase) (Measure := TermCount)
       (match TfIdfEngine.buildIndex (Case := AsciiCase)
                (TfIdfEngine.new_HybridSearchEngine (constantStore []))
                [bare (JsNumber 42)] with
        | Ok engine => engine
        | Throw _ => TfIdfEngine.new_HybridSearchEngine (constantStore [])
        end)
       (str "42") 5 = Ok [].
Proof. split; [eexists|]; vm_compute; reflexivity. Qed.

(** [buildIndex] of the LangChain revision throws for a store without
    [asRetriever]. *)
Example buildIndex_without_asRetriever :
  EnsembleEngine.buildIndex (Case := AsciiCase) (Host := PlainRuntime)
    (EnsembleEngine.new_HybridSearchEngine (constantStore [docB])) [docA; docB]
    EnsembleEngine.NoRetriever
  = Throw TypeError.
Proof. reflexivity. Qed.

(** ** The states of the engine *)

(** X18: every engine of the TF-IDF revision that the constructor,
    [buildIndex] and [rebuildIndex] make keeps the vector store it was
    made with, holds one text in its index and one entry of metadata
    for each document, and is either indexed or as the constructor
    left it, without documents. *)
Theorem reachable_engine_invariant `{Case : CaseMapping}
  (store : VectorStore) (this : TfIdfEngine.HybridSearchEngine) :
  Reachable store this ->
  TfIdfEngine.vectorStore this = store
  /\ length (tfidf_documents (TfIdfEngine.tfidf this))
     = length (TfIdfEngine.documents this)
  /\ TfIdfEngine.documentMetadata this = map metadata (TfIdfEngine.documents this)
  /\ (TfIdfEngine.isIndexed this = true
      \/ this = TfIdfEngine.new_HybridSearchEngine store).
Proof.
  assert (Hbuild : forall this this' documents,
             TfIdfEngine.vectorStore this = store ->
             TfIdfEngine.buildIndex this documents = Ok this' ->
             TfIdfEngine.vectorStore this' = store
             /\ length (tfidf_documents (TfIdfEngine.tfidf this'))
                = length (TfIdfEngine.documents this')
             /\ TfIdfEngine.documentMetadata this'
                = map metadata (TfIdfEngine.documents this')
             /\ (TfIdfEngine.isIndexed this' = true
                 \/ this' = TfIdfEngine.new_HybridSearchEngine store)).
  { intros e e' documents Hstore Hbuilt.
    rewrite buildIndex_closed_form in Hbuilt. injection Hbuilt as <-. simpl.
    rewrite length_map. auto. }
  induction 1 as [|e e' documents _ IH Hbuilt|e e' _ IH Hrebuilt].
  - simpl. auto.
  - apply (Hbuild e e' documents); [apply IH | exact Hbuilt].
  - unfold TfIdfLifecycle.rebuildIndex in Hrebuilt.
    destruct (0 <? length (TfIdfEngine.documents e))%nat.
    + apply (Hbuild e e' (TfIdfEngine.documents e)); [apply IH | exact Hrebuilt].
    + injection Hrebuilt as <-. exact IH.
Qed.

Lemma reachable_engine_invariant_witness :
  TfIdfEngine.vectorStore (exampleEngine failingStore) = failingStore
  /\ length (tfidf_documents (TfIdfEngine.tfidf (exampleEngine failingStore)))
     = length (TfIdfEngine.documents (exampleEngine failingStore))
  /\ TfIdfEngine.documentMetadata (exampleEngine failingStore)
     = map metadata (TfIdfEngine.documents (exampleEngine failingStore))
  /\ (TfIdfEngine.isIndexed (exampleEngine failingStore) = true
      \/ exampleEngine failingStore = TfIdfEngine.new_HybridSearchEngine failingStore).
Proof.
  apply (@reachable_engine_invariant AsciiCase failingStore (exampleEngine failingStore)).
  apply (@reach_buildIndex AsciiCase failingStore
           (TfIdfEngine.new_HybridSearchEngine failingStore) _ [docA; docB]).
  - apply reach_new.
  - reflexivity.
Defined.

(** ** [query] and [directQuery] *)

Lemma filter_above (bound : Q) (results : list SearchResult) :
  Forall (fun r => bound < score r)
         (filter (fun result => Qlt_bool bound (score result)) results).
Proof.
  apply Forall_forall. intros r Hr. apply filter_In in Hr.
  now apply Qlt_bool_iff.
Qed.

(** What the inner [try] of [directQuery] leaves in [sources] and
    [searchResults]. *)
Lemma referenceSources_shape (this : QueryRouting.Engine) (question : jsstring)
  (n : nat) :
  exists sources results,
    try_catch (QueryRouting.referenceSources this question n)
      (fun sourceError => Ok ([], []))
    = Ok (sources, results)
    /\ Forall (fun r => 3 # 10 < score r) results
    /\ (length sources <= length results)%nat
    /\ (results = [] \/ exists count, QueryRouting.documentsCount this = Some (S count)).
Proof.
  assert (Hnone : exists (sources : list QueryEngine.SourceGroup)
                         (results : list SearchResult),
             Ok ([], []) = Ok (sources, results)
             /\ Forall (fun r => 3 # 10 < score r) results
             /\ (length sources <= length results)%nat
             /\ (results = []
                 \/ exists count, QueryRouting.documentsCount this = Some (S count))).
  { exists [], []. repeat split; auto. }
  unfold QueryRouting.referenceSources.
  destruct (QueryRouting.documentsCount this) as [[|count]|]; try exact Hnone.
  destruct (similaritySearch (QueryRouting.vectorStore this) question n)
    as [relevantDocs|]; simpl; [|exact Hnone].
  destruct (0 <? length relevantDocs)%nat; simpl; [|exact Hnone].
  destruct (0 <? length (filter _ relevantDocs))%nat; simpl; [|exact Hnone].
  destruct (QueryEngine.extractSources _) as [sources|] eqn:Hsources; simpl;
    [|exact Hnone].
  eexists. eexists. split; [reflexivity|].
  split; [apply filter_above|].
  split; [exact (extractSources_length _ Hsources) | eauto].
Qed.

Lemma directQuery_answers `{Host : Runtime}
  (this : QueryRouting.Engine) (question text : jsstring)
  (conversationHistory : list QueryPipeline.Message) (n : nat) :
  QueryRouting.directChain this
    {| QueryPipeline.inputContext := None;
       QueryPipeline.inputQuestion := question;
       QueryPipeline.inputHistory :=
         QueryPipeline.formatConversationHistory conversationHistory |}
  = Ok text ->
  exists sources results,
    QueryRouting.directQuery this question conversationHistory n
    = Ok {| QueryRouting.answerText := text;
            QueryRouting.answerSources := sources;
            QueryRouting.answerResults := results;
            QueryRouting.queryType := Some (str "direct") |}
    /\ Forall (fun r => 3 # 10 < score r) results
    /\ (length sources <= length results)%nat
    /\ (results = []
        \/ exists count, QueryRouting.documentsCount this = Some (S count)).
Proof.
  intro Hchain. unfold QueryRouting.directQuery. rewrite Hchain. simpl.
  destruct (referenceSources_shape this question n)
    as [sources [results [-> Hshape]]].
  exists sources, results. split; [reflexivity | exact Hshape].
Qed.


Lemma directQuery_direct `{Host : Runtime}
  (this : QueryRouting.Engine) (question : jsstring)
  (conversationHistory : list QueryPipeline.Message) (n : nat)
  (answer : QueryRouting.QueryAnswer) :
  QueryRouting.directQuery this question conversationHistory n = Ok answer ->
  QueryRouting.queryType answer = Some (str "direct")
  /\ QueryRouting.directChain this
       {| QueryPipeline.inputContext := None;
          QueryPipeline.inputQuestion := question;
          QueryPipeline.inputHistory :=
            QueryPipeline.formatConversationHistory conversationHistory |}
     = Ok (QueryRouting.answerText answer).
Proof.
  unfold QueryRouting.directQuery.
  destruct (QueryRouting.directChain this _) as [text|error]; simpl; [|discriminate].
  destruct (referenceSources_shape this question n)
    as [sources [results [-> _]]].
  simpl. intro H. injection H as <-. auto.
Qed.

Lemma forced_search `{Case : CaseMapping} `{Host : Runtime}
  (this : QueryRouting.Engine) (question : jsstring)
  (options : QueryRouting.RoutingOptions) :
  QueryRouting.query this question (QueryRouting.forced options)
  = try_catch (QueryRouting.searchAndAnswer this question options)
      (fun error => Throw (Error (str "Query failed: " ++ message_of error))).
Proof.
  unfold QueryRouting.query, QueryRouting.classifyAndAnswer.
  destruct (QueryRouting.questionClassifier this); reflexivity.
Qed.

(** X20: [query] never reports a failure of the classifier or of the
    direct answer: it either returns the answer that [directQuery]
    returned, of type direct, or does what it does when the search
    mode is forced.  What it throws is an [Error] whose message starts
    with [Query failed: ]. *)
Theorem query_direct_or_search `{Case : CaseMapping} `{Host : Runtime}
  (this : QueryRouting.Engine) (question : jsstring)
  (options : QueryRouting.RoutingOptions) :
  (QueryRouting.query this question options
   = QueryRouting.query this question (QueryRouting.forced options)
   \/ exists answer,
        QueryRouting.query this question options = Ok answer
        /\ QueryRouting.directQuery this question
             (QueryRouting.conversationHistory options) 3 = Ok answer
        /\ QueryRouting.queryType answer = Some (str "direct"))
  /\ match QueryRouting.query this question options with
     | Ok answer => True
     | Throw error => exists message, error = Error (str "Query failed: " ++ message)
     end.
Proof.
  split.
  - rewrite forced_search.
    unfold QueryRouting.query, QueryRouting.classifyAndAnswer.
    destruct (QueryRouting.questionClassifier this) as [chain|]; [|now left].
    destruct (QueryRouting.forceSearchMode options); simpl; [now left|].
    destruct (classifyQuestion_total chain question) as [[|] ->]; simpl; [|now left].
    destruct (QueryRouting.directQuery this question
                (QueryRouting.conversationHistory options) 3) as [answer|error] eqn:Hdirect;
      simpl; [|now left].
    right. exists answer. repeat split.
    now apply directQuery_direct in Hdirect.
  - unfold QueryRouting.query.
    destruct (returned <- QueryRouting.classifyAndAnswer this question options ;;
              match returned with
              | Some answer => Ok answer
              | None => QueryRouting.searchAndAnswer this question options
              end); simpl; eauto.
Qed.

(** X21: a question that the patterns of the classifier take for a
    greeting or a personal question gets the answer of the direct
    chain, of type direct, when there is a classifier and the search
    mode is not forced: neither the classification chain nor the
    vector store has to work. *)
Theorem greeting_gets_direct_answer `{Case : CaseMapping} `{Host : Runtime}
  (this : QueryRouting.Engine) (question text : jsstring)
  (options : QueryRouting.RoutingOptions) :
  QuestionClassifier.isLikelyGreeting question
  || QuestionClassifier.isPersonalQuestion question = true ->
  QueryRouting.questionClassifier this <> None ->
  QueryRouting.forceSearchMode options = false ->
  QueryRouting.directChain this
    {| QueryPipeline.inputContext := None;
       QueryPipeline.inputQuestion := question;
       QueryPipeline.inputHistory :=
         QueryPipeline.formatConversationHistory
           (QueryRouting.conversationHistory options) |}
  = Ok text ->
  exists answer,
    QueryRouting.query this question options = Ok answer
    /\ QueryRouting.answerText answer = text
    /\ QueryRouting.queryType answer = Some (str "direct").
Proof.
  intros Hpattern Hclassifier Hforce Hchain.
  destruct (@directQuery_answers _ this question text
              (QueryRouting.conversationHistory options) 3 Hchain)
    as [sources [results [Hdirect _]]].
  exists {| QueryRouting.answerText := text;
            QueryRouting.answerSources := sources;
            QueryRouting.answerResults := results;
            QueryRouting.queryType := Some (str "direct") |}.
  split; [|split; reflexivity].
  unfold QueryRouting.query, QueryRouting.classifyAndAnswer.
  destruct (QueryRouting.questionClassifier this) as [chain|]; [|contradiction].
  rewrite Hforce. simpl.
  unfold QuestionClassifier.classifyQuestion. rewrite Hpattern. simpl.
  rewrite Hdirect. reflexivity.
Qed.

Lemma greeting_gets_direct_answer_witness :
  exists answer,
    QueryRouting.query (Case := AsciiCase) (Host := PlainRuntime)
      offlineEngine (str "Hello") QueryRouting.defaultOptions = Ok answer
    /\ QueryRouting.answerText answer = str "No previous conversation."
    /\ QueryRouting.queryType answer = Some (str "direct").
Proof.
  apply (@greeting_gets_direct_answer AsciiCase PlainRuntime offlineEngine
           (str "Hello") (str "No previous conversation.")
           QueryRouting.defaultOptions).
  - reflexivity.
  - discriminate.
  - reflexivity.
  - reflexivity.
Defined.

(** ** [processDocument] *)

Lemma mapi_ids {A : Type} (f : A -> nat -> SearchResult) (prefix : jsstring)
  (l : list A) (i : nat) :
  (forall x j, getDocumentId (f x j) = prefix ++ Number_toString (N.of_nat j)) ->
  map getDocumentId (EnsembleEngine.mapi f l i)
  = map (fun j => prefix ++ Number_toString (N.of_nat j)) (seq i (length l)).
Proof.
  intro H. revert i. induction l as [|x l IH]; intro i; simpl; [reflexivity|].
  now rewrite H, IH.
Qed.

Lemma mapi_nth {A B : Type} (f : A -> nat -> B) (l : list A) (i n : nat) (y : B) :
  nth_error (EnsembleEngine.mapi f l i) n = Some y ->
  exists x, nth_error l n = Some x /\ y = f x (i + n)%nat.
Proof.
  revert i n. induction l as [|x l IH]; intros i n H; simpl in H.
  - destruct n; discriminate.
  - destruct n as [|n]; simpl in *.
    + injection H as <-. exists x. now rewrite Nat.add_0_r.
    + destruct (IH (S i) n H) as [x' [Hx' ->]]. exists x'.
      split; [exact Hx' | f_equal; lia].
Qed.

Lemma NoDup_map_injective {A B : Type} (f : A -> B) (l : list A) :
  (forall a b, f a = f b -> a = b) -> NoDup l -> NoDup (map f l).
Proof.
  intros Hf. induction 1 as [|x l Hx _ IH]; simpl; constructor; [|exact IH].
  intro Hin. apply in_map_iff in Hin. destruct Hin as [y [Hy Hin]].
  apply Hf in Hy. now subst y.
Qed.

Lemma chunk_ids_NoDup (prefix : jsstring) (i n : nat) :
  NoDup (map (fun j => prefix ++ Number_toString (N.of_nat j)) (seq i n)).
Proof.
  apply NoDup_map_injective; [|apply seq_NoDup].
  intros a b Hab. apply app_inv_head, Number_toString_inj in Hab.
  now apply Nat2N.inj.
Qed.

(** X22: the documents that [processDocument] returns for a file carry
    the name of the file as their source and their position as their
    chunk index, so no two of them have the same document id; their
    text is in [pageContent].  What it throws is an [Error] whose
    message starts with [Failed to process document: ]. *)
Theorem processDocument_chunks `{Case : CaseMapping} `{Host : Runtime}
  (env : DocumentProcessor.Environment) (filePath originalName : jsstring) :
  match DocumentProcessor.processDocument env filePath originalName with
  | Throw error =>
      exists message, error = Error (str "Failed to process document: " ++ message)
  | Ok documents =>
      NoDup (map getDocumentId documents)
      /\ forall i document,
           nth_error documents i = Some document ->
           exists chunk processed,
             document
             = {| content := JsUndefined;
                  pageContent := JsString chunk;
                  metadata :=
                    Some {| source := Some originalName;
                            chunkIndex := Some (N.of_nat i);
                            fileType :=
                              Some (toLowerCase
                                      (DocumentProcessor.extname env originalName));
                            processedAt := Some processed |};
                  score := 0;
                  searchType := None;
                  keywordRank := None; keywordScore := None;
                  semanticRank := None; semanticScore := None |}
  end.
Proof.
  unfold DocumentProcessor.processDocument.
  set (fileExtension := toLowerCase (DocumentProcessor.extname env originalName)).
  match goal with
  | |- context [bind ?reader _] => destruct reader as [text|error]
  end; simpl; [|eauto].
  destruct ((length text =? 0)%nat || (length (String_trim text) =? 0)%nat);
    simpl; [eauto|].
  destruct (length (String_trim text) <? 10)%nat; simpl; [eauto|].
  destruct (DocumentProcessor.splitText env text) as [chunks|error]; simpl; [|eauto].
  split.
  - rewrite (mapi_ids _ (string_or (Some originalName) (str "unknown") ++ str "_")).
    + apply chunk_ids_NoDup.
    + intros chunk j. unfold getDocumentId. simpl metadata_or_empty.
      cbn [source chunkIndex number_or_zero]. now rewrite app_assoc.
  - intros i document Hdocument.
    apply mapi_nth in Hdocument. destruct Hdocument as [chunk [_ ->]].
    exists chunk, (DocumentProcessor.toISOString env i). reflexivity.
Qed.

Lemma processDocument_example :
  exists documents,
    DocumentProcessor.processDocument (Case := AsciiCase) (Host := PlainRuntime)
      exampleEnvironment (str "/tmp/upload-1") (str "Fruit.TXT") = Ok documents
    /\ map getDocumentId documents = [str "Fruit.TXT_0"; str "Fruit.TXT_1"].
Proof. eexists. split; vm_compute; reflexivity. Qed.
